(** * learn-kubernetes: the progress store, the mock deciders and the
      timer-driven simulators, embedded and verified.

    The site is a React application.  Component state ([useState]) and
    refs ([useRef]) become record fields; an event handler or a timer
    callback becomes a function from world to world; [setTimeout] and
    [clearTimeout] act on an explicit timer queue (module [Loop]).
    Numbers that the code only ever uses as small whole numbers are [Z]. *)

From Stdlib Require Import ZArith List Bool Lia String Ascii DecimalString.
From Stdlib Require Import Sorting.Sorted Sorting.Permutation.
Import ListNotations.
Open Scope Z_scope.

(* ------------------------------------------------------------------ *)
(** ** Array helpers shared by the components *)
(* ------------------------------------------------------------------ *)

Module Js.

Section Sort.
Context {A : Type}.
(** The comparator of [Array.prototype.sort]: negative when the first
    argument goes first. *)
Variable cmp : A -> A -> Z.

(** [sort] is stable; for a comparator that is a total preorder every
    stable sort returns the same array, so insertion from the right
    stands for the engine's algorithm. *)
Fixpoint insert (x : A) (l : list A) : list A :=
  match l with
  | [] => [x]
  | y :: l' => if cmp x y <=? 0 then x :: y :: l' else y :: insert x l'
  end.

Definition sort (l : list A) : list A := fold_right insert [] l.
End Sort.

(** [Array.prototype.includes] on numbers. *)
Definition includes (l : list Z) (x : Z) : bool := existsb (Z.eqb x) l.

(** [Array.prototype.findIndex]; [None] is the code's [-1]. *)
Fixpoint findIndex {A} (p : A -> bool) (l : list A) : option nat :=
  match l with
  | [] => None
  | x :: l' => if p x then Some O
               else match findIndex p l' with
                    | Some i => Some (S i)
                    | None => None
                    end
  end.

(** [next[i] = v] for an index inside the array. *)
Fixpoint set_at {A} (i : nat) (v : A) (l : list A) : list A :=
  match l, i with
  | [], _ => []
  | _ :: l', O => v :: l'
  | x :: l', S j => x :: set_at j v l'
  end.

(** [next.splice(i, 1)]. *)
Fixpoint splice1 {A} (i : nat) (l : list A) : list A :=
  match l, i with
  | [], _ => []
  | _ :: l', O => l'
  | x :: l', S j => x :: splice1 j l'
  end.

(** [arr.slice(0, n)]. *)
Definition slice0 {A} (n : nat) (l : list A) : list A := firstn n l.

(** A whole number inside a template literal. *)
Definition string_of_Z (z : Z) : string := NilZero.string_of_int (Z.to_int z).

(** [Array.prototype.includes] on strings. *)
Definition includes_str (l : list string) (x : string) : bool :=
  existsb (String.eqb x) l.

End Js.

(* ------------------------------------------------------------------ *)
(** ** src/stores/progressStore.ts *)
(* ------------------------------------------------------------------ *)

Module ProgressStore.

(** [SectionId = 0 | 1 | ... | 9]: a number; the type is erased at run
    time, so the store holds plain numbers. *)
Definition SectionId := Z.

Definition SECTIONS : list SectionId := [0; 1; 2; 3; 4; 5; 6; 7; 8; 9].

Definition valid_section (s : SectionId) : Prop := 0 <= s <= 9.

Record ProgressState := mkProgress {
  currentSection : SectionId;
  visitedSections : list SectionId;
  completedExercises : list SectionId
}.

Definition initial : ProgressState :=
  mkProgress 0 [0; 1; 2; 3; 4; 5; 6; 7; 8; 9] [].

(** [(a, b) => a - b] *)
Definition ascending (a b : Z) : Z := a - b.

Definition markVisited (section : SectionId) (s : ProgressState) : ProgressState :=
  let existing := visitedSections s in
  if negb (Js.includes existing section)
  then mkProgress (currentSection s)
                  (Js.sort ascending (existing ++ [section]))
                  (completedExercises s)
  else s.

Definition setCurrentSection (section : SectionId) (s : ProgressState) : ProgressState :=
  if currentSection s =? section then s
  else markVisited section
         (mkProgress section (visitedSections s) (completedExercises s)).

Definition markExerciseComplete (section : SectionId) (s : ProgressState) : ProgressState :=
  let completed := completedExercises s in
  if negb (Js.includes completed section)
  then mkProgress (currentSection s) (visitedSections s)
                  (Js.sort ascending (completed ++ [section]))
  else s.

Definition resetProgress (_ : ProgressState) : ProgressState :=
  mkProgress 0 [0; 1; 2; 3; 4; 5; 6; 7; 8; 9] [].

(** The calls a client of the store can make. *)
Inductive action :=
| SetCurrentSection (section : SectionId)
| MarkVisited (section : SectionId)
| MarkExerciseComplete (section : SectionId)
| ResetProgress.

Definition apply (a : action) (s : ProgressState) : ProgressState :=
  match a with
  | SetCurrentSection x => setCurrentSection x s
  | MarkVisited x => markVisited x s
  | MarkExerciseComplete x => markExerciseComplete x s
  | ResetProgress => resetProgress s
  end.

Definition run (acts : list action) (s : ProgressState) : ProgressState :=
  fold_left (fun s a => apply a s) acts s.

(** The argument of an action has the declared type. *)
Definition well_typed (a : action) : Prop :=
  match a with
  | SetCurrentSection x | MarkVisited x | MarkExerciseComplete x => valid_section x
  | ResetProgress => True
  end.

(** The invariant of the data model. *)
Definition valid_state (s : ProgressState) : Prop :=
  valid_section (currentSection s) /\
  Forall valid_section (visitedSections s) /\
  Forall valid_section (completedExercises s).

Definition strictly_increasing (l : list Z) : Prop := StronglySorted Z.lt l.

(** Every section has been visited. *)
Definition all_visited (s : ProgressState) : Prop :=
  forall x, In x SECTIONS -> In x (visitedSections s).

End ProgressStore.

(* ------------------------------------------------------------------ *)
(** ** The host's timers

    [setTimeout] and [clearTimeout] on one event loop.  The clock counts
    milliseconds.  A timer runs when the clock reaches its due time;
    among timers that are due together the one created first runs first.
    Promise continuations ([await sleep(ms)]) run in the same turn as the
    timer that resolves them, so one callback stands for both. *)
(* ------------------------------------------------------------------ *)

Module Loop.
Section Loop.
Context {St Cb : Type}.

Record timer := mkTimer { handle : nat; due : Z; callback : Cb }.

(** [comp] is the component: its React state and its refs. *)
Record world := mkWorld {
  clock : Z;
  fresh : nat;
  queue : list timer;
  comp : St
}.

Definition boot (s : St) : world := mkWorld 0 1 [] s.

Definition with_comp (f : St -> St) (w : world) : world :=
  mkWorld (clock w) (fresh w) (queue w) (f (comp w)).

Definition setTimeout (f : Cb) (delay : Z) (w : world) : world * nat :=
  (mkWorld (clock w) (S (fresh w))
           (queue w ++ [mkTimer (fresh w) (clock w + Z.max 0 delay) f])
           (comp w),
   fresh w).

Definition clearTimeout (h : nat) (w : world) : world :=
  mkWorld (clock w) (fresh w)
          (filter (fun t => negb (Nat.eqb (handle t) h)) (queue w))
          (comp w).

(** [ids.forEach(clearTimeout)] *)
Definition clearEach (hs : list nat) (w : world) : world :=
  fold_left (fun w h => clearTimeout h w) hs w.

(** The timer to run next: least due time, the oldest among equals. *)
Fixpoint earliest (q : list timer) : option timer :=
  match q with
  | [] => None
  | t :: q' => match earliest q' with
               | Some u => if due u <? due t then Some u else Some t
               | None => Some t
               end
  end.

(** The world a callback starts from when its timer [t] runs. *)
Definition dequeue (t : timer) (w : world) : world :=
  mkWorld (Z.max (clock w) (due t)) (fresh w)
          (filter (fun u => negb (Nat.eqb (handle u) (handle t))) (queue w))
          (comp w).

Variable run : Cb -> world -> world.

Definition fire (t : timer) (w : world) : world :=
  run (callback t) (dequeue t w).

Definition idle_until (t : Z) (w : world) : world :=
  mkWorld (Z.max (clock w) t) (fresh w) (queue w) (comp w).

(** Let time pass up to [until], running at most [fuel] callbacks. *)
Fixpoint elapse (fuel : nat) (until : Z) (w : world) : world :=
  match fuel with
  | O => w
  | S k => match earliest (queue w) with
           | Some t => if due t <=? until
                       then elapse k until (fire t w)
                       else idle_until until w
           | None => idle_until until w
           end
  end.

(** Nothing is left to run before [until]. *)
Definition settled (until : Z) (w : world) : bool :=
  match earliest (queue w) with
  | Some t => until <? due t
  | None => true
  end.
(** Run the next [k] timers in the order in which they come due,
    however long that takes. *)
Fixpoint advance (k : nat) (w : world) : world :=
  match k with
  | O => w
  | S k' => match earliest (queue w) with
            | Some t => advance k' (fire t w)
            | None => w
            end
  end.

End Loop.
Arguments timer : clear implicits.
Arguments world : clear implicits.
End Loop.

(* ------------------------------------------------------------------ *)
(** ** src/components/simulations/NetworkPolicySimulator.tsx *)
(* ------------------------------------------------------------------ *)

Module NetworkPolicy.

Record TrafficTest := mkTest {
  test_id : Z; test_from : string; test_to : string; test_allowed : bool
}.

Record LastResult := mkLast {
  last_allowed : bool; last_from : string; last_to : string
}.

Definition PODS : list string := ["frontend"; "api"; "database"]%string.

(** [isBlocked], with the [policyActive] of the render that built it. *)
Definition isBlocked (policyActive : bool) (from to : string) : bool :=
  if negb policyActive then false
  else if (to =? "database")%string && negb (from =? "api")%string then true
  else false.

Definition allowed (policyActive : bool) (from to : string) : bool :=
  negb (isBlocked policyActive from to).

Record state := mkState {
  policyActive : bool;
  sendingFrom : option string;
  sendingTo : option string;
  animating : bool;
  tests : list TrafficTest;
  lastResult : option LastResult;
  timeoutIds : list nat;
  isMounted : bool;
  testId : Z          (* the module-level counter *)
}.

Definition initial : state :=
  mkState false None None false [] None [] true 0.

(** The timer callback of [sendTraffic]; it closes over [from], [to] and
    the [isBlocked] of the render in which the button was clicked. *)
Inductive Cb := Deliver (from to : string) (policyAtSend : bool).

Definition W := Loop.world state Cb.

Definition sendTraffic (from to : string) (w : W) : W :=
  let s := Loop.comp w in
  if animating s || (from =? to)%string then w
  else
    let w := Loop.with_comp (fun s =>
               mkState (policyActive s) (Some from) (Some to) true (tests s)
                       None (timeoutIds s) (isMounted s) (testId s)) w in
    let '(w, timeoutId) :=
      Loop.setTimeout (Deliver from to (policyActive s)) 800 w in
    Loop.with_comp (fun s =>
      mkState (policyActive s) (sendingFrom s) (sendingTo s) (animating s)
              (tests s) (lastResult s) (timeoutIds s ++ [timeoutId])
              (isMounted s) (testId s)) w.

Definition run (cb : Cb) (w : W) : W :=
  match cb with
  | Deliver from to policyAtSend =>
      if negb (isMounted (Loop.comp w)) then w
      else
        let ok := negb (isBlocked policyAtSend from to) in
        Loop.with_comp (fun s =>
          let id := testId s + 1 in
          mkState (policyActive s) None None false
                  (Js.slice0 8 (mkTest id from to ok :: tests s))
                  (Some (mkLast ok from to))
                  (timeoutIds s) (isMounted s) id) w
  end.

(** The toggle button. *)
Definition togglePolicy (w : W) : W :=
  Loop.with_comp (fun s =>
    mkState (negb (policyActive s)) (sendingFrom s) (sendingTo s) (animating s)
            (tests s) None (timeoutIds s) (isMounted s) (testId s)) w.

(** The effect cleanup that runs when the component unmounts. *)
Definition unmount (w : W) : W :=
  let w := Loop.with_comp (fun s =>
    mkState (policyActive s) (sendingFrom s) (sendingTo s) (animating s)
            (tests s) (lastResult s) (timeoutIds s) false (testId s)) w in
  let w := Loop.clearEach (timeoutIds (Loop.comp w)) w in
  Loop.with_comp (fun s =>
    mkState (policyActive s) (sendingFrom s) (sendingTo s) (animating s)
            (tests s) (lastResult s) [] (isMounted s) (testId s)) w.

(** Every pending timer is one whose handle [timeoutIds] holds. *)
Definition tracked (w : W) : Prop :=
  forall t, In t (Loop.queue w) -> In (Loop.handle t) (timeoutIds (Loop.comp w)).

(** What can happen next: a click while the component is on the page,
    the unmount, a timer that is due, or time passing with no timer due. *)
Inductive step : W -> W -> Prop :=
| step_send from to w :
    isMounted (Loop.comp w) = true -> step w (sendTraffic from to w)
| step_toggle w :
    isMounted (Loop.comp w) = true -> step w (togglePolicy w)
| step_unmount w : step w (unmount w)
| step_timer t w :
    Loop.earliest (Loop.queue w) = Some t -> step w (Loop.fire run t w)
| step_idle t w :
    Loop.settled t w = true -> step w (Loop.idle_until t w).

Inductive reachable : W -> Prop :=
| reach_boot : reachable (Loop.boot initial)
| reach_step w w' : reachable w -> step w w' -> reachable w'.

(** While the component is mounted, a request is in flight exactly
    when [animating] is set, and then exactly one timer is pending. *)
Definition one_in_flight (w : W) : Prop :=
  isMounted (Loop.comp w) = true ->
  (animating (Loop.comp w) = true /\ exists t, Loop.queue w = [t]) \/
  (animating (Loop.comp w) = false /\ Loop.queue w = []).

End NetworkPolicy.

(* ------------------------------------------------------------------ *)
(** ** src/components/simulations/SchedulerPlayground.tsx *)
(* ------------------------------------------------------------------ *)

Module Scheduler.

Record Node := mkNode {
  name : string;
  totalCpu : Z;
  totalMemory : Z;
  usedCpu : Z;
  usedMemory : Z;
  taints : option (list string)      (* [taints?: string[]] *)
}.

Record PodPlacement := mkPlacement { nodeName : string; reason : string }.

Definition nodes : list Node :=
  [ mkNode "node-1" 4 8 1 3 None;
    mkNode "node-2" 2 4 1 2 None;
    mkNode "node-3" 8 16 6 12 (Some ["gpu=true:NoSchedule"%string]) ].

Record NodeFit := mkFit {
  availCpu : Z; availMem : Z; cpuFit : bool; memFit : bool;
  fits : bool; hasTaint : bool
}.

Definition getNodeFit (cpuReq memReq : Z) (node : Node) : NodeFit :=
  let availCpu := totalCpu node - usedCpu node in
  let availMem := totalMemory node - usedMemory node in
  let cpuFit := availCpu >=? cpuReq in
  let memFit := availMem >=? memReq in
  let hasTaint :=
    (match taints node with Some l => Z.of_nat (List.length l) | None => 0 end) >? 0 in
  mkFit availCpu availMem cpuFit memFit (cpuFit && memFit && negb hasTaint) hasTaint.

(** [{ node: n, ...getNodeFit(n) }] *)
Definition Candidate := (Node * NodeFit)%type.

(** [(a, b) => (b.availCpu + b.availMem) - (a.availCpu + a.availMem)] *)
Definition mostAvailableFirst (a b : Candidate) : Z :=
  (availCpu (snd b) + availMem (snd b)) - (availCpu (snd a) + availMem (snd a)).

Definition candidates (table : list Node) (cpuReq memReq : Z) : list Candidate :=
  filter (fun c => fits (snd c))
         (map (fun n => (n, getNodeFit cpuReq memReq n)) table).

Definition pending : PodPlacement :=
  mkPlacement ""
    "No node has sufficient resources or all suitable nodes are tainted.".

(** Summed free CPU and memory of a candidate. *)
Definition available (c : Candidate) : Z := availCpu (snd c) + availMem (snd c).

(** A node carries a taint; a node can take the request. *)
Definition tainted (n : Node) : Prop :=
  exists l, taints n = Some l /\ l <> [].

Definition eligible (cpuReq memReq : Z) (n : Node) : Prop :=
  totalCpu n - usedCpu n >= cpuReq /\
  totalMemory n - usedMemory n >= memReq /\
  ~ tainted n.

(** The order the comparator sorts by. *)
Definition most_available (a b : Candidate) : Prop := available b <= available a.

(** [candidates.sort(...)[0]] *)
Definition pick (cs : list Candidate) : option Candidate :=
  hd_error (Js.sort mostAvailableFirst cs).

(** The decision taken inside the timer callback of [schedulePod]. *)
Definition decide (table : list Node) (cpuReq memReq : Z) : PodPlacement :=
  let cs := candidates table cpuReq memReq in
  if Nat.eqb (List.length cs) 0 then pending
  else
    match pick cs with
    | Some best =>
        mkPlacement (name (fst best))
          ("Best fit: " ++ Js.string_of_Z (availCpu (snd best)) ++
           " vCPU and " ++ Js.string_of_Z (availMem (snd best)) ++
           " Gi available.")%string
    | None => pending      (* not reached: a non-empty array has a first element *)
    end.

Record state := mkState {
  cpuReq : Z;
  memReq : Z;
  scheduled : option PodPlacement;
  scheduling : bool;
  timeoutRef : option nat;
  isMounted : bool
}.

Definition initial : state := mkState 1 2 None false None true.

(** The timer callback closes over the [getNodeFit] of the render in
    which the button was clicked, that is over [cpuReq] and [memReq]. *)
Inductive Cb := Decide (cpuAtClick memAtClick : Z).

Definition W := Loop.world state Cb.

Section WithTable.
Variable table : list Node.

Definition schedulePod (w : W) : W :=
  let w := Loop.with_comp (fun s =>
             mkState (cpuReq s) (memReq s) None true (timeoutRef s) (isMounted s)) w in
  let s := Loop.comp w in
  if negb (isMounted s) then w
  else
    (* a timer handle is a positive number, so a stored one is truthy *)
    let w := match timeoutRef s with
             | Some h => Loop.clearTimeout h w
             | None => w
             end in
    let '(w, h) := Loop.setTimeout (Decide (cpuReq s) (memReq s)) 1200 w in
    Loop.with_comp (fun s =>
      mkState (cpuReq s) (memReq s) (scheduled s) (scheduling s) (Some h)
              (isMounted s)) w.

Definition run (cb : Cb) (w : W) : W :=
  match cb with
  | Decide cpu mem =>
      if negb (isMounted (Loop.comp w)) then w
      else Loop.with_comp (fun s =>
             mkState (cpuReq s) (memReq s) (Some (decide table cpu mem)) false
                     (timeoutRef s) (isMounted s)) w
  end.

(** The range inputs. *)
Definition changeCpu (v : Z) (w : W) : W :=
  Loop.with_comp (fun s =>
    mkState v (memReq s) None (scheduling s) (timeoutRef s) (isMounted s)) w.

Definition changeMem (v : Z) (w : W) : W :=
  Loop.with_comp (fun s =>
    mkState (cpuReq s) v None (scheduling s) (timeoutRef s) (isMounted s)) w.

(** [<button onClick={schedulePod} disabled={scheduling}>]: a disabled
    button delivers no click. *)
Definition clickSchedule (w : W) : W :=
  if scheduling (Loop.comp w) then w else schedulePod w.

Definition unmount (w : W) : W :=
  let w := Loop.with_comp (fun s =>
    mkState (cpuReq s) (memReq s) (scheduled s) (scheduling s) (timeoutRef s) false) w in
  match timeoutRef (Loop.comp w) with
  | Some h => Loop.clearTimeout h w
  | None => w
  end.

(** The one pending timer, if any, is the one [timeoutRef] holds. *)
Definition tracked (w : W) : Prop :=
  forall t, In t (Loop.queue w) -> timeoutRef (Loop.comp w) = Some (Loop.handle t).

Inductive step : W -> W -> Prop :=
| step_schedulePod w :
    isMounted (Loop.comp w) = true -> step w (schedulePod w)
| step_changeCpu v w :
    isMounted (Loop.comp w) = true -> step w (changeCpu v w)
| step_changeMem v w :
    isMounted (Loop.comp w) = true -> step w (changeMem v w)
| step_unmount w : step w (unmount w)
| step_timer t w :
    Loop.earliest (Loop.queue w) = Some t -> step w (Loop.fire run t w)
| step_idle t w :
    Loop.settled t w = true -> step w (Loop.idle_until t w).

Inductive reachable : W -> Prop :=
| reach_boot : reachable (Loop.boot initial)
| reach_step w w' : reachable w -> step w w' -> reachable w'.
End WithTable.

End Scheduler.

(* ------------------------------------------------------------------ *)
(** ** src/components/simulations/ConfigAccessPlayground.tsx *)
(* ------------------------------------------------------------------ *)

Module ConfigAccess.

Inductive RbacRole := viewer | editor | admin.
Inductive Verdict := Allowed | Denied.

Record AccessAttempt := mkAttempt {
  id : Z; action : string; resource : string; result : Verdict; reason : string
}.

Definition role_name (r : RbacRole) : string :=
  match r with viewer => "viewer" | editor => "editor" | admin => "admin" end.

(** [RBAC_PERMISSIONS[role].verbs] *)
Definition verbs (r : RbacRole) : list string :=
  match r with
  | viewer => ["get"; "list"; "watch"]
  | editor => ["get"; "list"; "watch"; "create"; "update"; "patch"]
  | admin => ["get"; "list"; "watch"; "create"; "update"; "patch"; "delete"]
  end%string.

Record state := mkState {
  role : RbacRole;
  attempts : list AccessAttempt;
  attemptId : Z          (* the module-level counter *)
}.

Definition quote (s : string) : string :=
  String (ascii_of_nat 34) (s ++ String (ascii_of_nat 34) EmptyString)%string.

Definition tryAccess (action resource : string) (s : state) : state :=
  let allowed := Js.includes_str (verbs (role s)) action in
  let id := attemptId s + 1 in
  mkState (role s)
    (Js.slice0 6
       (mkAttempt id action resource
          (if allowed then Allowed else Denied)
          (if allowed
           then "Role " ++ quote (role_name (role s)) ++ " has " ++ quote action ++ " verb"
           else "Role " ++ quote (role_name (role s)) ++ " lacks " ++ quote action ++ " verb")%string
        :: attempts s))
    id.

(** Decision and reason of the newest attempt. *)
Definition verdict (s : state) : option (Verdict * string) :=
  match attempts s with
  | a :: _ => Some (result a, reason a)
  | [] => None
  end.

(** The role buttons: [onClick={() => setRole(r)}]. *)
Definition setRole (r : RbacRole) (s : state) : state :=
  mkState r (attempts s) (attemptId s).

(** What the user can do in the playground. *)
Inductive action_of_user :=
| TryAccess (action resource : string)
| SetRole (r : RbacRole).

Definition apply (a : action_of_user) (s : state) : state :=
  match a with
  | TryAccess action resource => tryAccess action resource s
  | SetRole r => setRole r s
  end.

Definition run (acts : list action_of_user) (s : state) : state :=
  fold_left (fun s a => apply a s) acts s.

(** A freshly mounted playground; the counter is the module's and may
    have been used before. *)
Definition mounted (counter : Z) : state := mkState viewer [] counter.

(** The attempts shown are numbered downwards from the counter. *)
Definition numbered_from_counter (s : state) : Prop :=
  forall k a, nth_error (attempts s) k = Some a -> id a = attemptId s - Z.of_nat k.

(** The role gets the action through. *)
Definition grants (r : RbacRole) (action resource : string) (s : state) : Prop :=
  exists why,
    verdict (tryAccess action resource (setRole r s)) = Some (Allowed, why).

(** How many of the user's actions are access attempts. *)
Fixpoint tries (acts : list action_of_user) : nat :=
  match acts with
  | [] => O
  | TryAccess _ _ :: rest => S (tries rest)
  | SetRole _ :: rest => tries rest
  end.

End ConfigAccess.

(* ------------------------------------------------------------------ *)
(** ** src/components/simulations/RolloutSimulator.tsx *)
(* ------------------------------------------------------------------ *)

Module Rollout.

Inductive PodStatus := Running | Creating | Terminating.
Inductive PodVersion := v1 | v2.

Record Pod := mkPod {
  id : string; version : PodVersion; status : PodStatus; name : string
}.

Inductive LogType := info | success | warn | error.

Record LogEntry := mkLog {
  log_id : string; time : string; message : string; type : LogType
}.

Inductive SimulationPhase := idle | rolling | complete | rolling_back | rolled_back.

Record state := mkState {
  pods : list Pod;
  phase : SimulationPhase;
  progress : Z;
  log : list LogEntry;
  timeoutsRef : list nat;
  draws : nat            (* calls of Math.random so far *)
}.

Definition version_eqb (a b : PodVersion) : bool :=
  match a, b with v1, v1 | v2, v2 => true | _, _ => false end.

Definition status_eqb (a b : PodStatus) : bool :=
  match a, b with
  | Running, Running | Creating, Creating | Terminating, Terminating => true
  | _, _ => false
  end.

Definition with_status (st : PodStatus) (p : Pod) : Pod :=
  mkPod (id p) (version p) st (name p).

(** [startRollout] and [startRollback] are the same text with the two
    versions exchanged; the timer callbacks carry which of the two
    created them. *)
Inductive Direction := Forward | Back.

Definition new_version (d : Direction) : PodVersion :=
  match d with Forward => v2 | Back => v1 end.

Definition old_version (d : Direction) : PodVersion :=
  match d with Forward => v1 | Back => v2 end.

(** The closures handed to [scheduleTimeout], with what they capture. *)
Inductive Cb :=
| PhaseA (d : Direction) (podIndex : Z)
| PhaseB (d : Direction) (podIndex : Z) (newPodName newPodId : string)
| PhaseC (d : Direction) (podIndex : Z)
| PhaseD (d : Direction) (podIndex : Z)
| Finish (d : Direction).

Definition W := Loop.world state Cb.

Definition STEP_DURATION : Z := 1400.
Definition totalPods : Z := 4.

(** Every pending timer is one whose handle [timeoutsRef] holds. *)
Definition tracked (w : W) : Prop :=
  forall t, In t (Loop.queue w) -> In (Loop.handle t) (timeoutsRef (Loop.comp w)).

(** [Math.round(a / b * 100)] for the whole numbers used here. *)
Definition percent (a b : Z) : Z := (2 * (a * 100) + b) / (2 * b).

Section Host.
(** What the host contributes: the text made of the n-th draw of
    [Math.random], the text of [Date.now()] and of the local time when
    the clock reads [c]. *)
Variable random : nat -> string.
Variable date_now : Z -> string.
Variable time_text : Z -> string.
(** [STEP_DURATION * 0.7] is 980 in exact arithmetic; the binary64
    product is 979.9999999999999, which a host that keeps whole
    milliseconds turns into 979.  The other delays are whole numbers
    either way. *)
Variable deleteDelay : Z.

Definition setPods (f : list Pod -> list Pod) : W -> W :=
  Loop.with_comp (fun s =>
    mkState (f (pods s)) (phase s) (progress s) (log s) (timeoutsRef s) (draws s)).

Definition setPhase (p : SimulationPhase) : W -> W :=
  Loop.with_comp (fun s =>
    mkState (pods s) p (progress s) (log s) (timeoutsRef s) (draws s)).

Definition setProgress (n : Z) : W -> W :=
  Loop.with_comp (fun s =>
    mkState (pods s) (phase s) n (log s) (timeoutsRef s) (draws s)).

Definition setLog (f : list LogEntry -> list LogEntry) : W -> W :=
  Loop.with_comp (fun s =>
    mkState (pods s) (phase s) (progress s) (f (log s)) (timeoutsRef s) (draws s)).

Definition setTimeoutsRef (f : list nat -> list nat) : W -> W :=
  Loop.with_comp (fun s =>
    mkState (pods s) (phase s) (progress s) (log s) (f (timeoutsRef s)) (draws s)).

(** One call of [Math.random]. *)
Definition draw (w : W) : string * W :=
  (random (draws (Loop.comp w)),
   Loop.with_comp (fun s =>
     mkState (pods s) (phase s) (progress s) (log s) (timeoutsRef s)
             (S (draws s))) w).

Definition randomSuffix := draw.

Definition buildInitialPods (w : W) : list Pod * W :=
  fold_left (fun '(acc, w) i =>
               let '(suffix, w) := randomSuffix w in
               (acc ++ [mkPod ("v1-" ++ Js.string_of_Z i)%string v1 Running
                              ("my-app-v1-" ++ suffix)%string], w))
            [1; 2; 3; 4] ([], w).

Definition addLog (message : string) (type : LogType) (w : W) : W :=
  let '(r, w) := draw w in
  let entry := mkLog (date_now (Loop.clock w) ++ "-" ++ r)%string
                     (time_text (Loop.clock w)) message type in
  setLog (fun prev => prev ++ [entry]) w.

Definition scheduleTimeout (fn : Cb) (delay : Z) (w : W) : W :=
  let '(w, id) := Loop.setTimeout fn delay w in
  setTimeoutsRef (fun l => l ++ [id]) w.

Definition clearAllTimeouts (w : W) : W :=
  let w := Loop.clearEach (timeoutsRef (Loop.comp w)) w in
  setTimeoutsRef (fun _ => []) w.

(** The [for] loop of both start functions; [baseDelay] is
    [i * STEP_DURATION * 2.2], a whole number of milliseconds for
    these [i]. *)
Definition scheduleCycles (d : Direction) (w : W) : W :=
  fold_left (fun w i => scheduleTimeout (PhaseA d i) (i * STEP_DURATION * 22 / 10) w)
            [0; 1; 2; 3] w.

Definition startRollout (w : W) : W :=
  let w := clearAllTimeouts w in
  let w := setPhase rolling w in
  let w := setProgress 0 w in
  let w := setLog (fun _ => []) w in
  let '(initialPods, w) := buildInitialPods w in
  let w := setPods (fun _ => initialPods) w in
  let w := addLog "Rollout started — strategy: RollingUpdate" info w in
  let w := addLog "maxSurge: 1 | maxUnavailable: 0" info w in
  scheduleCycles Forward w.

Definition startRollback (w : W) : W :=
  let w := clearAllTimeouts w in
  let w := setPhase rolling_back w in
  let w := setProgress 100 w in
  let w := setLog (fun _ => []) w in
  let w := addLog "Rollback initiated — reverting to v1" warn w in
  let w := addLog "maxSurge: 1 | maxUnavailable: 0" info w in
  scheduleCycles Back w.

Definition reset (w : W) : W :=
  let w := clearAllTimeouts w in
  let w := setPhase idle w in
  let w := setProgress 0 w in
  let w := setLog (fun _ => []) w in
  let '(initialPods, w) := buildInitialPods w in
  setPods (fun _ => initialPods) w.

(** The state updater of phase C, with the [addLog] it makes.  React
    runs an updater once per update in a production build, and state
    updates take effect in the order they are made. *)
Definition markTerminating (old : PodVersion) (w : W) : W :=
  let prev := pods (Loop.comp w) in
  match Js.findIndex (fun p => version_eqb (version p) old
                               && status_eqb (status p) Running) prev with
  | None => w
  | Some i =>
      match nth_error prev i with
      | Some terminatingPod =>
          let w := addLog ("Terminating pod " ++ name terminatingPod)%string error w in
          setPods (Js.set_at i (with_status Terminating terminatingPod)) w
      | None => w
      end
  end.

(** The state updater of phase D. *)
Definition removeTerminated (old : PodVersion) (w : W) : W :=
  let prev := pods (Loop.comp w) in
  match Js.findIndex (fun p => version_eqb (version p) old
                               && status_eqb (status p) Terminating) prev with
  | None => w
  | Some i =>
      match nth_error prev i with
      | Some removed =>
          let w := addLog ("Pod " ++ name removed ++ " deleted")%string info w in
          setPods (Js.splice1 i) w
      | None => w
      end
  end.

Definition run (cb : Cb) (w : W) : W :=
  match cb with
  | PhaseA d podIndex =>
      let '(suffix, w) := randomSuffix w in
      let newPodName :=
        match d with
        | Forward => ("my-app-v2-" ++ suffix)%string
        | Back => ("my-app-v1-" ++ suffix)%string
        end in
      let newPodId :=
        match d with
        | Forward => ("v2-" ++ Js.string_of_Z (podIndex + 1) ++ "-"
                      ++ date_now (Loop.clock w))%string
        | Back => ("v1-rb-" ++ Js.string_of_Z (podIndex + 1) ++ "-"
                   ++ date_now (Loop.clock w))%string
        end in
      let w := addLog ("Creating pod " ++ newPodName ++ "...")%string warn w in
      let w := setPods (fun prev =>
                 prev ++ [mkPod newPodId (new_version d) Creating newPodName]) w in
      scheduleTimeout (PhaseB d podIndex newPodName newPodId) STEP_DURATION w
  | PhaseB d podIndex newPodName newPodId =>
      let w := addLog ("Pod " ++ newPodName ++ " is Ready")%string success w in
      let w := setPods (map (fun p =>
                 if (id p =? newPodId)%string then with_status Running p else p)) w in
      scheduleTimeout (PhaseC d podIndex) (STEP_DURATION * 5 / 10) w
  | PhaseC d podIndex =>
      let w := markTerminating (old_version d) w in
      scheduleTimeout (PhaseD d podIndex) deleteDelay w
  | PhaseD d podIndex =>
      let w := removeTerminated (old_version d) w in
      let completedCount := podIndex + 1 in
      let w := setProgress
                 (match d with
                  | Forward => percent completedCount totalPods
                  | Back => percent (totalPods - completedCount) totalPods
                  end) w in
      if completedCount =? totalPods
      then scheduleTimeout (Finish d) 400 w
      else w
  | Finish Forward =>
      let w := setPhase complete w in
      addLog "Rollout complete — all pods running v2" success w
  | Finish Back =>
      let w := setPhase rolled_back w in
      addLog "Rollback complete — all pods running v1" success w
  end.

Definition isRolling (s : state) : bool :=
  match phase s with rolling | rolling_back => true | _ => false end.

Definition canRollback (s : state) : bool :=
  match phase s with complete => true | _ => false end.

Definition canDeploy (s : state) : bool :=
  match phase s with idle | rolled_back => true | _ => false end.

(** The three buttons; a disabled button delivers no click.
    [<button onClick={startRollout} disabled={!canDeploy || isRolling}>] *)
Definition clickDeploy (w : W) : W :=
  let s := Loop.comp w in
  if negb (canDeploy s) || isRolling s then w else startRollout w.

Definition clickRollback (w : W) : W :=
  let s := Loop.comp w in
  if negb (canRollback s) || isRolling s then w else startRollback w.

Definition clickReset (w : W) : W :=
  if isRolling (Loop.comp w) then w else reset w.

(** The effect cleanup: [timeoutsRef.current.forEach(clearTimeout)]. *)
Definition unmount (w : W) : W :=
  Loop.clearEach (timeoutsRef (Loop.comp w)) w.

(** The component before any click: [useState(buildInitialPods)]. *)
Definition mount : W :=
  let w := Loop.boot (mkState [] idle 0 [] [] O) in
  let '(initialPods, w) := buildInitialPods w in
  setPods (fun _ => initialPods) w.

(** A handler called at any moment (the buttons only narrow this),
    a timer that is due, or time passing. *)
Inductive step : W -> W -> Prop :=
| step_startRollout w : step w (startRollout w)
| step_startRollback w : step w (startRollback w)
| step_reset w : step w (reset w)
| step_timer t w :
    Loop.earliest (Loop.queue w) = Some t -> step w (Loop.fire run t w)
| step_idle t w :
    Loop.settled t w = true -> step w (Loop.idle_until t w).

Inductive reachable : W -> Prop :=
| reach_mount : reachable mount
| reach_step w w' : reachable w -> step w w' -> reachable w'.

(** The events of the scenario, read off the log: a creation is a line
    "Creating pod ...", a termination a line "Terminating pod ...". *)
Inductive Event := Create | Terminate.

Definition event_of (e : LogEntry) : option Event :=
  if String.prefix "Creating pod " (message e) then Some Create
  else if String.prefix "Terminating pod " (message e) then Some Terminate
  else None.

Fixpoint events (l : list LogEntry) : list Event :=
  match l with
  | [] => []
  | e :: l' => match event_of e with
               | Some ev => ev :: events l'
               | None => events l'
               end
  end.
End Host.



End Rollout.

(* ------------------------------------------------------------------ *)
(** ** src/components/simulations/ControlPlaneJourney.tsx *)
(* ------------------------------------------------------------------ *)

Module Journey.

(** The [id]s of [STEPS]. *)
Definition STEPS : list string :=
  ["kubectl"; "apiserver"; "etcd"; "scheduler"; "kubelet"; "running"]%string.

Definition STEPS_length : Z := Z.of_nat (List.length STEPS).

Record state := mkState {
  activeIndex : Z;
  traversingIndex : option Z;
  isRunningAll : bool;
  runAllRef : bool;
  timeoutIds : list nat;
  isMounted : bool
}.

Definition initial : state := mkState 0 None false false [] true.

(** The timer callback of [advanceTo], and the two places where
    [runAll] waits, each with the local [current] it resumes with. *)
Inductive Cb :=
| AdvanceDone (nextIndex : Z)
| RunAllTraversed (current : Z)
| RunAllPaused (current : Z).

Definition W := Loop.world state Cb.

Definition setActiveIndex (i : Z) : W -> W :=
  Loop.with_comp (fun s =>
    mkState i (traversingIndex s) (isRunningAll s) (runAllRef s) (timeoutIds s) (isMounted s)).

Definition setTraversingIndex (i : option Z) : W -> W :=
  Loop.with_comp (fun s =>
    mkState (activeIndex s) i (isRunningAll s) (runAllRef s) (timeoutIds s) (isMounted s)).

Definition setIsRunningAll (b : bool) : W -> W :=
  Loop.with_comp (fun s =>
    mkState (activeIndex s) (traversingIndex s) b (runAllRef s) (timeoutIds s) (isMounted s)).

Definition setRunAllRef (b : bool) : W -> W :=
  Loop.with_comp (fun s =>
    mkState (activeIndex s) (traversingIndex s) (isRunningAll s) b (timeoutIds s) (isMounted s)).

Definition setTimeoutIds (f : list nat -> list nat) : W -> W :=
  Loop.with_comp (fun s =>
    mkState (activeIndex s) (traversingIndex s) (isRunningAll s) (runAllRef s)
            (f (timeoutIds s)) (isMounted s)).

Definition setIsMounted (b : bool) : W -> W :=
  Loop.with_comp (fun s =>
    mkState (activeIndex s) (traversingIndex s) (isRunningAll s) (runAllRef s)
            (timeoutIds s) b).

(** [setTimeout] followed by [timeoutIds.current.push]. *)
Definition later (fn : Cb) (ms : Z) (w : W) : W :=
  let '(w, timeoutId) := Loop.setTimeout fn ms w in
  setTimeoutIds (fun l => l ++ [timeoutId]) w.

Definition isFinished (s : state) : bool := activeIndex s >=? STEPS_length - 1.

Definition advanceTo (nextIndex : Z) (w : W) : W :=
  if (nextIndex <=? activeIndex (Loop.comp w)) || (nextIndex >=? STEPS_length) then w
  else
    let w := setTraversingIndex (Some (nextIndex - 1)) w in
    later (AdvanceDone nextIndex) 480 w.

Definition handleNext (w : W) : W :=
  if negb (isFinished (Loop.comp w))
  then advanceTo (activeIndex (Loop.comp w) + 1) w
  else w.

Definition clearTimeouts (w : W) : W :=
  let w := Loop.clearEach (timeoutIds (Loop.comp w)) w in
  setTimeoutIds (fun _ => []) w.

Definition handleReset (w : W) : W :=
  let w := setRunAllRef false w in
  let w := setIsRunningAll false w in
  let w := setTraversingIndex None w in
  let w := setActiveIndex 0 w in
  clearTimeouts w.

Definition unmount (w : W) : W :=
  let w := setIsMounted false w in
  let w := clearTimeouts w in
  setRunAllRef false w.

(** After the [while] loop of [runAll]. *)
Definition runAll_end (w : W) : W :=
  let w := setRunAllRef false w in
  setIsRunningAll false w.

(** The loop test and the body up to [await sleep(480)]. *)
Definition runAll_loop (current : Z) (w : W) : W :=
  if (current <? STEPS_length - 1) && runAllRef (Loop.comp w)
  then
    let w := setTraversingIndex (Some current) w in
    later (RunAllTraversed current) 480 w
  else runAll_end w.

Definition runAll (w : W) : W :=
  if isRunningAll (Loop.comp w) then w
  else
    let w := setRunAllRef true w in
    let w := setIsRunningAll true w in
    runAll_loop (activeIndex (Loop.comp w)) w.

Definition run (cb : Cb) (w : W) : W :=
  match cb with
  | AdvanceDone nextIndex =>
      if negb (isMounted (Loop.comp w)) then w
      else
        let w := setTraversingIndex None w in
        setActiveIndex nextIndex w
  | RunAllTraversed current =>
      if negb (runAllRef (Loop.comp w)) || negb (isMounted (Loop.comp w))
      then runAll_end w
      else
        let next := current + 1 in
        let w := setTraversingIndex None w in
        let w := setActiveIndex next w in
        later (RunAllPaused next) 1000 w
  | RunAllPaused current => runAll_loop current w
  end.

(** The [onClick] of the i-th [PipelineNode]. *)
Definition nodeClick (i : Z) (w : W) : W :=
  if i <=? activeIndex (Loop.comp w)
  then
    let w := setRunAllRef false w in
    let w := setIsRunningAll false w in
    let w := setTraversingIndex None w in
    setActiveIndex i w
  else w.

(** [disabled={isFinished || isRunningAll}] on Next and on Run All. *)
Definition clickNext (w : W) : W :=
  let s := Loop.comp w in
  if isFinished s || isRunningAll s then w else handleNext w.

Definition clickRunAll (w : W) : W :=
  let s := Loop.comp w in
  if isFinished s || isRunningAll s then w else runAll w.

(** Every pending timer is one whose handle [timeoutIds] holds. *)
Definition tracked (w : W) : Prop :=
  forall t, In t (Loop.queue w) -> In (Loop.handle t) (timeoutIds (Loop.comp w)).

(** The step cursor points at a step. *)
Definition cursor_ok (w : W) : Prop :=
  0 <= activeIndex (Loop.comp w) <= STEPS_length - 1.

(** What a pending callback has captured keeps the cursor on a step. *)
Definition cb_ok (cb : Cb) : Prop :=
  match cb with
  | AdvanceDone nextIndex => 0 <= nextIndex < STEPS_length
  | RunAllTraversed current => 0 <= current < STEPS_length - 1
  | RunAllPaused current => 0 <= current
  end.

Definition inv (w : W) : Prop :=
  cursor_ok w /\ forall t, In t (Loop.queue w) -> cb_ok (Loop.callback t).

Inductive step : W -> W -> Prop :=
| step_advanceTo k w :
    isMounted (Loop.comp w) = true -> step w (advanceTo k w)
| step_handleNext w :
    isMounted (Loop.comp w) = true -> step w (handleNext w)
| step_runAll w :
    isMounted (Loop.comp w) = true -> step w (runAll w)
| step_handleReset w :
    isMounted (Loop.comp w) = true -> step w (handleReset w)
| step_nodeClick i w :
    isMounted (Loop.comp w) = true ->
    0 <= i < STEPS_length -> step w (nodeClick i w)
| step_unmount w : step w (unmount w)
| step_timer t w :
    Loop.earliest (Loop.queue w) = Some t -> step w (Loop.fire run t w)
| step_idle t w :
    Loop.settled t w = true -> step w (Loop.idle_until t w).

Inductive reachable : W -> Prop :=
| reach_boot : reachable (Loop.boot initial)
| reach_step w w' : reachable w -> step w w' -> reachable w'.

End Journey.

(* ------------------------------------------------------------------ *)
(** ** ClusterAnatomyExplorer: the request trace *)
(* ------------------------------------------------------------------ *)

Module ClusterAnatomy.

Record TraceStep := mkStep { step_id : string; duration : Z }.

Definition TRACE_STEPS : list TraceStep :=
  [ mkStep "kubectl" 1800; mkStep "api-server" 2200; mkStep "etcd" 1600;
    mkStep "controller-manager" 2000; mkStep "scheduler" 2000;
    mkStep "kubelet-1" 2400; mkStep "pod-1" 2000 ].

Definition TRACE_STEPS_length : Z := Z.of_nat (List.length TRACE_STEPS).

Record state := mkState {
  selectedId : option string;
  traceRunning : bool;
  traceStepIndex : Z;
  traceTimeoutsRef : list nat
}.

Definition initial : state := mkState None false (-1) [].

Inductive Cb := SetStep (i : Z) | FinishTrace.

Definition W := Loop.world state Cb.

Definition setTrace (running : bool) (index : Z) : W -> W :=
  Loop.with_comp (fun s => mkState (selectedId s) running index (traceTimeoutsRef s)).

Definition setSelectedId (v : option string) : W -> W :=
  Loop.with_comp (fun s =>
    mkState v (traceRunning s) (traceStepIndex s) (traceTimeoutsRef s)).

Definition setRef (f : list nat -> list nat) : W -> W :=
  Loop.with_comp (fun s =>
    mkState (selectedId s) (traceRunning s) (traceStepIndex s) (f (traceTimeoutsRef s))).

Definition later (fn : Cb) (ms : Z) (w : W) : W :=
  let '(w, t) := Loop.setTimeout fn ms w in
  setRef (fun l => l ++ [t]) w.

Definition stopTrace (w : W) : W :=
  let w := Loop.clearEach (traceTimeoutsRef (Loop.comp w)) w in
  let w := setRef (fun _ => []) w in
  setTrace false (-1) w.

(** [TRACE_STEPS.forEach((step, i) => ...)], from index [i] on, with
    [prev] the duration of the step before and [elapsed] the running sum. *)
Fixpoint scheduleSteps (i : Z) (prev : Z) (rest : list TraceStep)
                       (elapsed : Z) (w : W) : W :=
  match rest with
  | [] => w
  | s :: rest' =>
      let elapsed := elapsed + prev in
      let w := later (SetStep i) elapsed w in
      scheduleSteps (i + 1) (duration s) rest' elapsed w
  end.

Definition totalDuration : Z :=
  fold_left (fun acc s => acc + duration s) TRACE_STEPS 0.

Definition startTrace (w : W) : W :=
  if traceRunning (Loop.comp w) then stopTrace w
  else
    let w := setSelectedId None w in
    let w := setTrace true 0 w in
    let w := match TRACE_STEPS with
             | [] => w
             | first :: rest => scheduleSteps 1 (duration first) rest 0 w
             end in
    later FinishTrace totalDuration w.

Definition run (cb : Cb) (w : W) : W :=
  match cb with
  | SetStep i =>
      Loop.with_comp (fun s =>
        mkState (selectedId s) (traceRunning s) i (traceTimeoutsRef s)) w
  | FinishTrace => setTrace false (-1) w
  end.

Definition unmount (w : W) : W :=
  Loop.clearEach (traceTimeoutsRef (Loop.comp w)) w.

(** Every pending timer is one whose handle [traceTimeoutsRef] holds. *)
Definition tracked (w : W) : Prop :=
  forall t, In t (Loop.queue w) ->
            In (Loop.handle t) (traceTimeoutsRef (Loop.comp w)).

(** The trace cursor: a step of the trace, or -1 when no trace runs. *)
Definition cursor_ok (w : W) : Prop :=
  -1 <= traceStepIndex (Loop.comp w) <= TRACE_STEPS_length - 1.

Definition cb_ok (cb : Cb) : Prop :=
  match cb with
  | SetStep i => 0 <= i < TRACE_STEPS_length
  | FinishTrace => True
  end.

Definition inv (w : W) : Prop :=
  cursor_ok w /\ forall t, In t (Loop.queue w) -> cb_ok (Loop.callback t).

Inductive step : W -> W -> Prop :=
| step_startTrace w : step w (startTrace w)
| step_stopTrace w : step w (stopTrace w)
| step_select v w : step w (setSelectedId v w)
| step_timer t w :
    Loop.earliest (Loop.queue w) = Some t -> step w (Loop.fire run t w)
| step_idle t w :
    Loop.settled t w = true -> step w (Loop.idle_until t w).

Inductive reachable : W -> Prop :=
| reach_boot : reachable (Loop.boot initial)
| reach_step w w' : reachable w -> step w w' -> reachable w'.

End ClusterAnatomy.

(* ------------------------------------------------------------------ *)
(** ** src/components/simulations/ServiceRoutingSimulator.tsx *)
(* ------------------------------------------------------------------ *)

Module ServiceRouting.

Inductive ServiceType := ClusterIP | NodePort | LoadBalancer.

(** [SERVICE_CONFIGS[t].layers] and [.path] *)
Definition layers (t : ServiceType) : list string :=
  match t with
  | ClusterIP => ["service"; "pods"]
  | NodePort => ["node"; "service"; "pods"]
  | LoadBalancer => ["internet"; "loadbalancer"; "node"; "service"; "pods"]
  end%string.

Definition path (t : ServiceType) : list string :=
  match t with
  | ClusterIP => ["service"; "pod-a"; "pod-b"; "pod-c"]
  | NodePort => ["node"; "service"; "pod-a"; "pod-b"; "pod-c"]
  | LoadBalancer =>
      ["internet"; "loadbalancer"; "node"; "service"; "pod-a"; "pod-b"; "pod-c"]
  end%string.

Definition POD_TARGETS : list string := ["pod-a"; "pod-b"; "pod-c"]%string.

Record state := mkState {
  activeType : ServiceType;
  animating : bool;
  activeLayerId : option string;
  targetedPod : option string;
  pulsingPod : option string;
  runCount : Z;
  abortRef : bool;
  timeoutIds : list nat;
  isMounted : bool
}.

Definition initial : state :=
  mkState ClusterIP false None None None 0 false [] true.

Definition layerPath (s : state) : list string :=
  filter (fun id => negb (id =? "pod-a")%string && negb (id =? "pod-b")%string
                    && negb (id =? "pod-c")%string)
         (path (activeType s)).

Definition isPodsVisible (s : state) : bool :=
  Js.includes_str (layers (activeType s)) "pods".

(** The places where [handleSendRequest] waits, with the rest of the
    [for] loop and the values of the render it was started in; the
    50 ms timer of [handleTypeChange]; the timer that ends the pulse. *)
Inductive Cb :=
| LayerShown (rest : list string) (podsVisible : bool) (podTarget : string)
| LayerHidden (rest : list string) (podsVisible : bool) (podTarget : string)
| PodsShown (podTarget : string)
| StopPulse
| AllowNext.

Definition W := Loop.world state Cb.

Definition setAnimating (b : bool) : W -> W :=
  Loop.with_comp (fun s =>
    mkState (activeType s) b (activeLayerId s) (targetedPod s) (pulsingPod s)
            (runCount s) (abortRef s) (timeoutIds s) (isMounted s)).

Definition setActiveLayerId (v : option string) : W -> W :=
  Loop.with_comp (fun s =>
    mkState (activeType s) (animating s) v (targetedPod s) (pulsingPod s)
            (runCount s) (abortRef s) (timeoutIds s) (isMounted s)).

Definition setTargetedPod (v : option string) : W -> W :=
  Loop.with_comp (fun s =>
    mkState (activeType s) (animating s) (activeLayerId s) v (pulsingPod s)
            (runCount s) (abortRef s) (timeoutIds s) (isMounted s)).

Definition setPulsingPod (v : option string) : W -> W :=
  Loop.with_comp (fun s =>
    mkState (activeType s) (animating s) (activeLayerId s) (targetedPod s) v
            (runCount s) (abortRef s) (timeoutIds s) (isMounted s)).

Definition setRunCount (n : Z) : W -> W :=
  Loop.with_comp (fun s =>
    mkState (activeType s) (animating s) (activeLayerId s) (targetedPod s)
            (pulsingPod s) n (abortRef s) (timeoutIds s) (isMounted s)).

Definition setActiveType (t : ServiceType) : W -> W :=
  Loop.with_comp (fun s =>
    mkState t (animating s) (activeLayerId s) (targetedPod s) (pulsingPod s)
            (runCount s) (abortRef s) (timeoutIds s) (isMounted s)).

Definition setAbortRef (b : bool) : W -> W :=
  Loop.with_comp (fun s =>
    mkState (activeType s) (animating s) (activeLayerId s) (targetedPod s)
            (pulsingPod s) (runCount s) b (timeoutIds s) (isMounted s)).

Definition setTimeoutIds (f : list nat -> list nat) : W -> W :=
  Loop.with_comp (fun s =>
    mkState (activeType s) (animating s) (activeLayerId s) (targetedPod s)
            (pulsingPod s) (runCount s) (abortRef s) (f (timeoutIds s)) (isMounted s)).

Definition setIsMounted (b : bool) : W -> W :=
  Loop.with_comp (fun s =>
    mkState (activeType s) (animating s) (activeLayerId s) (targetedPod s)
            (pulsingPod s) (runCount s) (abortRef s) (timeoutIds s) b).

Definition scheduleTimeout (fn : Cb) (delay : Z) (w : W) : W :=
  let '(w, timeoutId) := Loop.setTimeout fn delay w in
  setTimeoutIds (fun l => l ++ [timeoutId]) w.

Definition handleTypeChange (t : ServiceType) (w : W) : W :=
  let w := setAbortRef true w in
  let w := setAnimating false w in
  let w := setActiveLayerId None w in
  let w := setTargetedPod None w in
  let w := setPulsingPod None w in
  let w := setActiveType t w in
  (* Allow next animation run *)
  scheduleTimeout AllowNext 50 w.

(** The last statement of [handleSendRequest]. *)
Definition send_end (w : W) : W :=
  if negb (abortRef (Loop.comp w)) then setAnimating false w else w.

(** After the [for] loop. *)
Definition send_pods (podsVisible : bool) (podTarget : string) (w : W) : W :=
  if negb (abortRef (Loop.comp w)) && podsVisible
  then
    let w := setActiveLayerId (Some "pods"%string) w in
    scheduleTimeout (PodsShown podTarget) 300 w
  else send_end w.

(** The head of the [for] loop, up to [await delay(500)]. *)
Definition send_loop (rest : list string) (podsVisible : bool)
                     (podTarget : string) (w : W) : W :=
  match rest with
  | [] => send_pods podsVisible podTarget w
  | layerId :: rest' =>
      if abortRef (Loop.comp w) then send_pods podsVisible podTarget w
      else
        let w := setActiveLayerId (Some layerId) w in
        scheduleTimeout (LayerShown rest' podsVisible podTarget) 500 w
  end.

Definition handleSendRequest (w : W) : W :=
  let s := Loop.comp w in
  if animating s then w
  else
    let w := setAbortRef false w in
    let w := setAnimating true w in
    let w := setTargetedPod None w in
    let w := setPulsingPod None w in
    let podTarget :=
      nth (Z.to_nat (runCount s mod 3)) POD_TARGETS ""%string in
    let w := setRunCount (runCount s + 1) w in
    send_loop (layerPath s) (isPodsVisible s) podTarget w.

Definition run (cb : Cb) (w : W) : W :=
  match cb with
  | LayerShown rest podsVisible podTarget =>
      if abortRef (Loop.comp w) then send_pods podsVisible podTarget w
      else
        let w := setActiveLayerId None w in
        scheduleTimeout (LayerHidden rest podsVisible podTarget) 120 w
  | LayerHidden rest podsVisible podTarget =>
      send_loop rest podsVisible podTarget w
  | PodsShown podTarget =>
      let w :=
        if negb (abortRef (Loop.comp w))
        then
          let w := setActiveLayerId None w in
          let w := setTargetedPod (Some podTarget) w in
          let w := setPulsingPod (Some podTarget) w in
          scheduleTimeout StopPulse 2000 w
        else w in
      send_end w
  | StopPulse =>
      if negb (isMounted (Loop.comp w)) then w
      else if negb (abortRef (Loop.comp w)) then setPulsingPod None w
      else w
  | AllowNext =>
      if negb (isMounted (Loop.comp w)) then w
      else setAbortRef false w
  end.

Definition unmount (w : W) : W :=
  let w := setIsMounted false w in
  let w := Loop.clearEach (timeoutIds (Loop.comp w)) w in
  let w := setTimeoutIds (fun _ => []) w in
  setAbortRef true w.

End ServiceRouting.

(* ------------------------------------------------------------------ *)
(** ** ProgressBar: the completion figure *)
(* ------------------------------------------------------------------ *)

Module ProgressBar.

(** [Math.round((completedExercises.length / SECTIONS.length) * 100)] *)
Definition completion (s : ProgressStore.ProgressState) : Z :=
  let done := Z.of_nat (List.length (ProgressStore.completedExercises s)) in
  let all := Z.of_nat (List.length ProgressStore.SECTIONS) in
  (2 * (done * 100) + all) / (2 * all).

(** [isVisited] of the dot of a section: the dot scrolls on click only
    when it holds. *)
Definition isVisited (s : ProgressStore.ProgressState)
                     (id : ProgressStore.SectionId) : bool :=
  Js.includes (ProgressStore.visitedSections s) id.

End ProgressBar.

(* ------------------------------------------------------------------ *)
(** ** src/components/ui/ScrollTracker.tsx *)
(* ------------------------------------------------------------------ *)

Module ScrollTracker.

(** What the page answers for a section: [None] when it has no element
    [section-<id>], otherwise whether [pivot >= top] holds for it. *)
Definition Page := ProgressStore.SectionId -> option bool.

(** The [for] loop of [updateCurrentSection] over the sections still
    to look at, last section first. *)
Fixpoint scan (page : Page) (ids : list ProgressStore.SectionId)
              (s : ProgressStore.ProgressState) : ProgressStore.ProgressState :=
  match ids with
  | [] => s
  | id :: rest =>
      match page id with
      | None => scan page rest s                      (* continue *)
      | Some true => ProgressStore.setCurrentSection id s   (* return *)
      | Some false => scan page rest s
      end
  end.

Definition updateCurrentSection (page : Page)
    (s : ProgressStore.ProgressState) : ProgressStore.ProgressState :=
  scan page (rev ProgressStore.SECTIONS) s.

End ScrollTracker.

(* ------------------------------------------------------------------ *)
(** ** src/components/simulations/HPAConceptSimulator.tsx *)
(* ------------------------------------------------------------------ *)

Module HPA.

Definition HPA_MIN : Z := 1.
Definition HPA_MAX : Z := 6.
Definition TARGET_CPU : Z := 50.
Definition CPU_FLOOR : Z := 10.
Definition CPU_CEIL : Z := 100.

Definition clampCpu (value : Z) : Z :=
  Z.max CPU_FLOOR (Z.min CPU_CEIL value).

Inductive EventType := scale_up | scale_down | stable.

Record HPAEvent := mkEvent { ev_id : Z; message : string; type : EventType }.

Record state := mkState {
  replicas : Z;
  cpu : Z;
  events : list HPAEvent;
  evaluating : bool;
  evaluationTimer : option nat;
  isMounted : bool;
  eventId : Z          (* the module-level counter *)
}.

Definition initial : state := mkState 2 30 [] false None true 0.

(** The timer callback of [evaluate]; it closes over the [cpu] and the
    [replicas] of the render in which the button was clicked. *)
Inductive Cb := Evaluate (cpuAtClick replicasAtClick : Z).

Definition W := Loop.world state Cb.

Definition setReplicas (f : Z -> Z) (s : state) : state :=
  mkState (f (replicas s)) (cpu s) (events s) (evaluating s)
          (evaluationTimer s) (isMounted s) (eventId s).

Definition setCpu (f : Z -> Z) (s : state) : state :=
  mkState (replicas s) (f (cpu s)) (events s) (evaluating s)
          (evaluationTimer s) (isMounted s) (eventId s).

Definition setEvaluating (b : bool) (s : state) : state :=
  mkState (replicas s) (cpu s) (events s) b
          (evaluationTimer s) (isMounted s) (eventId s).

Definition setEvaluationTimer (h : option nat) (s : state) : state :=
  mkState (replicas s) (cpu s) (events s) (evaluating s)
          h (isMounted s) (eventId s).

Definition addEvent (message : string) (type : EventType) (s : state) : state :=
  let id := eventId s + 1 in
  mkState (replicas s) (cpu s)
          (Js.slice0 6 (mkEvent id message type :: events s))
          (evaluating s) (evaluationTimer s) (isMounted s) id.

Definition addTraffic (w : W) : W :=
  Loop.with_comp (setCpu (fun prev => clampCpu (prev + 20))) w.

Definition removeTraffic (w : W) : W :=
  Loop.with_comp (setCpu (fun prev => clampCpu (prev - 20))) w.

(** [if (evaluationTimer.current) clearTimeout(...)]: a handle is
    skipped when it is null or 0. *)
Definition clearEvaluationTimer (w : W) : W :=
  match evaluationTimer (Loop.comp w) with
  | Some h => if Nat.eqb h 0 then w else Loop.clearTimeout h w
  | None => w
  end.

Definition evaluate (w : W) : W :=
  let s := Loop.comp w in
  let w := Loop.with_comp (setEvaluating true) w in
  let w := clearEvaluationTimer w in
  let '(w, h) := Loop.setTimeout (Evaluate (cpu s) (replicas s)) 600 w in
  Loop.with_comp (setEvaluationTimer (Some h)) w.

Definition run (cb : Cb) (w : W) : W :=
  match cb with
  | Evaluate cpu replicas =>
      if negb (isMounted (Loop.comp w)) then w
      else
        let w :=
          if (cpu >? TARGET_CPU) && (replicas <? HPA_MAX) then
            let w := Loop.with_comp (setReplicas (fun prev => prev + 1)) w in
            let w := Loop.with_comp (setCpu (fun prev => clampCpu (prev - 15))) w in
            Loop.with_comp (addEvent
              ("Scaled up: CPU " ++ Js.string_of_Z cpu ++ "% > target "
               ++ Js.string_of_Z TARGET_CPU ++ "%. Replicas "
               ++ Js.string_of_Z replicas ++ " → "
               ++ Js.string_of_Z (replicas + 1))%string scale_up) w
          else if (cpu <? 30) && (replicas >? HPA_MIN) then
            let w := Loop.with_comp (setReplicas (fun prev => prev - 1)) w in
            let w := Loop.with_comp (setCpu (fun prev => clampCpu (prev + 10))) w in
            Loop.with_comp (addEvent
              ("Scaled down: CPU " ++ Js.string_of_Z cpu ++ "% < 30%. Replicas "
               ++ Js.string_of_Z replicas ++ " → "
               ++ Js.string_of_Z (replicas - 1))%string scale_down) w
          else if (cpu >? TARGET_CPU) && (replicas >=? HPA_MAX) then
            Loop.with_comp (addEvent
              ("At max replicas (" ++ Js.string_of_Z HPA_MAX
               ++ "). Cannot scale further.")%string stable) w
          else if (cpu <? 30) && (replicas <=? HPA_MIN) then
            Loop.with_comp (addEvent
              ("At min replicas (" ++ Js.string_of_Z HPA_MIN
               ++ "). Cannot scale down.")%string stable) w
          else
            Loop.with_comp (addEvent
              ("CPU " ++ Js.string_of_Z cpu ++ "% within range (30%-"
               ++ Js.string_of_Z TARGET_CPU ++ "%). No change.")%string stable) w
        in
        Loop.with_comp (setEvaluating false) w
  end.

(** The effect cleanup that runs when the component unmounts. *)
Definition unmount (w : W) : W :=
  let w := Loop.with_comp (fun s =>
    mkState (replicas s) (cpu s) (events s) (evaluating s)
            (evaluationTimer s) false (eventId s)) w in
  let w := clearEvaluationTimer w in
  match evaluationTimer (Loop.comp w) with
  | Some h => if Nat.eqb h 0 then w
              else Loop.with_comp (setEvaluationTimer None) w
  | None => w
  end.

(** One press of Evaluate followed by the 600 ms it takes to answer. *)
Definition round (w : W) : W := Loop.advance run 1 (evaluate w).

(** What a round makes of the replicas and the CPU when nothing else is
    clicked in between: the branches of the callback of [evaluate],
    without the events. *)
Definition outcome (p : Z * Z) : Z * Z :=
  let '(r, c) := p in
  if (c >? TARGET_CPU) && (r <? HPA_MAX) then (r + 1, clampCpu (c - 15))
  else if (c <? 30) && (r >? HPA_MIN) then (r - 1, clampCpu (c + 10))
  else (r, c).

Definition at_rest (p : Z * Z) : bool :=
  (fst (outcome p) =? fst p) && (snd (outcome p) =? snd p).

(** What can happen next.  [evaluate] is taken whether or not the button
    is disabled: nothing below rests on the [disabled] attribute. *)
Inductive step : W -> W -> Prop :=
| step_add w : isMounted (Loop.comp w) = true -> step w (addTraffic w)
| step_remove w : isMounted (Loop.comp w) = true -> step w (removeTraffic w)
| step_evaluate w : isMounted (Loop.comp w) = true -> step w (evaluate w)
| step_unmount w : step w (unmount w)
| step_timer t w :
    Loop.earliest (Loop.queue w) = Some t -> step w (Loop.fire run t w)
| step_idle t w :
    Loop.settled t w = true -> step w (Loop.idle_until t w).

Inductive reachable : W -> Prop :=
| reach_boot : reachable (Loop.boot initial)
| reach_step w w' : reachable w -> step w w' -> reachable w'.

(** The pending evaluation, if any, is the one [evaluationTimer] holds,
    and it was asked for at the present number of replicas. *)
Definition one_pending (w : W) : Prop :=
  forall t, In t (Loop.queue w) ->
    evaluationTimer (Loop.comp w) = Some (Loop.handle t) /\
    Loop.handle t <> O /\
    exists c, Loop.callback t = Evaluate c (replicas (Loop.comp w)).

Definition inv (w : W) : Prop :=
  HPA_MIN <= replicas (Loop.comp w) <= HPA_MAX /\
  CPU_FLOOR <= cpu (Loop.comp w) <= CPU_CEIL /\
  (List.length (events (Loop.comp w)) <= 6)%nat /\
  (1 <= Loop.fresh w)%nat /\
  one_pending w /\
  (List.length (Loop.queue w) <= 1)%nat.

End HPA.

(* ------------------------------------------------------------------ *)
(** ** src/unnamed/part_005: the bonus assessment *)
(* ------------------------------------------------------------------ *)

Module Assessment.

Inductive QuestionType := mcq | command_prediction | troubleshoot.

Record AssessmentQuestion := mkQuestion {
  id : string;
  type : QuestionType;
  prompt : string;
  options : list string;
  answer : string;
  explanation : string;
  sectionRef : string
}.

Definition SUBSET_SIZE : nat := 10.

Section Shuffle.
Context {T : Type}.

(** [[copy[i], copy[j]] = [copy[j], copy[i]]]: both elements are read,
    then [copy[i]] and [copy[j]] are written in this order.  [None]
    stands for a read outside the array. *)
Definition swap (i j : nat) (copy : list T) : option (list T) :=
  match nth_error copy i, nth_error copy j with
  | Some x, Some y => Some (Js.set_at j x (Js.set_at i y copy))
  | _, _ => None
  end.

(** The seeds for which the numbers of [seededShuffle] are whole
    numbers that a JS number holds exactly: the first product stays
    below 2^53, and every later one is below 2^31 * 16807.  The
    component draws its seed as
    [Math.floor(Math.random() * 2147483646) + 1], inside this range. *)
Definition exact_seed (seed : Z) : Prop :=
  0 <= seed /\ seed * 16807 < 2 ^ 53.

(** The [for] loop of [seededShuffle], from index [i] down to 1, in
    whole numbers; [%] is [Z.rem].  This is the code for the seeds of
    [exact_seed]: for a larger seed the code's first product is rounded
    or overflows, and this definition does not follow it there. *)
Fixpoint shuffle_from (i : nat) (s : Z) (copy : list T) : option (list T) :=
  match i with
  | O => Some copy
  | S i' =>
      let s := Z.rem (s * 16807 + 0) 2147483647 in
      let j := Z.rem s (Z.of_nat i + 1) in
      if j <? 0 then None
      else match swap i (Z.to_nat j) copy with
           | Some copy => shuffle_from i' s copy
           | None => None
           end
  end.

Definition seededShuffle (arr : list T) (seed : Z) : option (list T) :=
  shuffle_from (List.length arr - 1) seed arr.
End Shuffle.

(** [answers] is a [Record<string, string>] keyed by question id;
    [None] is [undefined]. *)
Definition Answers := string -> option string.

Definition no_answers : Answers := fun _ => None.

(** [{ ...prev, [key]: value }] and [obj[key] = value]. *)
Definition put (key value : string) (prev : Answers) : Answers :=
  fun k => if (k =? key)%string then Some value else prev k.

Record state := mkState { answers : Answers; submitted : bool }.

Definition initial : state := mkState no_answers false.

Section Bank.
Variable QUESTIONS : list AssessmentQuestion.
(** [Math.floor(Math.random() * 2147483646) + 1], drawn once. *)
Variable seed : Z.

Definition activeQuestions : option (list AssessmentQuestion) :=
  option_map (Js.slice0 SUBSET_SIZE) (seededShuffle QUESTIONS seed).
End Bank.

(** [answers[q.id] === q.answer] *)
Definition correct (a : Answers) (q : AssessmentQuestion) : bool :=
  match a (id q) with
  | Some given => (given =? answer q)%string
  | None => false
  end.

Definition result (a : Answers) (active : list AssessmentQuestion)
  : list (AssessmentQuestion * bool) :=
  map (fun q => (q, correct a q)) active.

(** A non-empty string is truthy. *)
Definition truthy (v : option string) : bool :=
  match v with
  | Some s => negb (s =? EmptyString)%string
  | None => false
  end.

Definition allAnswered (a : Answers) (active : list AssessmentQuestion) : bool :=
  forallb (fun q => truthy (a (id q))) active.

Definition mastered (a : Answers) (active : list AssessmentQuestion) : list string :=
  map (fun r => sectionRef (fst r)) (filter (fun r => snd r) (result a active)).

Definition revisit (a : Answers) (active : list AssessmentQuestion) : list string :=
  map (fun r => sectionRef (fst r)) (filter (fun r => negb (snd r)) (result a active)).

(** A click on an option of [question]. *)
Definition choose (question : AssessmentQuestion) (option : string) (s : state) : state :=
  mkState (put (id question) option (answers s)) (submitted s).

(** "Submit for feedback"; the button is disabled until every question
    has an answer. *)
Definition submit (active : list AssessmentQuestion) (s : state) : state :=
  if negb (allAnswered (answers s) active) then s
  else mkState (answers s) true.

(** The body of [result.forEach] in "Retry missed only". *)
Definition keepCorrect (onlyMissed : Answers) (item : AssessmentQuestion * bool)
  : Answers :=
  if snd item then put (id (fst item)) (answer (fst item)) onlyMissed
  else onlyMissed.

(** "Retry missed only" *)
Definition retry (active : list AssessmentQuestion) (s : state) : state :=
  let onlyMissed := fold_left keepCorrect (result (answers s) active) no_answers in
  mkState onlyMissed false.

End Assessment.

(* ------------------------------------------------------------------ *)
(** ** src/components/simulations/TroubleshootingFlowSimulator.tsx *)
(* ------------------------------------------------------------------ *)

Module Troubleshooting.

(** The keys of [SCENARIOS], which are the values of the select box. *)
Inductive ScenarioKey := pending | crashloop | not_responding.

Definition key_eqb (a b : ScenarioKey) : bool :=
  match a, b with
  | pending, pending | crashloop, crashloop
  | not_responding, not_responding => true
  | _, _ => false
  end.

(** [SCENARIOS[key].steps.map((s) => s.command)]; the [output] and the
    [summary] of a step are text to show. *)
Definition expectedCommands (key : ScenarioKey) : list string :=
  match key with
  | pending =>
      ["kubectl get pods"; "kubectl describe pod <name>";
       "kubectl get events --sort-by=.lastTimestamp"]
  | crashloop =>
      ["kubectl get pods"; "kubectl logs <name>"; "kubectl describe pod <name>"]
  | not_responding =>
      ["kubectl get pods"; "kubectl logs <name>"; "kubectl describe pod <name>";
       "kubectl get svc"]
  end%string.

Definition ALL_COMMANDS : list string :=
  ["kubectl get pods"; "kubectl describe pod <name>"; "kubectl logs <name>";
   "kubectl get events --sort-by=.lastTimestamp"; "kubectl get svc";
   "kubectl delete pod <name>"]%string.

(** The texts that [buildHint] returns, in the order of its tests; the
    last one quotes the expected command. *)
Inductive Hint :=
| DeletingDestroysInformation
| StartWithGetPods
| CheckLogsFirst
| NoLogsWhilePending
| CheckTheServiceNext
| NotQuite (expected : option string).

Definition buildHint (clicked : string) (expected : option string)
    (scenarioKey : ScenarioKey) (stepIndex : nat) : Hint :=
  if (clicked =? "kubectl delete pod <name>")%string then
    DeletingDestroysInformation
  else if Nat.eqb stepIndex 0 && negb (clicked =? "kubectl get pods")%string then
    StartWithGetPods
  else if key_eqb scenarioKey crashloop && Nat.eqb stepIndex 1
          && (clicked =? "kubectl describe pod <name>")%string then
    CheckLogsFirst
  else if key_eqb scenarioKey pending && Nat.eqb stepIndex 1
          && (clicked =? "kubectl logs <name>")%string then
    NoLogsWhilePending
  else if key_eqb scenarioKey not_responding && Nat.eqb stepIndex 3
          && negb (clicked =? "kubectl get svc")%string then
    CheckTheServiceNext
  else NotQuite expected.

Record state := mkState {
  selectedScenario : ScenarioKey;
  currentStep : nat;
  completedSteps : list nat;
  hint : option Hint;
  finished : bool
}.

Definition initial : state := mkState pending 0 [] None false.

Definition resetState (s : state) : state :=
  mkState (selectedScenario s) 0 [] None false.

Definition handleScenarioChange (key : ScenarioKey) (s : state) : state :=
  resetState (mkState key (currentStep s) (completedSteps s) (hint s) (finished s)).

Definition handleCommandClick (command : string) (s : state) : state :=
  if finished s then s
  else
    let expected := nth_error (expectedCommands (selectedScenario s)) (currentStep s) in
    if match expected with
       | Some e => (command =? e)%string
       | None => false
       end
    then
      let nextCompleted := completedSteps s ++ [currentStep s] in
      if Nat.leb (List.length (expectedCommands (selectedScenario s)))
                 (currentStep s + 1)
      then mkState (selectedScenario s) (currentStep s) nextCompleted None true
      else mkState (selectedScenario s) (currentStep s + 1) nextCompleted None
                   (finished s)
    else
      mkState (selectedScenario s) (currentStep s) (completedSteps s)
              (Some (buildHint command expected (selectedScenario s) (currentStep s)))
              (finished s).

(** [completedSteps.some((i) => scenario.steps[i].command === command)];
    [None] is the TypeError raised when [scenario.steps[i]] is
    undefined. *)
Fixpoint some_step_is (steps : list string) (command : string) (l : list nat)
  : option bool :=
  match l with
  | [] => Some false
  | i :: l' =>
      match nth_error steps i with
      | None => None
      | Some c => if (c =? command)%string then Some true
                  else some_step_is steps command l'
      end
  end.

Definition isCommandCompleted (command : string) (s : state) : option bool :=
  some_step_is (expectedCommands (selectedScenario s)) command (completedSteps s).

(** A click on the button of [cmd], which is disabled when the command
    is completed or the scenario finished. *)
Definition clickCommand (cmd : string) (s : state) : state :=
  match isCommandCompleted cmd s with
  | Some completed =>
      if completed || finished s then s else handleCommandClick cmd s
  | None => s
  end.

(** The handlers, called with any command and any key. *)
Inductive step : state -> state -> Prop :=
| step_change key s : step s (handleScenarioChange key s)
| step_reset s : step s (resetState s)
| step_click command s : step s (handleCommandClick command s).

Inductive reachable : state -> Prop :=
| reach_initial : reachable initial
| reach_step s s' : reachable s -> step s s' -> reachable s'.

(** The steps done are the steps before the cursor, all of them once
    the scenario is finished. *)
Definition inv (s : state) : Prop :=
  let n := List.length (expectedCommands (selectedScenario s)) in
  (currentStep s < n)%nat /\
  completedSteps s = seq 0 (if finished s then n else currentStep s) /\
  (finished s = true -> S (currentStep s) = n).

End Troubleshooting.

(* ------------------------------------------------------------------ *)
(** ** src/components/simulations/WorkloadChooser.tsx, second part:
       StoragePersistenceSimulator *)
(* ------------------------------------------------------------------ *)

Module Storage.

Record FileEntry := mkFile { id : string; name : string; size : string }.

Inductive Target := ephemeral | pvc.

Record state := mkState {
  hasPvc : bool;
  ephemeralFiles : list FileEntry;
  pvcFiles : list FileEntry;
  podAlive : bool;
  restarting : bool;
  events : list string;
  timeoutIds : list nat;
  isMounted : bool;
  fileCounter : Z;     (* the module-level counter *)
  draws : nat          (* calls of Math.random so far *)
}.

Definition initial : state :=
  mkState true
          [mkFile "e1" "app.log" "2.1 KB"]%string
          [mkFile "p1" "data.db" "48 MB";
           mkFile "p2" "uploads/photo.jpg" "3.2 MB"]%string
          true false [] [] true 0 O.

(** The two callbacks of [restartPod]; both close over the [hasPvc] of
    the render in which the button was clicked. *)
Inductive Cb := Wipe (hasPvcAtClick : bool) | Revive (hasPvcAtClick : bool).

Definition W := Loop.world state Cb.

Definition setHasPvc (b : bool) (s : state) : state :=
  mkState b (ephemeralFiles s) (pvcFiles s) (podAlive s) (restarting s)
          (events s) (timeoutIds s) (isMounted s) (fileCounter s) (draws s).

Definition setEphemeralFiles (f : list FileEntry -> list FileEntry) (s : state) : state :=
  mkState (hasPvc s) (f (ephemeralFiles s)) (pvcFiles s) (podAlive s) (restarting s)
          (events s) (timeoutIds s) (isMounted s) (fileCounter s) (draws s).

Definition setPvcFiles (f : list FileEntry -> list FileEntry) (s : state) : state :=
  mkState (hasPvc s) (ephemeralFiles s) (f (pvcFiles s)) (podAlive s) (restarting s)
          (events s) (timeoutIds s) (isMounted s) (fileCounter s) (draws s).

Definition setPodAlive (b : bool) (s : state) : state :=
  mkState (hasPvc s) (ephemeralFiles s) (pvcFiles s) b (restarting s)
          (events s) (timeoutIds s) (isMounted s) (fileCounter s) (draws s).

Definition setRestarting (b : bool) (s : state) : state :=
  mkState (hasPvc s) (ephemeralFiles s) (pvcFiles s) (podAlive s) b
          (events s) (timeoutIds s) (isMounted s) (fileCounter s) (draws s).

Definition setTimeoutIds (f : list nat -> list nat) (s : state) : state :=
  mkState (hasPvc s) (ephemeralFiles s) (pvcFiles s) (podAlive s) (restarting s)
          (events s) (f (timeoutIds s)) (isMounted s) (fileCounter s) (draws s).

Definition addEvent (msg : string) (s : state) : state :=
  mkState (hasPvc s) (ephemeralFiles s) (pvcFiles s) (podAlive s) (restarting s)
          (Js.slice0 8 (msg :: events s))
          (timeoutIds s) (isMounted s) (fileCounter s) (draws s).

(** The wrapper of [scheduleTimeout] tests [isMounted] when the timer
    runs; see [run]. *)
Definition scheduleTimeout (callback : Cb) (delay : Z) (w : W) : W :=
  let '(w, timeoutId) := Loop.setTimeout callback delay w in
  Loop.with_comp (setTimeoutIds (fun l => l ++ [timeoutId])) w.

Section Host.
(** The text of [(Math.random() * 10 + 1).toFixed(1)] at the n-th draw. *)
Variable size_text : nat -> string.

Definition writeFile (target : Target) (w : W) : W :=
  Loop.with_comp (fun s =>
    let counter := fileCounter s + 1 in
    let file :=
      mkFile ("f" ++ Js.string_of_Z counter)%string
             (match target with
              | ephemeral => "tmp-" ++ Js.string_of_Z counter ++ ".log"
              | pvc => "upload-" ++ Js.string_of_Z counter ++ ".dat"
              end)%string
             (size_text (draws s) ++ " KB")%string in
    let s := mkState (hasPvc s) (ephemeralFiles s) (pvcFiles s) (podAlive s)
                     (restarting s) (events s) (timeoutIds s) (isMounted s)
                     counter (S (draws s)) in
    match target with
    | ephemeral =>
        addEvent ("Wrote " ++ name file ++ " to ephemeral storage")%string
                 (setEphemeralFiles (fun prev => prev ++ [file]) s)
    | pvc =>
        addEvent ("Wrote " ++ name file ++ " to PVC-backed volume")%string
                 (setPvcFiles (fun prev => prev ++ [file]) s)
    end) w.
End Host.

Definition deleteFile (target : Target) (fid : string) (w : W) : W :=
  Loop.with_comp (fun s =>
    match target with
    | ephemeral =>
        let file := find (fun f => (id f =? fid)%string) (ephemeralFiles s) in
        let s := setEphemeralFiles
                   (filter (fun f => negb (id f =? fid)%string)) s in
        match file with
        | Some file => addEvent ("Deleted " ++ name file ++ " from ephemeral")%string s
        | None => s
        end
    | pvc =>
        let file := find (fun f => (id f =? fid)%string) (pvcFiles s) in
        let s := setPvcFiles (filter (fun f => negb (id f =? fid)%string)) s in
        match file with
        | Some file => addEvent ("Deleted " ++ name file ++ " from PVC")%string s
        | None => s
        end
    end) w.

Definition togglePvc (w : W) : W :=
  Loop.with_comp (fun s => setHasPvc (negb (hasPvc s)) s) w.

Definition restartPod (w : W) : W :=
  let hasPvcAtClick := hasPvc (Loop.comp w) in
  let w := Loop.with_comp (setRestarting true) w in
  let w := Loop.with_comp (setPodAlive false) w in
  let w := Loop.with_comp (addEvent "Pod terminating...") w in
  let w := scheduleTimeout (Wipe hasPvcAtClick) 600 w in
  scheduleTimeout (Revive hasPvcAtClick) 1500 w.

Definition run (cb : Cb) (w : W) : W :=
  if negb (isMounted (Loop.comp w)) then w
  else
    match cb with
    | Wipe hasPvc =>
        let w := Loop.with_comp (setEphemeralFiles (fun _ => [])) w in
        let w := Loop.with_comp (addEvent "Ephemeral filesystem wiped") w in
        if hasPvc
        then Loop.with_comp (addEvent "PVC data preserved across restart") w
        else Loop.with_comp (addEvent "No PVC mounted — all data lost!") w
    | Revive hasPvc =>
        let w := Loop.with_comp (setPodAlive true) w in
        let w := Loop.with_comp (setRestarting false) w in
        let w := Loop.with_comp (addEvent "New pod started") w in
        if negb hasPvc
        then Loop.with_comp (setPvcFiles (fun _ => [])) w
        else w
    end.

(** The effect cleanup that runs when the component unmounts. *)
Definition unmount (w : W) : W :=
  let w := Loop.with_comp (fun s =>
    mkState (hasPvc s) (ephemeralFiles s) (pvcFiles s) (podAlive s) (restarting s)
            (events s) (timeoutIds s) false (fileCounter s) (draws s)) w in
  let w := Loop.clearEach (timeoutIds (Loop.comp w)) w in
  Loop.with_comp (setTimeoutIds (fun _ => [])) w.

(** Every pending timer is one whose handle [timeoutIds] holds. *)
Definition tracked (w : W) : Prop :=
  forall t, In t (Loop.queue w) -> In (Loop.handle t) (timeoutIds (Loop.comp w)).

Section Steps.
Variable size_text : nat -> string.

(** The handlers, called at any moment while the component is on the
    page (the disabled buttons only narrow this), the unmount, a timer
    that is due, or time passing. *)
Inductive step : W -> W -> Prop :=
| step_write target w :
    isMounted (Loop.comp w) = true -> step w (writeFile size_text target w)
| step_delete target fid w :
    isMounted (Loop.comp w) = true -> step w (deleteFile target fid w)
| step_toggle w :
    isMounted (Loop.comp w) = true -> step w (togglePvc w)
| step_restart w :
    isMounted (Loop.comp w) = true -> step w (restartPod w)
| step_unmount w : step w (unmount w)
| step_timer t w :
    Loop.earliest (Loop.queue w) = Some t -> step w (Loop.fire run t w)
| step_idle t w :
    Loop.settled t w = true -> step w (Loop.idle_until t w).

Inductive reachable : W -> Prop :=
| reach_boot : reachable (Loop.boot initial)
| reach_step w w' : reachable w -> step w w' -> reachable w'.
End Steps.

End Storage.

(* ------------------------------------------------------------------ *)
(** ** src/components/simulations/WorkloadChooser.tsx, first part:
       WorkloadChooser *)
(* ------------------------------------------------------------------ *)

Module WorkloadChooser.

(** The [name] of each entry of [WORKLOADS]. *)
Definition WORKLOADS : list string :=
  ["Deployment"; "StatefulSet"; "DaemonSet"; "Job"]%string.

(** The [answer] of each entry of [SCENARIOS]; [description] and [hint]
    are text to show. *)
Definition SCENARIOS : list string :=
  ["Deployment"; "DaemonSet"; "Job"; "StatefulSet"; "Deployment"; "DaemonSet"]%string.

Record Score := mkScore { correct : Z; total : Z }.

Record state := mkState {
  scenarioIndex : Z;
  selected : option string;
  showResult : bool;
  score : Score
}.

Definition initial : state := mkState 0 None false (mkScore 0 0).

(** [SCENARIOS[scenarioIndex].answer]; [None] is the TypeError raised
    when the index is outside the table. *)
Definition answer (s : state) : option string :=
  if scenarioIndex s <? 0 then None
  else nth_error SCENARIOS (Z.to_nat (scenarioIndex s)).

Definition handleSelect (name : string) (s : state) : state :=
  if showResult s then s
  else
    match answer s with
    | Some a =>
        mkState (scenarioIndex s) (Some name) true
                (mkScore (correct (score s) + (if (name =? a)%string then 1 else 0))
                         (total (score s) + 1))
    | None => s
    end.

Definition nextScenario (s : state) : state :=
  mkState (Z.rem (scenarioIndex s + 1) (Z.of_nat (List.length SCENARIOS)))
          None false (score s).

(** What the user can click.  "Next scenario" sits in the result panel,
    which leaves the page with an exit animation, and [nextScenario]
    has no test of its own: it is taken here at any moment, also twice
    in a row. *)
Inductive click := Select (name : string) | Next.

Definition apply (c : click) (s : state) : state :=
  match c with
  | Select name => handleSelect name s
  | Next => nextScenario s
  end.

Definition run (clicks : list click) : state :=
  fold_left (fun s c => apply c s) clicks initial.

(** How many of the clicks are on "Next scenario". *)
Fixpoint nexts (clicks : list click) : nat :=
  match clicks with
  | [] => O
  | Select _ :: rest => nexts rest
  | Next :: rest => S (nexts rest)
  end.

End WorkloadChooser.

(* ================================================================== *)
(** * Properties *)
(* ================================================================== *)

(** ** Sorting *)

Section SortFacts.
Context {A : Type}.
Variable cmp : A -> A -> Z.
Variable le : A -> A -> Prop.
Hypothesis cmp_le : forall a b, cmp a b <= 0 <-> le a b.
Hypothesis le_total : forall a b, le a b \/ le b a.
Hypothesis le_trans : forall a b c, le a b -> le b c -> le a c.

Lemma insert_perm x l : Permutation (Js.insert cmp x l) (x :: l).
Proof.
  induction l as [|y l IH]; simpl.
  - apply Permutation_refl.
  - destruct (cmp x y <=? 0).
    + apply Permutation_refl.
    + eapply Permutation_trans.
      * apply perm_skip, IH.
      * apply perm_swap.
Qed.

Lemma sort_perm l : Permutation (Js.sort cmp l) l.
Proof.
  induction l as [|x l IH]; simpl.
  - constructor.
  - eapply Permutation_trans; [apply insert_perm|].
    now apply perm_skip.
Qed.

Lemma insert_sorted x l :
  StronglySorted le l -> StronglySorted le (Js.insert cmp x l).
Proof.
  induction 1 as [|y l Hs IH Hy]; simpl.
  - repeat constructor.
  - destruct (cmp x y <=? 0) eqn:E.
    + apply Z.leb_le, cmp_le in E.
      constructor; [now constructor|].
      constructor; [exact E|].
      rewrite Forall_forall in *. eauto.
    + apply Z.leb_gt in E.
      assert (Hyx : le y x).
      { destruct (le_total x y) as [H|H]; [|exact H].
        apply cmp_le in H. lia. }
      constructor; [exact IH|].
      rewrite Forall_forall in *. intros z Hz.
      apply (Permutation_in _ (insert_perm x l)) in Hz.
      destruct Hz as [<-|Hz]; auto.
Qed.

Lemma sort_sorted l : StronglySorted le (Js.sort cmp l).
Proof.
  induction l; simpl; [constructor | now apply insert_sorted].
Qed.

Lemma sort_In x l : In x (Js.sort cmp l) <-> In x l.
Proof.
  split; apply Permutation_in;
    [apply sort_perm | apply Permutation_sym, sort_perm].
Qed.

(** The first element of the sorted array is least for [le]. *)
Lemma sort_head b l :
  hd_error (Js.sort cmp l) = Some b ->
  In b l /\ forall c, In c l -> le b c.
Proof.
  intros H.
  pose proof (sort_sorted l) as Hs.
  destruct (Js.sort cmp l) as [|b' r] eqn:E; [discriminate|].
  injection H as ->.
  split.
  - apply sort_In. rewrite E. now left.
  - intros c Hc. apply sort_In in Hc. rewrite E in Hc.
    inversion Hs as [|? ? _ Hall]; subst.
    destruct Hc as [<-|Hc].
    + destruct (le_total b b); assumption.
    + rewrite Forall_forall in Hall. auto.
Qed.

Lemma sort_nonempty x l : exists b, hd_error (Js.sort cmp (x :: l)) = Some b.
Proof.
  destruct (Js.sort cmp (x :: l)) as [|b r] eqn:E.
  - pose proof (sort_perm (x :: l)) as P. rewrite E in P.
    apply Permutation_nil in P. discriminate.
  - now exists b.
Qed.
End SortFacts.

Lemma includes_In l x : Js.includes l x = true <-> In x l.
Proof.
  unfold Js.includes. rewrite existsb_exists. split.
  - intros [y [Hy E]]. apply Z.eqb_eq in E. now subst.
  - intros H. exists x. split; [exact H | apply Z.eqb_refl].
Qed.

Lemma strict_NoDup l : StronglySorted Z.lt l -> NoDup l.
Proof.
  induction 1 as [|x l _ IH Hx]; constructor; [|exact IH].
  intros Hin. rewrite Forall_forall in Hx. specialize (Hx _ Hin). lia.
Qed.

Lemma sorted_NoDup_strict l :
  StronglySorted Z.le l -> NoDup l -> StronglySorted Z.lt l.
Proof.
  induction 1 as [|x l _ IH Hx]; intros Hn; constructor.
  - apply IH. now inversion Hn.
  - inversion Hn as [|? ? Hnot _]; subst.
    rewrite Forall_forall in *. intros y Hy.
    specialize (Hx _ Hy).
    assert (x <> y) by (intros ->; contradiction). lia.
Qed.

(** ** The progress store *)

Section ProgressStoreFacts.
Import ProgressStore.

Lemma ascending_le a b : ascending a b <= 0 <-> a <= b.
Proof. unfold ascending. lia. Qed.

Lemma sort_ascending_perm l : Permutation (Js.sort ascending l) l.
Proof. apply sort_perm. Qed.

Lemma sort_ascending_sorted l : StronglySorted Z.le (Js.sort ascending l).
Proof.
  apply (sort_sorted ascending Z.le ascending_le); intros; lia.
Qed.

(** Adding a new element to a strictly increasing array and sorting
    gives a strictly increasing array. *)
Lemma add_sorted l x :
  strictly_increasing l -> ~ In x l ->
  strictly_increasing (Js.sort ascending (l ++ [x])).
Proof.
  intros Hs Hx. apply sorted_NoDup_strict.
  - apply sort_ascending_sorted.
  - apply (Permutation_NoDup (Permutation_sym (sort_ascending_perm _))).
    apply (Permutation_NoDup (Permutation_cons_append l x)).
    constructor; [exact Hx | now apply strict_NoDup].
Qed.

Lemma add_valid l x :
  Forall valid_section l -> valid_section x ->
  Forall valid_section (Js.sort ascending (l ++ [x])).
Proof.
  intros Hl Hx. rewrite Forall_forall in *. intros y Hy.
  apply (Permutation_in _ (sort_ascending_perm _)) in Hy.
  apply in_app_or in Hy. destruct Hy as [Hy|[<-|[]]]; auto.
Qed.

Lemma includes_false l x : Js.includes l x = false <-> ~ In x l.
Proof.
  rewrite <- includes_In. destruct (Js.includes l x); split; congruence.
Qed.

Lemma markVisited_sorted x s :
  strictly_increasing (visitedSections s) ->
  strictly_increasing (visitedSections (markVisited x s)).
Proof.
  intros H. unfold markVisited.
  destruct (Js.includes (visitedSections s) x) eqn:E; simpl; [exact H|].
  apply add_sorted; [exact H | now apply includes_false].
Qed.

Lemma markExerciseComplete_sorted x s :
  strictly_increasing (completedExercises s) ->
  strictly_increasing (completedExercises (markExerciseComplete x s)).
Proof.
  intros H. unfold markExerciseComplete.
  destruct (Js.includes (completedExercises s) x) eqn:E; simpl; [exact H|].
  apply add_sorted; [exact H | now apply includes_false].
Qed.

Lemma initial_visited_sorted :
  strictly_increasing [0; 1; 2; 3; 4; 5; 6; 7; 8; 9].
Proof.
  unfold strictly_increasing.
  repeat (constructor; [|repeat (constructor; try lia)]).
  constructor.
Qed.

Lemma apply_sorted a s :
  strictly_increasing (visitedSections s) /\
  strictly_increasing (completedExercises s) ->
  strictly_increasing (visitedSections (apply a s)) /\
  strictly_increasing (completedExercises (apply a s)).
Proof.
  intros [Hv Hc]. destruct a as [x|x|x|]; simpl.
  - unfold setCurrentSection. destruct (currentSection s =? x); [now split|].
    split.
    + now apply markVisited_sorted.
    + unfold markVisited; simpl.
      destruct (negb (Js.includes (visitedSections s) x)); exact Hc.
  - split; [now apply markVisited_sorted|].
    unfold markVisited.
    destruct (negb (Js.includes (visitedSections s) x)); exact Hc.
  - split; [|now apply markExerciseComplete_sorted].
    unfold markExerciseComplete.
    destruct (negb (Js.includes (completedExercises s) x)); exact Hv.
  - split; [apply initial_visited_sorted | constructor].
Qed.

Lemma run_sorted acts : forall s,
  strictly_increasing (visitedSections s) /\
  strictly_increasing (completedExercises s) ->
  strictly_increasing (visitedSections (run acts s)) /\
  strictly_increasing (completedExercises (run acts s)).
Proof.
  induction acts as [|a acts IH]; intros s H; simpl; [exact H|].
  apply IH, apply_sorted, H.
Qed.

(** C10. In every state reached from the store's initial state by any
    sequence of [setCurrentSection], [markVisited],
    [markExerciseComplete] and [resetProgress] calls, [visitedSections]
    and [completedExercises] are strictly increasing, hence without
    duplicates. *)
Theorem reachable_lists_strictly_increasing (acts : list action) :
  let s := run acts initial in
  (strictly_increasing (visitedSections s) /\ NoDup (visitedSections s)) /\
  (strictly_increasing (completedExercises s) /\ NoDup (completedExercises s)).
Proof.
  intros s.
  destruct (run_sorted acts initial) as [Hv Hc].
  { split; [apply initial_visited_sorted | constructor]. }
  split; (split; [assumption | now apply strict_NoDup]).
Qed.

(** C8. [markExerciseComplete id] is idempotent: in every state of the
    store (its [completedExercises] being a set, that is without
    duplicates) a second call with the same id changes nothing, and
    afterwards [completedExercises] holds [id] exactly once. *)
Theorem markExerciseComplete_idempotent (s : ProgressState) (id : SectionId) :
  NoDup (completedExercises s) ->
  markExerciseComplete id (markExerciseComplete id s)
    = markExerciseComplete id s /\
  count_occ Z.eq_dec (completedExercises (markExerciseComplete id s)) id = 1%nat.
Proof.
  intros Hn.
  assert (Hin : In id (completedExercises (markExerciseComplete id s))).
  { unfold markExerciseComplete.
    destruct (Js.includes (completedExercises s) id) eqn:E; simpl.
    - now apply includes_In.
    - apply (Permutation_in _ (Permutation_sym (sort_ascending_perm _))).
      apply in_or_app. right. now left. }
  assert (Hn' : NoDup (completedExercises (markExerciseComplete id s))).
  { unfold markExerciseComplete.
    destruct (Js.includes (completedExercises s) id) eqn:E; simpl; [exact Hn|].
    apply (Permutation_NoDup (Permutation_sym (sort_ascending_perm _))).
    apply (Permutation_NoDup (Permutation_cons_append _ id)).
    constructor; [now apply includes_false | exact Hn]. }
  split.
  - unfold markExerciseComplete at 1.
    apply includes_In in Hin. now rewrite Hin.
  - now apply NoDup_count_occ'.
Qed.

Lemma markExerciseComplete_idempotent_witness :
  let s := mkProgress 2 [0; 1; 2; 3; 4; 5; 6; 7; 8; 9] [1; 4] in
  markExerciseComplete 3 (markExerciseComplete 3 s) = markExerciseComplete 3 s /\
  count_occ Z.eq_dec (completedExercises (markExerciseComplete 3 s)) 3 = 1%nat.
Proof.
  apply (markExerciseComplete_idempotent
           (mkProgress 2 [0; 1; 2; 3; 4; 5; 6; 7; 8; 9] [1; 4]) 3).
  simpl. repeat constructor; simpl; intuition lia.
Defined.

Lemma apply_valid a s :
  well_typed a -> valid_state s -> valid_state (apply a s).
Proof.
  unfold valid_state.
  intros Ha (Hc & Hv & He). destruct a as [x|x|x|]; simpl in *.
  - unfold setCurrentSection. destruct (currentSection s =? x); [auto|].
    unfold markVisited; simpl.
    destruct (negb (Js.includes (visitedSections s) x)); simpl;
      auto using add_valid.
  - unfold markVisited.
    destruct (negb (Js.includes (visitedSections s) x)); simpl;
      auto using add_valid.
  - unfold markExerciseComplete.
    destruct (negb (Js.includes (completedExercises s) x)); simpl;
      auto using add_valid.
  - unfold valid_section.
    repeat split; try lia; repeat constructor; lia.
Qed.
End ProgressStoreFacts.

(** ** The NetworkPolicy decider *)

(** C3. With the policy inactive every pair is allowed; with the policy
    active traffic to "database" is allowed exactly from "api", and
    traffic to any other destination is allowed. *)
Theorem network_policy_decider (from to : string) :
  NetworkPolicy.allowed false from to = true /\
  (NetworkPolicy.allowed true from "database" = true <-> from = "api"%string) /\
  (to <> "database"%string -> NetworkPolicy.allowed true from to = true).
Proof.
  unfold NetworkPolicy.allowed, NetworkPolicy.isBlocked; simpl.
  split; [reflexivity|]. split.
  - destruct (String.eqb_spec from "api"); simpl; split; congruence.
  - intros H. destruct (String.eqb_spec to "database"); [contradiction|].
    reflexivity.
Qed.

Lemma network_policy_decider_witness :
  NetworkPolicy.allowed true "frontend" "api" = true.
Proof.
  apply (proj2 (proj2 (network_policy_decider "frontend" "api"))).
  discriminate.
Defined.

(** ** The scheduler mock *)

Section SchedulerFacts.
Import Scheduler.

Lemma mostAvailableFirst_le a b :
  mostAvailableFirst a b <= 0 <-> most_available a b.
Proof. unfold mostAvailableFirst, most_available, available. lia. Qed.

Lemma fits_eligible cpu mem n :
  fits (getNodeFit cpu mem n) = true <-> eligible cpu mem n.
Proof.
  unfold getNodeFit, eligible, tainted; simpl.
  rewrite !andb_true_iff, negb_true_iff, !Z.geb_le.
  destruct (taints n) as [[|t l]|]; cbn; split.
  - intros [[? ?] _]. repeat split; try lia.
    intros (l' & E & Hl). injection E as <-. now apply Hl.
  - intros (? & ? & _). repeat split; lia.
  - intros [_ H]. discriminate.
  - intros (_ & _ & H). exfalso. apply H. eexists. split; [reflexivity|discriminate].
  - intros [[? ?] _]. repeat split; try lia.
    intros (l' & E & _). discriminate.
  - intros (? & ? & _). repeat split; lia.
Qed.

Lemma candidates_In table cpu mem c :
  In c (candidates table cpu mem) <->
  exists n, In n table /\ c = (n, getNodeFit cpu mem n) /\ eligible cpu mem n.
Proof.
  unfold candidates. rewrite filter_In, in_map_iff. split.
  - intros [(n & <- & Hn) Hf]. exists n.
    split; [exact Hn|]. split; [reflexivity|].
    apply fits_eligible. exact Hf.
  - intros (n & Hn & -> & He). split; [now exists n|].
    simpl. now apply fits_eligible.
Qed.

Lemma candidates_nil table cpu mem :
  candidates table cpu mem = [] <->
  forall n, In n table -> ~ eligible cpu mem n.
Proof.
  split.
  - intros E n Hn He.
    assert (H : In (n, getNodeFit cpu mem n) (candidates table cpu mem))
      by (apply candidates_In; eauto).
    rewrite E in H. exact H.
  - intros H. destruct (candidates table cpu mem) as [|c cs] eqn:E; [reflexivity|].
    assert (Hc : In c (candidates table cpu mem)) by (rewrite E; now left).
    apply candidates_In in Hc. destruct Hc as (n & Hn & _ & He).
    exfalso. exact (H n Hn He).
Qed.

Lemma pick_spec cs best :
  pick cs = Some best ->
  In best cs /\ forall c, In c cs -> available c <= available best.
Proof.
  intros H.
  apply (sort_head mostAvailableFirst most_available mostAvailableFirst_le) in H.
  - exact H.
  - unfold most_available. intros; lia.
  - unfold most_available. intros; lia.
Qed.

Lemma pick_some c cs : exists best, pick (c :: cs) = Some best.
Proof. apply sort_nonempty. Qed.

Lemma decide_pending table cpu mem :
  decide table cpu mem = pending <-> candidates table cpu mem = [].
Proof.
  unfold decide.
  destruct (candidates table cpu mem) as [|c cs]; simpl; [tauto|].
  destruct (pick_some c cs) as [best ->].
  split; discriminate.
Qed.

(** C4. The mock answers "pending" exactly when no node is eligible
    (free CPU and free memory cover the request and the node has no
    taint); the node it names is an eligible node of the table, so a
    tainted node is never chosen even when the request fits it; and a
    request above every node's free CPU or memory is answered
    "pending". *)
Theorem pending_iff_no_eligible_node (table : list Node) (cpuReq memReq : Z) :
  (decide table cpuReq memReq = pending <->
     forall n, In n table -> ~ eligible cpuReq memReq n) /\
  (forall best, pick (candidates table cpuReq memReq) = Some best ->
     In (fst best) table /\ ~ tainted (fst best) /\
     (decide table cpuReq memReq <> pending ->
      nodeName (decide table cpuReq memReq) = name (fst best))) /\
  ((forall n, In n table ->
      totalCpu n - usedCpu n < cpuReq \/ totalMemory n - usedMemory n < memReq) ->
   decide table cpuReq memReq = pending).
Proof.
  split; [|split].
  - rewrite decide_pending. apply candidates_nil.
  - intros best Hb.
    destruct (pick_spec _ _ Hb) as [Hin _].
    apply candidates_In in Hin. destruct Hin as (n & Hn & -> & He).
    simpl. split; [exact Hn|]. split; [apply He|].
    intros _. unfold decide.
    destruct (candidates table cpuReq memReq); [discriminate Hb|].
    rewrite Hb. reflexivity.
  - intros H. apply decide_pending, candidates_nil.
    intros n Hn (Hc & Hm & _). destruct (H n Hn); lia.
Qed.

Lemma pending_iff_no_eligible_node_witness :
  decide [mkNode "node-3" 8 16 6 12 (Some ["gpu=true:NoSchedule"%string])] 1 2
    = pending.
Proof.
  apply (proj1 (pending_iff_no_eligible_node
           [mkNode "node-3" 8 16 6 12 (Some ["gpu=true:NoSchedule"%string])] 1 2)).
  intros n [<-|[]] (_ & _ & H). apply H.
  eexists. split; [reflexivity | discriminate].
Defined.
End SchedulerFacts.

(** ** Determinism of the mock deciders *)

(** C7. Each mock decider is a function of its rule table, toggles and
    request alone: whatever else the two components hold (clock, timers,
    earlier results, counters), the scheduler's timer callback, the RBAC
    check and the NetworkPolicy timer callback give the same decision
    and the same reason for the same table, toggles and request.  The
    decisions are these.  When some node of the table is eligible the
    scheduler does pick one: an eligible node of the table whose summed
    free CPU and memory no eligible node exceeds, and the placement
    shown names that node with the "Best fit" reason.  The RBAC check
    allows exactly the verbs of the role's row, with the reason that
    names role and verb.  The NetworkPolicy test is allowed exactly
    when [isBlocked], with the policy of the click, is false. *)
Theorem deciders_deterministic :
  (forall table cpu mem (w1 w2 : Scheduler.W),
     Scheduler.isMounted (Loop.comp w1) = true ->
     Scheduler.isMounted (Loop.comp w2) = true ->
     Scheduler.scheduled (Loop.comp (Scheduler.run table (Scheduler.Decide cpu mem) w1))
     = Scheduler.scheduled (Loop.comp (Scheduler.run table (Scheduler.Decide cpu mem) w2))) /\
  (forall action resource (s1 s2 : ConfigAccess.state),
     ConfigAccess.role s1 = ConfigAccess.role s2 ->
     ConfigAccess.verdict (ConfigAccess.tryAccess action resource s1)
     = ConfigAccess.verdict (ConfigAccess.tryAccess action resource s2)) /\
  (forall from to policy (w1 w2 : NetworkPolicy.W),
     NetworkPolicy.isMounted (Loop.comp w1) = true ->
     NetworkPolicy.isMounted (Loop.comp w2) = true ->
     NetworkPolicy.lastResult
       (Loop.comp (NetworkPolicy.run (NetworkPolicy.Deliver from to policy) w1))
     = NetworkPolicy.lastResult
         (Loop.comp (NetworkPolicy.run (NetworkPolicy.Deliver from to policy) w2))) /\
  (forall table cpu mem best,
     Scheduler.pick (Scheduler.candidates table cpu mem) = Some best ->
     In best (Scheduler.candidates table cpu mem) /\
     forall c, In c (Scheduler.candidates table cpu mem) ->
               Scheduler.available c <= Scheduler.available best) /\
  (forall table cpu mem (w : Scheduler.W),
     Scheduler.isMounted (Loop.comp w) = true ->
     (exists n, In n table /\ Scheduler.eligible cpu mem n) ->
     exists best,
       Scheduler.pick (Scheduler.candidates table cpu mem) = Some best /\
       In (fst best) table /\
       Scheduler.eligible cpu mem (fst best) /\
       (forall n, In n table -> Scheduler.eligible cpu mem n ->
          (Scheduler.totalCpu n - Scheduler.usedCpu n)
          + (Scheduler.totalMemory n - Scheduler.usedMemory n)
          <= (Scheduler.totalCpu (fst best) - Scheduler.usedCpu (fst best))
             + (Scheduler.totalMemory (fst best) - Scheduler.usedMemory (fst best))) /\
       Scheduler.scheduled
         (Loop.comp (Scheduler.run table (Scheduler.Decide cpu mem) w))
       = Some (Scheduler.mkPlacement (Scheduler.name (fst best))
                 ("Best fit: " ++ Js.string_of_Z (Scheduler.availCpu (snd best))
                  ++ " vCPU and " ++ Js.string_of_Z (Scheduler.availMem (snd best))
                  ++ " Gi available.")%string)) /\
  (forall action resource (s : ConfigAccess.state),
     ConfigAccess.verdict (ConfigAccess.tryAccess action resource s)
     = Some (if Js.includes_str (ConfigAccess.verbs (ConfigAccess.role s)) action
             then (ConfigAccess.Allowed,
                   "Role " ++ ConfigAccess.quote
                                (ConfigAccess.role_name (ConfigAccess.role s))
                   ++ " has " ++ ConfigAccess.quote action ++ " verb")
             else (ConfigAccess.Denied,
                   "Role " ++ ConfigAccess.quote
                                (ConfigAccess.role_name (ConfigAccess.role s))
                   ++ " lacks " ++ ConfigAccess.quote action ++ " verb"))%string) /\
  (forall from to policy (w : NetworkPolicy.W),
     NetworkPolicy.isMounted (Loop.comp w) = true ->
     NetworkPolicy.lastResult
       (Loop.comp (NetworkPolicy.run (NetworkPolicy.Deliver from to policy) w))
     = Some (NetworkPolicy.mkLast
               (negb (NetworkPolicy.isBlocked policy from to)) from to)).
Proof.
  split; [|split; [|split; [|split; [|split; [|split]]]]].
  - intros table cpu mem w1 w2 H1 H2. simpl. now rewrite H1, H2.
  - intros action resource s1 s2 E.
    unfold ConfigAccess.verdict, ConfigAccess.tryAccess. rewrite E. reflexivity.
  - intros from to policy w1 w2 H1 H2. simpl. now rewrite H1, H2.
  - intros table cpu mem best H. now apply pick_spec in H.
  - intros table cpu mem w Hm (n & Hn & He).
    assert (Hc : In (n, Scheduler.getNodeFit cpu mem n)
                    (Scheduler.candidates table cpu mem))
      by (apply candidates_In; eauto).
    destruct (Scheduler.candidates table cpu mem) as [|c cs] eqn:Ecs;
      [contradiction|].
    destruct (pick_some c cs) as [best Hb].
    exists best. split; [exact Hb|].
    destruct (pick_spec _ _ Hb) as [Hin Hmax].
    rewrite <- Ecs in Hin, Hmax.
    pose proof Hin as Hin'.
    apply candidates_In in Hin'. destruct Hin' as (nb & Hnb & Eb & Heb).
    subst best. cbn [fst snd].
    split; [exact Hnb|]. split; [exact Heb|]. split.
    + intros n' Hn' He'.
      assert (Hc' : In (n', Scheduler.getNodeFit cpu mem n')
                       (Scheduler.candidates table cpu mem))
        by (apply candidates_In; eauto).
      specialize (Hmax _ Hc'). unfold Scheduler.available in Hmax.
      cbn in Hmax. lia.
    + cbn. rewrite Hm. cbn. unfold Scheduler.decide. rewrite Ecs, Hb.
      reflexivity.
  - intros action resource s.
    unfold ConfigAccess.verdict, ConfigAccess.tryAccess. cbn.
    destruct (Js.includes_str _ _); reflexivity.
  - intros from to policy w Hm. cbn. rewrite Hm. reflexivity.
Qed.

(** The playground's table with the request of the sliders at mount
    (1 vCPU, 2 Gi): node-1 and node-2 fit, node-1 has more free. *)
Lemma deciders_deterministic_witness :
  (exists best,
     Scheduler.pick (Scheduler.candidates Scheduler.nodes 1 2) = Some best /\
     Scheduler.name (fst best) = "node-1"%string /\
     Scheduler.scheduled
       (Loop.comp (Scheduler.run Scheduler.nodes (Scheduler.Decide 1 2)
                     (Loop.boot Scheduler.initial)))
     = Some (Scheduler.mkPlacement (Scheduler.name (fst best))
               ("Best fit: " ++ Js.string_of_Z (Scheduler.availCpu (snd best))
                ++ " vCPU and " ++ Js.string_of_Z (Scheduler.availMem (snd best))
                ++ " Gi available.")%string)) /\
  ConfigAccess.verdict
    (ConfigAccess.tryAccess "delete" "secret"
       (ConfigAccess.mkState ConfigAccess.editor [] 0))
  = ConfigAccess.verdict
      (ConfigAccess.tryAccess "delete" "secret"
         (ConfigAccess.mkState ConfigAccess.editor
            [ConfigAccess.mkAttempt 7 "get" "configmap" ConfigAccess.Allowed
               EmptyString] 7)).
Proof.
  destruct deciders_deterministic as (_ & Hrbac & _ & _ & Hpick & _ & _).
  split.
  - destruct (Hpick Scheduler.nodes 1 2 (Loop.boot Scheduler.initial) eq_refl)
      as (best & Hb & _ & _ & _ & Hs).
    + exists (Scheduler.mkNode "node-1" 4 8 1 3 None).
      split; [now left|].
      unfold Scheduler.eligible, Scheduler.tainted. cbn.
      repeat split; try lia. intros (l & E & _). discriminate.
    + exists best. split; [exact Hb|]. split; [|exact Hs].
      vm_compute in Hb. injection Hb as <-. reflexivity.
  - apply (Hrbac "delete"%string "secret"%string). reflexivity.
Defined.

(** ** The timer queue *)

Section LoopFacts.
Context {St Cb : Type}.
Variable run : Cb -> Loop.world St Cb -> Loop.world St Cb.
Implicit Types (w : Loop.world St Cb) (t : Loop.timer Cb).

Lemma clearEach_comp hs : forall w, Loop.comp (Loop.clearEach hs w) = Loop.comp w.
Proof.
  induction hs as [|h hs IH]; intros w; simpl; [reflexivity|].
  rewrite IH. reflexivity.
Qed.

Lemma clearEach_clock hs : forall w, Loop.clock (Loop.clearEach hs w) = Loop.clock w.
Proof.
  induction hs as [|h hs IH]; intros w; simpl; [reflexivity|].
  rewrite IH. reflexivity.
Qed.

Lemma clearEach_In hs : forall w t,
  In t (Loop.queue (Loop.clearEach hs w)) <->
  In t (Loop.queue w) /\ ~ In (Loop.handle t) hs.
Proof.
  induction hs as [|h hs IH]; intros w t; simpl.
  - tauto.
  - rewrite IH. simpl. rewrite filter_In, negb_true_iff, Nat.eqb_neq.
    intuition congruence.
Qed.

(** Clearing every handle that a pending timer can have empties the
    queue. *)
Lemma clearEach_all hs w :
  (forall t, In t (Loop.queue w) -> In (Loop.handle t) hs) ->
  Loop.queue (Loop.clearEach hs w) = [].
Proof.
  intros H.
  destruct (Loop.queue (Loop.clearEach hs w)) as [|t q] eqn:E; [reflexivity|].
  assert (Ht : In t (Loop.queue (Loop.clearEach hs w))) by (rewrite E; now left).
  apply clearEach_In in Ht. destruct Ht as [Hq Hn].
  exfalso. apply Hn, H, Hq.
Qed.

Lemma earliest_In q t : Loop.earliest q = Some t -> In t q.
Proof.
  revert t. induction q as [|u q IH]; simpl; intros t H; [discriminate|].
  destruct (Loop.earliest q) as [v|].
  - destruct (Loop.due v <? Loop.due u); injection H as <-; auto.
  - injection H as <-. now left.
Qed.

Lemma earliest_nil : Loop.earliest (@nil (Loop.timer Cb)) = None.
Proof. reflexivity. Qed.

(** With nothing pending, time changes the clock only. *)
Lemma elapse_quiet n until w :
  Loop.queue w = [] ->
  Loop.comp (Loop.elapse run n until w) = Loop.comp w /\
  Loop.queue (Loop.elapse run n until w) = [].
Proof.
  intros H. destruct n; simpl.
  - now split.
  - rewrite H. simpl. now split.
Qed.

Lemma earliest_None (q : list (Loop.timer Cb)) :
  Loop.earliest q = None -> q = [].
Proof.
  destruct q as [|u q]; simpl; [reflexivity|].
  destruct (Loop.earliest q) as [v|]; [|discriminate].
  destruct (Loop.due v <? Loop.due u); discriminate.
Qed.

(** Once a run has emptied the queue, more callbacks allowed and a
    later deadline change nothing of the component. *)
Lemma elapse_more n : forall m until until' w,
  until <= until' ->
  Loop.queue (Loop.elapse run n until w) = [] ->
  Loop.comp (Loop.elapse run (n + m) until' w)
    = Loop.comp (Loop.elapse run n until w) /\
  Loop.queue (Loop.elapse run (n + m) until' w) = [].
Proof.
  induction n as [|n IH]; intros m until until' w Hle Hq.
  - simpl in Hq. simpl (Loop.elapse run 0 until w). now apply elapse_quiet.
  - simpl in *. destruct (Loop.earliest (Loop.queue w)) as [t|] eqn:E.
    + destruct (Loop.due t <=? until) eqn:D.
      * apply Z.leb_le in D.
        replace (Loop.due t <=? until') with true
          by (symmetry; apply Z.leb_le; lia).
        now apply IH.
      * simpl in Hq. apply earliest_In in E. rewrite Hq in E. contradiction.
    + apply earliest_None in E. simpl. now split.
Qed.

Lemma dequeue_In t w u :
  In u (Loop.queue (Loop.dequeue t w)) -> In u (Loop.queue w).
Proof. simpl. rewrite filter_In. tauto. Qed.
End LoopFacts.

(** ** The rollout simulator *)

Section RolloutFacts.
Import Rollout.
Variable random : nat -> string.
Variable date_now : Z -> string.
Variable time_text : Z -> string.
Variable deleteDelay : Z.

Local Abbreviation run := (Rollout.run random date_now time_text deleteDelay).
Local Abbreviation step := (Rollout.step random date_now time_text deleteDelay).
Local Abbreviation reachable := (Rollout.reachable random date_now time_text deleteDelay).
Local Abbreviation addLog := (Rollout.addLog random date_now time_text).

Lemma rollout_tracked_frame (w w' : W) :
  Loop.queue w' = Loop.queue w ->
  timeoutsRef (Loop.comp w') = timeoutsRef (Loop.comp w) ->
  tracked w -> tracked w'.
Proof. unfold tracked. intros -> ->. auto. Qed.

Lemma rollout_tracked_scheduleTimeout fn delay (w : W) :
  tracked w -> tracked (scheduleTimeout fn delay w).
Proof.
  unfold tracked, scheduleTimeout. simpl. intros H t Ht.
  apply in_app_or in Ht. apply in_or_app.
  destruct Ht as [Ht|[<-|[]]]; [left; auto | right; now left].
Qed.

Lemma rollout_tracked_empty (w : W) : Loop.queue w = [] -> tracked w.
Proof. unfold tracked. intros ->. contradiction. Qed.

Lemma rollout_clearAllTimeouts_queue (w : W) :
  tracked w -> Loop.queue (clearAllTimeouts w) = [].
Proof.
  intros H. unfold clearAllTimeouts. simpl. now apply clearEach_all.
Qed.

Lemma rollout_markTerminating_frame old (w : W) :
  Loop.queue (markTerminating random date_now time_text old w) = Loop.queue w /\
  timeoutsRef (Loop.comp (markTerminating random date_now time_text old w))
    = timeoutsRef (Loop.comp w).
Proof.
  unfold markTerminating.
  destruct (Js.findIndex _ _) as [i|]; [|now split].
  destruct (nth_error _ _); now split.
Qed.

Lemma rollout_removeTerminated_frame old (w : W) :
  Loop.queue (removeTerminated random date_now time_text old w) = Loop.queue w /\
  timeoutsRef (Loop.comp (removeTerminated random date_now time_text old w))
    = timeoutsRef (Loop.comp w).
Proof.
  unfold removeTerminated.
  destruct (Js.findIndex _ _) as [i|]; [|now split].
  destruct (nth_error _ _); now split.
Qed.

Lemma rollout_tracked_scheduleCycles d (w : W) :
  tracked w -> tracked (scheduleCycles d w).
Proof.
  intros H. unfold scheduleCycles. simpl.
  repeat apply rollout_tracked_scheduleTimeout. exact H.
Qed.

Lemma rollout_tracked_run cb (w : W) : tracked w -> tracked (run cb w).
Proof.
  intros H. destruct cb as [d i|d i nm nid|d i|d i|d]; simpl.
  - apply rollout_tracked_scheduleTimeout. revert H. apply rollout_tracked_frame; reflexivity.
  - apply rollout_tracked_scheduleTimeout. revert H. apply rollout_tracked_frame; reflexivity.
  - apply rollout_tracked_scheduleTimeout. revert H.
    apply rollout_tracked_frame; apply rollout_markTerminating_frame.
  - assert (H' : tracked (setProgress
              (match d with
               | Forward => percent (i + 1) totalPods
               | Back => percent (totalPods - (i + 1)) totalPods
               end)
              (removeTerminated random date_now time_text (old_version d) w))).
    { revert H. apply rollout_tracked_frame; simpl; apply rollout_removeTerminated_frame. }
    destruct (i + 1 =? totalPods); [now apply rollout_tracked_scheduleTimeout | exact H'].
  - destruct d; revert H; apply rollout_tracked_frame; reflexivity.
Qed.

Lemma rollout_tracked_step (w w' : W) : step w w' -> tracked w -> tracked w'.
Proof.
  intros Hs H. destruct Hs as [w|w|w|t w Ht|t w Ht].
  - unfold startRollout. apply rollout_tracked_scheduleCycles.
    apply rollout_tracked_empty. simpl. now apply clearEach_all.
  - unfold startRollback. apply rollout_tracked_scheduleCycles.
    apply rollout_tracked_empty. simpl. now apply clearEach_all.
  - apply rollout_tracked_empty. unfold reset. simpl. now apply clearEach_all.
  - unfold Loop.fire. apply rollout_tracked_run.
    intros u Hu. apply dequeue_In in Hu. simpl. auto.
  - revert H. apply rollout_tracked_frame; reflexivity.
Qed.

Lemma rollout_reachable_tracked (w : W) : reachable w -> tracked w.
Proof.
  induction 1 as [|w w' _ IH Hs].
  - apply rollout_tracked_empty. reflexivity.
  - exact (rollout_tracked_step _ _ Hs IH).
Qed.

(** After [reset] no timer is pending: whatever time passes, pods,
    phase, progress and log stay as [reset] left them. *)
Lemma rollout_reset_quiet (w : W) :
  reachable w ->
  forall n until,
    Loop.comp (Loop.elapse run n until (reset random w)) = Loop.comp (reset random w).
Proof.
  intros Hr n until. apply elapse_quiet.
  unfold reset. simpl. apply clearEach_all. now apply rollout_reachable_tracked.
Qed.

(** The run of a rollout, callback by callback, up to the last timer. *)
Lemma rollout_run_to_the_end :
  deleteDelay = 979 \/ deleteDelay = 980 ->
  let w := Loop.elapse run 17 12720
             (startRollout random date_now time_text (mount random)) in
  Loop.queue w = [] /\
  events (log (Loop.comp w))
    = [Create; Terminate; Create; Terminate; Create; Terminate; Create; Terminate] /\
  map (fun p => (version p, status p)) (pods (Loop.comp w))
    = [(v2, Running); (v2, Running); (v2, Running); (v2, Running)] /\
  phase (Loop.comp w) = complete.
Proof.
  intros [-> | ->]; vm_compute;
    repeat (rewrite !String.eqb_refl; vm_compute);
    repeat split.
Qed.

(** C2. Starting a rollout from the initial four v1 pods and letting
    every scheduled step run (seventeen callbacks, the last one due
    12720 ms after the start; any longer wait changes nothing) leaves
    no timer pending; the log then holds exactly four creations and
    four terminations, alternating, each creation before its
    termination; the four pods left are all v2 and Running, and the
    phase is complete.  This holds whatever the random names and the
    wall clock are, and for both readings of the delay
    [STEP_DURATION * 0.7]. *)
Theorem rollout_replaces_every_pod :
  deleteDelay = 979 \/ deleteDelay = 980 ->
  forall (extra : nat) (until : Z),
    12720 <= until ->
    let w := Loop.elapse run (17 + extra) until
               (startRollout random date_now time_text (mount random)) in
    Loop.queue w = [] /\
    events (log (Loop.comp w))
      = [Create; Terminate; Create; Terminate; Create; Terminate; Create; Terminate] /\
    map (fun p => (version p, status p)) (pods (Loop.comp w))
      = [(v2, Running); (v2, Running); (v2, Running); (v2, Running)] /\
    phase (Loop.comp w) = complete.
Proof.
  intros Hd extra until Hu w.
  destruct (rollout_run_to_the_end Hd) as (Hq & He & Hp & Hph).
  destruct (elapse_more run 17 extra 12720 until _ Hu Hq) as [Hc Hq'].
  subst w. rewrite Hc. auto.
Qed.
End RolloutFacts.

Lemma rollout_replaces_every_pod_witness :
  let random := fun _ : nat => "k8s0x"%string in
  let w := Loop.elapse (Rollout.run random Js.string_of_Z Js.string_of_Z 979) (17 + 3) 20000
             (Rollout.startRollout random Js.string_of_Z Js.string_of_Z
                (Rollout.mount random)) in
  Loop.queue w = [] /\
  Rollout.events (Rollout.log (Loop.comp w))
    = [Rollout.Create; Rollout.Terminate; Rollout.Create; Rollout.Terminate;
       Rollout.Create; Rollout.Terminate; Rollout.Create; Rollout.Terminate] /\
  map (fun p => (Rollout.version p, Rollout.status p)) (Rollout.pods (Loop.comp w))
    = [(Rollout.v2, Rollout.Running); (Rollout.v2, Rollout.Running);
       (Rollout.v2, Rollout.Running); (Rollout.v2, Rollout.Running)] /\
  Rollout.phase (Loop.comp w) = Rollout.complete.
Proof.
  apply (rollout_replaces_every_pod (fun _ : nat => "k8s0x"%string)
           Js.string_of_Z Js.string_of_Z 979).
  - left. reflexivity.
  - lia.
Defined.

(** ** The control-plane journey *)

Section JourneyFacts.
Import Journey.

Lemma STEPS_length_6 : STEPS_length = 6.
Proof. reflexivity. Qed.

Local Ltac steps_lia :=
  pose proof STEPS_length_6; unfold cursor_ok, cb_ok in *; simpl in *; lia.

Lemma journey_tracked_frame (w w' : W) :
  Loop.queue w' = Loop.queue w ->
  timeoutIds (Loop.comp w') = timeoutIds (Loop.comp w) ->
  tracked w -> tracked w'.
Proof. unfold tracked. intros -> ->. auto. Qed.

Lemma journey_tracked_later fn ms (w : W) : tracked w -> tracked (later fn ms w).
Proof.
  unfold tracked, later. simpl. intros H t Ht.
  apply in_app_or in Ht. apply in_or_app.
  destruct Ht as [Ht|[<-|[]]]; [left; auto | right; now left].
Qed.

Lemma journey_tracked_empty (w : W) : Loop.queue w = [] -> tracked w.
Proof. unfold tracked. intros ->. contradiction. Qed.

Lemma journey_clearTimeouts_queue (w : W) :
  tracked w -> Loop.queue (clearTimeouts w) = [].
Proof. intros H. unfold clearTimeouts. simpl. now apply clearEach_all. Qed.

Lemma journey_tracked_runAll_loop c (w : W) : tracked w -> tracked (runAll_loop c w).
Proof.
  intros H. unfold runAll_loop.
  destruct (_ && _).
  - apply journey_tracked_later. revert H. apply journey_tracked_frame; reflexivity.
  - revert H. apply journey_tracked_frame; reflexivity.
Qed.

Lemma journey_tracked_advanceTo k (w : W) : tracked w -> tracked (advanceTo k w).
Proof.
  intros H. unfold advanceTo. destruct (_ || _); [exact H|].
  apply journey_tracked_later. revert H. apply journey_tracked_frame; reflexivity.
Qed.

Lemma journey_tracked_run cb (w : W) : tracked w -> tracked (run cb w).
Proof.
  intros H. destruct cb as [k|c|c]; simpl.
  - destruct (negb _); [exact H|]. revert H. apply journey_tracked_frame; reflexivity.
  - destruct (_ || _).
    + revert H. apply journey_tracked_frame; reflexivity.
    + apply journey_tracked_later. revert H. apply journey_tracked_frame; reflexivity.
  - now apply journey_tracked_runAll_loop.
Qed.

Lemma journey_tracked_step (w w' : W) : step w w' -> tracked w -> tracked w'.
Proof.
  intros Hs H. destruct Hs as [k w _|w _|w _|w _|i w _ _|w|t w Ht|t w Ht].
  - now apply journey_tracked_advanceTo.
  - unfold handleNext. destruct (negb _); [now apply journey_tracked_advanceTo | exact H].
  - unfold runAll. destruct (isRunningAll _); [exact H|].
    apply journey_tracked_runAll_loop. revert H. apply journey_tracked_frame; reflexivity.
  - apply journey_tracked_empty. unfold handleReset. apply journey_clearTimeouts_queue.
    revert H. apply journey_tracked_frame; reflexivity.
  - unfold nodeClick. destruct (_ <=? _); [|exact H].
    revert H. apply journey_tracked_frame; reflexivity.
  - apply journey_tracked_empty. unfold unmount. simpl. now apply clearEach_all.
  - unfold Loop.fire. apply journey_tracked_run.
    intros u Hu. apply dequeue_In in Hu. simpl. auto.
  - revert H. apply journey_tracked_frame; reflexivity.
Qed.

Lemma journey_reachable_tracked (w : W) : reachable w -> tracked w.
Proof.
  induction 1 as [|w w' _ IH Hs].
  - apply journey_tracked_empty. reflexivity.
  - exact (journey_tracked_step _ _ Hs IH).
Qed.

(** After [handleReset] no timer and no continuation of [runAll] is
    pending: whatever time passes, the cursor stays at 0 and the
    running flags stay false. *)
Lemma journey_handleReset_quiet (w : W) :
  reachable w ->
  forall n until,
    Loop.comp (Loop.elapse run n until (handleReset w)) = Loop.comp (handleReset w).
Proof.
  intros Hr n until. apply elapse_quiet.
  unfold handleReset. apply journey_clearTimeouts_queue.
  generalize (journey_reachable_tracked w Hr). apply journey_tracked_frame; reflexivity.
Qed.

Lemma journey_unmount_quiet (w : W) :
  reachable w ->
  forall n until,
    Loop.comp (Loop.elapse run n until (unmount w)) = Loop.comp (unmount w).
Proof.
  intros Hr n until. apply elapse_quiet.
  unfold unmount. simpl. apply clearEach_all.
  intros t Ht. exact (journey_reachable_tracked w Hr t Ht).
Qed.

(** *** The cursor stays on a step *)

Lemma journey_inv_frame (w w' : W) :
  Loop.queue w' = Loop.queue w ->
  activeIndex (Loop.comp w') = activeIndex (Loop.comp w) ->
  inv w -> inv w'.
Proof. unfold inv, cursor_ok. intros -> ->. auto. Qed.

Lemma journey_inv_later fn ms (w : W) : cb_ok fn -> inv w -> inv (later fn ms w).
Proof.
  unfold inv, cursor_ok, later. simpl. intros Hf [Hc Hq]. split; [exact Hc|].
  intros t Ht. apply in_app_or in Ht.
  destruct Ht as [Ht|[<-|[]]]; [auto | exact Hf].
Qed.

Lemma journey_inv_setActiveIndex i (w : W) :
  0 <= i <= STEPS_length - 1 -> inv w -> inv (setActiveIndex i w).
Proof. unfold inv, cursor_ok. simpl. intros Hi [_ Hq]. auto. Qed.

Lemma journey_inv_runAll_loop c (w : W) : 0 <= c -> inv w -> inv (runAll_loop c w).
Proof.
  intros Hc H. unfold runAll_loop.
  destruct (c <? STEPS_length - 1) eqn:E; simpl.
  - destruct (runAllRef _).
    + apply journey_inv_later; [apply Z.ltb_lt in E; steps_lia|].
      revert H. apply journey_inv_frame; reflexivity.
    + revert H. apply journey_inv_frame; reflexivity.
  - revert H. apply journey_inv_frame; reflexivity.
Qed.

Lemma journey_inv_advanceTo k (w : W) : inv w -> inv (advanceTo k w).
Proof.
  intros H. unfold advanceTo.
  destruct (k <=? activeIndex (Loop.comp w)) eqn:E1; simpl; [exact H|].
  destruct (k >=? STEPS_length) eqn:E2; [exact H|].
  apply Z.leb_gt in E1. rewrite Z.geb_leb in E2. apply Z.leb_gt in E2.
  apply journey_inv_later.
  - destruct H as [Hc _]. steps_lia.
  - revert H. apply journey_inv_frame; reflexivity.
Qed.

Lemma journey_inv_run cb (w : W) : cb_ok cb -> inv w -> inv (run cb w).
Proof.
  intros Hcb H. destruct cb as [k|c|c]; simpl in *.
  - destruct (negb _); [exact H|].
    apply journey_inv_setActiveIndex; [steps_lia|].
    revert H. apply journey_inv_frame; reflexivity.
  - destruct (_ || _).
    + revert H. apply journey_inv_frame; reflexivity.
    + apply journey_inv_later; [steps_lia|].
      apply journey_inv_setActiveIndex; [steps_lia|].
      revert H. apply journey_inv_frame; reflexivity.
  - now apply journey_inv_runAll_loop.
Qed.

Lemma journey_inv_step (w w' : W) : step w w' -> tracked w -> inv w -> inv w'.
Proof.
  intros Hs Ht H. destruct Hs as [k w _|w _|w _|w _|i w _ Hi|w|t w Hq|t w Hq].
  - now apply journey_inv_advanceTo.
  - unfold handleNext. destruct (negb _); [now apply journey_inv_advanceTo | exact H].
  - unfold runAll. destruct (isRunningAll _); [exact H|].
    apply journey_inv_runAll_loop.
    + destruct H as [Hc _]. steps_lia.
    + revert H. apply journey_inv_frame; reflexivity.
  - split.
    + unfold cursor_ok, handleReset, clearTimeouts. simpl.
      rewrite clearEach_comp. simpl. lia.
    + unfold handleReset. rewrite journey_clearTimeouts_queue; [contradiction|].
      revert Ht. apply journey_tracked_frame; reflexivity.
  - unfold nodeClick. destruct (i <=? activeIndex (Loop.comp w)) eqn:E; [|exact H].
    apply journey_inv_setActiveIndex; [apply Z.leb_le in E; destruct H; steps_lia|].
    revert H. apply journey_inv_frame; reflexivity.
  - split.
    + unfold cursor_ok, unmount, clearTimeouts. simpl.
      rewrite clearEach_comp. simpl. apply H.
    + unfold unmount. simpl. rewrite clearEach_all; [contradiction|].
      exact Ht.
  - unfold Loop.fire. apply journey_inv_run.
    + apply H. now apply earliest_In.
    + destruct H as [Hc Hcb]. split; [exact Hc|].
      intros u Hu. apply dequeue_In in Hu. auto.
  - revert H. apply journey_inv_frame; reflexivity.
Qed.

Lemma journey_reachable_inv (w : W) : reachable w -> inv w.
Proof.
  induction 1 as [|w w' Hr IH Hs].
  - split; [unfold cursor_ok; simpl; lia|].
    simpl. contradiction.
  - exact (journey_inv_step _ _ Hs (journey_reachable_tracked _ Hr) IH).
Qed.

Lemma advanceTo_guard k (w : W) :
  k <= activeIndex (Loop.comp w) \/ STEPS_length <= k -> advanceTo k w = w.
Proof.
  intros H. unfold advanceTo.
  destruct (k <=? activeIndex (Loop.comp w)) eqn:E1; [reflexivity|].
  destruct (k >=? STEPS_length) eqn:E2; [reflexivity|].
  apply Z.leb_gt in E1. rewrite Z.geb_leb in E2. apply Z.leb_gt in E2. lia.
Qed.

(** C6. [advanceTo index] moves the cursor only forward.  For an index
    ahead of the cursor and below the number of steps it leaves the
    cursor where it is and adds one timer, due 480 ms later, behind the
    timers already pending; when that timer runs, the component being
    mounted, the cursor is at that index, whatever else is pending and
    wherever the cursor has been moved meanwhile.  Next is not disabled
    during a traversal and a node click cancels nothing, so other
    timers may move the cursor before and after; when none is pending
    the cursor is at the index from 480 ms after the call on.  For every
    other index, the ones behind the cursor and the out-of-range ones
    (negative, or at least the number of steps), [advanceTo] is a
    no-op.  The move back to a step [i] at or behind the cursor is made
    by the click handler of the pipeline node, at once and with no
    timer, so no intermediate step is replayed. *)
Theorem advanceTo_moves_forward_only (w : W) (index : Z) :
  reachable w ->
  isMounted (Loop.comp w) = true ->
  (index < 0 \/ STEPS_length <= index -> advanceTo index w = w) /\
  (index <= activeIndex (Loop.comp w) -> advanceTo index w = w) /\
  (activeIndex (Loop.comp w) < index < STEPS_length ->
   let t := Loop.mkTimer (Loop.fresh w) (Loop.clock w + 480) (AdvanceDone index) in
   Loop.queue (advanceTo index w) = Loop.queue w ++ [t] /\
   activeIndex (Loop.comp (advanceTo index w)) = activeIndex (Loop.comp w) /\
   (forall w' : W,
      isMounted (Loop.comp w') = true ->
      activeIndex (Loop.comp (Loop.fire run t w')) = index) /\
   (Loop.queue w = [] ->
    forall n until,
      Loop.clock w + 480 <= until ->
      activeIndex (Loop.comp (Loop.elapse run (S n) until (advanceTo index w)))
      = index)) /\
  (0 <= index <= activeIndex (Loop.comp w) ->
   activeIndex (Loop.comp (nodeClick index w)) = index /\
   Loop.queue (nodeClick index w) = Loop.queue w).
Proof.
  intros Hr Hm.
  destruct (journey_reachable_inv w Hr) as [Hc _]. unfold cursor_ok in Hc.
  split; [|split; [|split]].
  - intros H. apply advanceTo_guard. lia.
  - intros H. apply advanceTo_guard. lia.
  - intros H t.
    assert (E : advanceTo index w
                = later (AdvanceDone index) 480
                    (setTraversingIndex (Some (index - 1)) w)).
    { unfold advanceTo.
      replace (index <=? activeIndex (Loop.comp w)) with false
        by (symmetry; apply Z.leb_gt; lia).
      replace (index >=? STEPS_length) with false
        by (symmetry; rewrite Z.geb_leb; apply Z.leb_gt; lia).
      reflexivity. }
    split; [rewrite E; reflexivity|].
    split; [rewrite E; reflexivity|].
    split.
    + intros w' Hm'. unfold Loop.fire, t. cbn. rewrite Hm'. reflexivity.
    + intros Hq n until Hu. rewrite E.
      unfold later, setTraversingIndex, Loop.setTimeout, Loop.with_comp.
      cbn. rewrite Hq. cbn.
      replace (Loop.clock w + 480 <=? until) with true
        by (symmetry; apply Z.leb_le; lia).
      unfold Loop.fire. cbn. rewrite Hm. cbn.
      match goal with
      | |- activeIndex (Loop.comp (Loop.elapse run n until ?w0)) = _ =>
          assert (Hq0 : Loop.queue w0 = [])
            by (cbn; rewrite Nat.eqb_refl; reflexivity);
          destruct (elapse_quiet run n until w0 Hq0) as [-> _]
      end.
      reflexivity.
  - intros H. unfold nodeClick.
    replace (index <=? activeIndex (Loop.comp w)) with true
      by (symmetry; apply Z.leb_le; lia).
    split; reflexivity.
Qed.

(** Next twice, so that a traversal to step 2 is pending, then a click
    on node 0: [advanceTo 1] adds its timer behind the pending one. *)
Lemma advanceTo_moves_forward_only_witness :
  let w1 := Loop.elapse run 1 480 (handleNext (Loop.boot initial)) in
  let w := nodeClick 0 (handleNext w1) in
  let t := Loop.mkTimer 3%nat (480 + 480) (AdvanceDone 1) in
  activeIndex (Loop.comp w) = 0 /\
  List.length (Loop.queue w) = 1%nat /\
  Loop.queue (advanceTo 1 w) = Loop.queue w ++ [t] /\
  activeIndex (Loop.comp (Loop.advance run 1 (advanceTo 1 w))) = 2 /\
  activeIndex (Loop.comp (Loop.advance run 2 (advanceTo 1 w))) = 1 /\
  activeIndex (Loop.comp (Loop.fire run t (Loop.advance run 1 (advanceTo 1 w)))) = 1 /\
  activeIndex
    (Loop.comp (Loop.elapse run 1 480 (advanceTo 1 (Loop.boot initial)))) = 1.
Proof.
  split; [reflexivity|]. split; [reflexivity|].
  assert (Hr : reachable (nodeClick 0
                 (handleNext (Loop.elapse run 1 480 (handleNext (Loop.boot initial)))))).
  { apply reach_step with (w := handleNext
        (Loop.elapse run 1 480 (handleNext (Loop.boot initial))));
      [|apply step_nodeClick; [reflexivity | rewrite STEPS_length_6; lia]].
    apply reach_step with (w := Loop.elapse run 1 480 (handleNext (Loop.boot initial)));
      [|apply step_handleNext; reflexivity].
    apply reach_step with (w := handleNext (Loop.boot initial));
      [|apply (step_timer (Loop.mkTimer 1%nat 480 (AdvanceDone 1))); reflexivity].
    apply reach_step with (w := Loop.boot initial);
      [apply reach_boot | apply step_handleNext; reflexivity]. }
  destruct (advanceTo_moves_forward_only _ 1 Hr eq_refl) as (_ & _ & H & _).
  destruct H as (Hq & _ & Hf & _); [rewrite STEPS_length_6; cbn; lia|].
  split; [exact Hq|].
  split; [reflexivity|]. split; [reflexivity|].
  split; [apply Hf; reflexivity|].
  refine (proj2 (proj2 (proj2 (proj1 (proj2 (proj2
            (advanceTo_moves_forward_only (Loop.boot initial) 1 reach_boot eq_refl)))
            _))) eq_refl O 480 _).
  - rewrite STEPS_length_6. simpl. lia.
  - simpl. lia.
Defined.

(** [advanceTo 1] with the cursor on step 3 does nothing, then or
    later.  The cursor was brought to 3 by three clicks on Next. *)
Lemma advanceTo_backward_is_noop :
  let next := fun until w => Loop.elapse run 4 until (handleNext w) in
  let w := next 1500 (next 1000 (next 500 (Loop.boot initial))) in
  activeIndex (Loop.comp w) = 3 /\
  advanceTo 1 w = w /\
  activeIndex (Loop.comp (Loop.elapse run 8 60000 (advanceTo 1 w))) = 3.
Proof. vm_compute. repeat split. Qed.
End JourneyFacts.

(** ** The request trace of the cluster anatomy explorer *)

Section ClusterAnatomyFacts.
Import ClusterAnatomy.

Lemma TRACE_STEPS_length_7 : TRACE_STEPS_length = 7.
Proof. reflexivity. Qed.

Lemma trace_tracked_frame (w w' : W) :
  Loop.queue w' = Loop.queue w ->
  traceTimeoutsRef (Loop.comp w') = traceTimeoutsRef (Loop.comp w) ->
  tracked w -> tracked w'.
Proof. unfold tracked. intros -> ->. auto. Qed.

Lemma trace_tracked_later fn ms (w : W) : tracked w -> tracked (later fn ms w).
Proof.
  unfold tracked, later. simpl. intros H t Ht.
  apply in_app_or in Ht. apply in_or_app.
  destruct Ht as [Ht|[<-|[]]]; [left; auto | right; now left].
Qed.

Lemma trace_tracked_empty (w : W) : Loop.queue w = [] -> tracked w.
Proof. unfold tracked. intros ->. contradiction. Qed.

Lemma stopTrace_queue (w : W) : tracked w -> Loop.queue (stopTrace w) = [].
Proof. intros H. unfold stopTrace. simpl. now apply clearEach_all. Qed.

Lemma trace_tracked_step (w w' : W) : step w w' -> tracked w -> tracked w'.
Proof.
  intros Hs H. destruct Hs as [w|w|v w|t w Ht|t w Ht].
  - unfold startTrace. destruct (traceRunning _).
    + apply trace_tracked_empty. now apply stopTrace_queue.
    + simpl. repeat apply trace_tracked_later.
      revert H. apply trace_tracked_frame; reflexivity.
  - apply trace_tracked_empty. now apply stopTrace_queue.
  - revert H. apply trace_tracked_frame; reflexivity.
  - unfold Loop.fire.
    assert (H0 : tracked (Loop.dequeue t w)).
    { intros u Hu. apply dequeue_In in Hu. simpl. auto. }
    destruct (Loop.callback t); simpl;
      revert H0; apply trace_tracked_frame; reflexivity.
  - revert H. apply trace_tracked_frame; reflexivity.
Qed.

Lemma trace_reachable_tracked (w : W) : reachable w -> tracked w.
Proof.
  induction 1 as [|w w' _ IH Hs].
  - apply trace_tracked_empty. reflexivity.
  - exact (trace_tracked_step _ _ Hs IH).
Qed.

(** After [stopTrace] no timer is pending: the trace stays stopped. *)
Lemma stopTrace_quiet (w : W) :
  reachable w ->
  forall n until,
    Loop.comp (Loop.elapse run n until (stopTrace w)) = Loop.comp (stopTrace w).
Proof.
  intros Hr n until. apply elapse_quiet, stopTrace_queue.
  now apply trace_reachable_tracked.
Qed.

Lemma trace_inv_frame (w w' : W) :
  Loop.queue w' = Loop.queue w ->
  traceStepIndex (Loop.comp w') = traceStepIndex (Loop.comp w) ->
  inv w -> inv w'.
Proof. unfold inv, cursor_ok. intros -> ->. auto. Qed.

Lemma trace_inv_later fn ms (w : W) : cb_ok fn -> inv w -> inv (later fn ms w).
Proof.
  unfold inv, cursor_ok, later. simpl. intros Hf [Hc Hq]. split; [exact Hc|].
  intros t Ht. apply in_app_or in Ht.
  destruct Ht as [Ht|[<-|[]]]; [auto | exact Hf].
Qed.

Lemma trace_inv_step (w w' : W) : step w w' -> tracked w -> inv w -> inv w'.
Proof.
  intros Hs Ht H. destruct Hs as [w|w|v w|t w Hq|t w Hq].
  - unfold startTrace. destruct (traceRunning _).
    + split; [unfold cursor_ok, stopTrace; rewrite TRACE_STEPS_length_7; simpl; lia|].
      rewrite stopTrace_queue by exact Ht. contradiction.
    + simpl.
      repeat (apply trace_inv_later;
              [unfold cb_ok; rewrite ?TRACE_STEPS_length_7; try exact I; lia|]).
      destruct H as [_ Hcb].
      split; [unfold cursor_ok; rewrite TRACE_STEPS_length_7; simpl; lia | exact Hcb].
  - split; [unfold cursor_ok, stopTrace; rewrite TRACE_STEPS_length_7; simpl; lia|].
    rewrite stopTrace_queue by exact Ht. contradiction.
  - revert H. apply trace_inv_frame; reflexivity.
  - unfold Loop.fire.
    assert (Hcb : cb_ok (Loop.callback t)) by (apply H; now apply earliest_In).
    assert (Hq' : forall u, In u (Loop.queue (Loop.dequeue t w)) ->
                            cb_ok (Loop.callback u)).
    { intros u Hu. apply dequeue_In in Hu. now apply H. }
    pose proof TRACE_STEPS_length_7 as L.
    destruct (Loop.callback t) as [i|]; unfold cb_ok in Hcb;
      (split; [unfold cursor_ok; simpl; lia | exact Hq']).
  - revert H. apply trace_inv_frame; reflexivity.
Qed.

Lemma trace_reachable_inv (w : W) : reachable w -> inv w.
Proof.
  induction 1 as [|w w' Hr IH Hs].
  - split; [unfold cursor_ok; rewrite TRACE_STEPS_length_7; simpl; lia
           | simpl; contradiction].
  - exact (trace_inv_step _ _ Hs (trace_reachable_tracked _ Hr) IH).
Qed.

(** [stopTrace] takes the cursor from a step of the trace to -1. *)
Lemma stopTrace_leaves_the_steps :
  let w := Loop.elapse run 4 2000 (startTrace (Loop.boot initial)) in
  traceRunning (Loop.comp w) = true /\
  0 <= traceStepIndex (Loop.comp w) <= TRACE_STEPS_length /\
  traceStepIndex (Loop.comp (stopTrace w)) = -1 /\
  ~ (0 <= traceStepIndex (Loop.comp (stopTrace w)) <= TRACE_STEPS_length).
Proof. vm_compute. intuition congruence. Qed.
End ClusterAnatomyFacts.

(** ** The NetworkPolicy simulator *)

Section NetworkPolicyFacts.
Import NetworkPolicy.

Lemma netpol_tracked_frame (w w' : W) :
  Loop.queue w' = Loop.queue w ->
  timeoutIds (Loop.comp w') = timeoutIds (Loop.comp w) ->
  tracked w -> tracked w'.
Proof. unfold tracked. intros -> ->. auto. Qed.

Lemma netpol_tracked_empty (w : W) : Loop.queue w = [] -> tracked w.
Proof. unfold tracked. intros ->. contradiction. Qed.

Lemma netpol_tracked_step (w w' : W) : step w w' -> tracked w -> tracked w'.
Proof.
  intros Hs H. destruct Hs as [from to w _|w _|w|t w Ht|t w Ht].
  - unfold sendTraffic. destruct (_ || _); [exact H|].
    unfold tracked. simpl. intros t Ht.
    apply in_app_or in Ht. apply in_or_app.
    destruct Ht as [Ht|[<-|[]]]; [left; auto | right; now left].
  - revert H. apply netpol_tracked_frame; reflexivity.
  - apply netpol_tracked_empty. unfold unmount. simpl. now apply clearEach_all.
  - unfold Loop.fire.
    assert (H0 : tracked (Loop.dequeue t w)).
    { intros u Hu. apply dequeue_In in Hu. simpl. auto. }
    destruct (Loop.callback t); simpl.
    destruct (negb _); [exact H0|].
    revert H0. apply netpol_tracked_frame; reflexivity.
  - revert H. apply netpol_tracked_frame; reflexivity.
Qed.

Lemma netpol_reachable_tracked (w : W) : reachable w -> tracked w.
Proof.
  induction 1 as [|w w' _ IH Hs].
  - apply netpol_tracked_empty. reflexivity.
  - exact (netpol_tracked_step _ _ Hs IH).
Qed.

(** After the unmount cleanup no timer is pending: nothing of the
    component changes any more. *)
Lemma netpol_unmount_quiet (w : W) :
  reachable w ->
  forall n until,
    Loop.comp (Loop.elapse run n until (unmount w)) = Loop.comp (unmount w).
Proof.
  intros Hr n until. apply elapse_quiet.
  unfold unmount. simpl. apply clearEach_all.
  intros t Ht. exact (netpol_reachable_tracked w Hr t Ht).
Qed.
End NetworkPolicyFacts.

(** ** The scheduler playground's single timer *)

Section SchedulerTimerFacts.
Import Scheduler.
Variable table : list Node.

Local Abbreviation run := (Scheduler.run table).
Local Abbreviation step := (Scheduler.step table).
Local Abbreviation reachable := (Scheduler.reachable table).

Lemma scheduler_tracked_frame (w w' : W) :
  Loop.queue w' = Loop.queue w ->
  timeoutRef (Loop.comp w') = timeoutRef (Loop.comp w) ->
  tracked w -> tracked w'.
Proof. unfold tracked. intros -> ->. auto. Qed.

(** Clearing the stored handle leaves nothing pending. *)
Lemma scheduler_clear_stored (w : W) :
  tracked w ->
  Loop.queue (match timeoutRef (Loop.comp w) with
              | Some h => Loop.clearTimeout h w
              | None => w
              end) = [].
Proof.
  intros H.
  destruct (timeoutRef (Loop.comp w)) as [h|] eqn:E.
  - simpl. apply (clearEach_all [h] w).
    intros t Ht. specialize (H t Ht). rewrite E in H. injection H as ->. now left.
  - destruct (Loop.queue w) as [|t q] eqn:Q; [reflexivity|].
    specialize (H t). rewrite Q in H. specialize (H (or_introl eq_refl)).
    congruence.
Qed.

Lemma scheduler_tracked_step (w w' : W) : step w w' -> tracked w -> tracked w'.
Proof.
  intros Hs H. destruct Hs as [w Hm|v w _|v w _|w|t w Ht|t w Ht].
  - unfold schedulePod. cbn. rewrite Hm. cbn.
    assert (Hq := scheduler_clear_stored w H).
    destruct (timeoutRef (Loop.comp w)) as [h|]; cbn in *;
      rewrite Hq; intros t [<-|[]]; reflexivity.
  - revert H. apply scheduler_tracked_frame; reflexivity.
  - revert H. apply scheduler_tracked_frame; reflexivity.
  - unfold unmount. cbn.
    destruct (timeoutRef (Loop.comp w)) as [h|] eqn:E; cbn.
    + intros t Ht. cbn in Ht. apply filter_In in Ht. destruct Ht as [Ht _].
      specialize (H t Ht). cbn. congruence.
    + intros t Ht. cbn in Ht. specialize (H t Ht). cbn. congruence.
  - unfold Loop.fire.
    assert (H0 : tracked (Loop.dequeue t w)).
    { intros u Hu. apply dequeue_In in Hu. simpl. auto. }
    destruct (Loop.callback t); simpl.
    destruct (negb _); [exact H0|].
    revert H0. apply scheduler_tracked_frame; reflexivity.
  - revert H. apply scheduler_tracked_frame; reflexivity.
Qed.

Lemma scheduler_reachable_tracked (w : W) : reachable w -> tracked w.
Proof.
  induction 1 as [|w w' _ IH Hs].
  - intros t [].
  - exact (scheduler_tracked_step _ _ Hs IH).
Qed.

(** After the unmount cleanup the pending decision never arrives. *)
Lemma scheduler_unmount_quiet (w : W) :
  reachable w ->
  forall n until,
    Loop.comp (Loop.elapse run n until (unmount w)) = Loop.comp (unmount w).
Proof.
  intros Hr n until. apply elapse_quiet.
  unfold unmount.
  apply (scheduler_clear_stored
           (Loop.with_comp (fun s =>
              mkState (cpuReq s) (memReq s) (scheduled s) (scheduling s)
                      (timeoutRef s) false) w)).
  generalize (scheduler_reachable_tracked w Hr).
  apply scheduler_tracked_frame; reflexivity.
Qed.
End SchedulerTimerFacts.

(** ** Cancelling: where a pending timer outlives the stop *)

(** C1. Switching the Service type while a request animation runs is
    that simulator's stop: [handleTypeChange] raises [abortRef] and
    clears the animation state, but it cancels no timer and lowers
    [abortRef] again after 50 ms.  The pending 500 ms timer of the
    animation then finds the flag lowered and goes on: 600 ms after the
    switch the "pods" layer is lit, and in the end a pod is targeted,
    although the switch had left no layer lit and no pod targeted. *)
Lemma typeChange_leaves_animation_running :
  let w1 := ServiceRouting.handleSendRequest (Loop.boot ServiceRouting.initial) in
  let w2 := Loop.elapse ServiceRouting.run 4 100 w1 in
  let w3 := ServiceRouting.handleTypeChange ServiceRouting.NodePort w2 in
  (ServiceRouting.animating (Loop.comp w3) = false /\
   ServiceRouting.activeLayerId (Loop.comp w3) = None /\
   ServiceRouting.targetedPod (Loop.comp w3) = None) /\
  ServiceRouting.activeLayerId
    (Loop.comp (Loop.elapse ServiceRouting.run 8 700 w3)) = Some "pods"%string /\
  ServiceRouting.targetedPod
    (Loop.comp (Loop.elapse ServiceRouting.run 8 3000 w3)) = Some "pod-a"%string /\
  Loop.comp (Loop.elapse ServiceRouting.run 8 3000 w3) <> Loop.comp w3.
Proof. vm_compute. repeat split; discriminate. Qed.

(** The jump back in the journey cancels no timer either: a click on
    Next followed within 480 ms by a click on the first node leaves the
    cursor on 0 only until the pending timer runs. *)
Lemma nodeClick_leaves_advance_pending :
  let w1 := Journey.handleNext (Loop.boot Journey.initial) in
  let w2 := Journey.nodeClick 0 (Loop.elapse Journey.run 4 100 w1) in
  Journey.activeIndex (Loop.comp w2) = 0 /\
  Journey.activeIndex (Loop.comp (Loop.elapse Journey.run 4 1000 w2)) = 1.
Proof. vm_compute. split; reflexivity. Qed.

(** ** Starting while running *)

(** C5. [runAll], [sendTraffic] and [handleSendRequest] return at once
    when their running flag is set: the world, with cursor, flag and
    timer queue, is unchanged.  [startRollout] and [schedulePod] have no
    such test of their own; the buttons that call them are disabled
    while the simulation runs, so that a click then changes nothing.
    The trace button of the cluster explorer stops a running trace. *)
Theorem start_while_running_is_gated :
  (forall w : Journey.W,
     Journey.isRunningAll (Loop.comp w) = true -> Journey.runAll w = w) /\
  (forall from to (w : NetworkPolicy.W),
     NetworkPolicy.animating (Loop.comp w) = true ->
     NetworkPolicy.sendTraffic from to w = w) /\
  (forall w : ServiceRouting.W,
     ServiceRouting.animating (Loop.comp w) = true ->
     ServiceRouting.handleSendRequest w = w) /\
  (forall random date_now time_text (w : Rollout.W),
     Rollout.isRolling (Loop.comp w) = true ->
     Rollout.clickDeploy random date_now time_text w = w /\
     Rollout.clickRollback random date_now time_text w = w) /\
  (forall w : Scheduler.W,
     Scheduler.scheduling (Loop.comp w) = true ->
     Scheduler.clickSchedule w = w) /\
  (forall w : ClusterAnatomy.W,
     ClusterAnatomy.traceRunning (Loop.comp w) = true ->
     ClusterAnatomy.startTrace w = ClusterAnatomy.stopTrace w).
Proof.
  repeat split.
  - intros w H. unfold Journey.runAll. now rewrite H.
  - intros from to w H. unfold NetworkPolicy.sendTraffic. now rewrite H.
  - intros w H. unfold ServiceRouting.handleSendRequest. now rewrite H.
  - unfold Rollout.clickDeploy. rewrite H. now rewrite orb_true_r.
  - unfold Rollout.clickRollback. rewrite H. now rewrite orb_true_r.
  - intros w H. unfold Scheduler.clickSchedule. now rewrite H.
  - intros w H. unfold ClusterAnatomy.startTrace. now rewrite H.
Qed.

Lemma start_while_running_is_gated_witness :
  let w := Journey.runAll (Loop.boot Journey.initial) in
  Journey.runAll w = w.
Proof.
  apply (proj1 start_while_running_is_gated). reflexivity.
Defined.

(** [startRollout] called while a rollout is under way: five seconds
    in, one pod has been replaced and progress is 25; the call sets
    progress back to 0, cancels the pending timers and creates four new
    ones. *)
Lemma startRollout_while_rolling_restarts :
  let random := fun _ : nat => "k8s0x"%string in
  let run := Rollout.run random Js.string_of_Z Js.string_of_Z 979 in
  let startRollout := Rollout.startRollout random Js.string_of_Z Js.string_of_Z in
  let w := Loop.elapse run 8 5000 (startRollout (Rollout.mount random)) in
  Rollout.isRolling (Loop.comp w) = true /\
  Rollout.progress (Loop.comp w) = 25 /\
  Rollout.progress (Loop.comp (startRollout w)) = 0 /\
  map Loop.handle (Loop.queue w) = [3; 4; 9]%nat /\
  map Loop.handle (Loop.queue (startRollout w)) = [10; 11; 12; 13]%nat /\
  startRollout w <> w.
Proof. vm_compute. repeat split. discriminate. Qed.

(** [schedulePod] called while a decision is pending: the running flag
    stays set, the pending timer is cancelled and a new one is created. *)
Lemma schedulePod_while_scheduling_rearms :
  let w := Loop.elapse (Scheduler.run Scheduler.nodes) 4 600
             (Scheduler.schedulePod (Loop.boot Scheduler.initial)) in
  Scheduler.scheduling (Loop.comp w) = true /\
  map (fun t => (Loop.handle t, Loop.due t)) (Loop.queue w) = [(1%nat, 1200)] /\
  Scheduler.scheduling (Loop.comp (Scheduler.schedulePod w)) = true /\
  map (fun t => (Loop.handle t, Loop.due t)) (Loop.queue (Scheduler.schedulePod w))
    = [(2%nat, 1800)].
Proof. vm_compute. repeat split. Qed.

(** ** The invariants of the data model *)

(** C9. Every operation of the progress store, called with a Section
    id, keeps [currentSection] a Section id and [visitedSections] and
    [completedExercises] lists of Section ids.  The step cursor of the
    journey stays on one of its steps, from 0 to the last.  The cursor
    of the request trace stays on one of its steps or at -1, its value
    while no trace runs. *)
Theorem store_and_cursor_invariants :
  (forall a s,
     ProgressStore.well_typed a -> ProgressStore.valid_state s ->
     ProgressStore.valid_state (ProgressStore.apply a s)) /\
  (forall w : Journey.W,
     Journey.reachable w ->
     0 <= Journey.activeIndex (Loop.comp w) <= Journey.STEPS_length - 1) /\
  (forall w : ClusterAnatomy.W,
     ClusterAnatomy.reachable w ->
     -1 <= ClusterAnatomy.traceStepIndex (Loop.comp w)
        <= ClusterAnatomy.TRACE_STEPS_length - 1).
Proof.
  split; [|split].
  - exact apply_valid.
  - intros w Hr. apply (journey_reachable_inv w Hr).
  - intros w Hr. apply (trace_reachable_inv w Hr).
Qed.

Lemma store_and_cursor_invariants_witness :
  ProgressStore.valid_state
    (ProgressStore.apply (ProgressStore.MarkExerciseComplete 3) ProgressStore.initial).
Proof.
  apply (proj1 store_and_cursor_invariants).
  - simpl. unfold ProgressStore.valid_section. lia.
  - unfold ProgressStore.valid_state, ProgressStore.valid_section. simpl.
    repeat split; try lia; repeat constructor; lia.
Defined.

(* ================================================================== *)
(** * Further properties of the code *)
(* ================================================================== *)

(** ** The timer queue: running a given number of timers *)

Section AdvanceFacts.
Context {St Cb : Type}.
Variable run : Cb -> Loop.world St Cb -> Loop.world St Cb.
Implicit Types (w : Loop.world St Cb).

Lemma advance_quiet k w : Loop.queue w = [] -> Loop.advance run k w = w.
Proof. intros H. destruct k; simpl; [reflexivity|]. now rewrite H. Qed.

Lemma advance_add a : forall b w,
  Loop.advance run (a + b) w = Loop.advance run b (Loop.advance run a w).
Proof.
  induction a as [|a IH]; intros b w; simpl; [reflexivity|].
  destruct (Loop.earliest (Loop.queue w)) as [t|] eqn:E.
  - apply IH.
  - apply earliest_None in E. symmetry. now apply advance_quiet.
Qed.

Lemma advance_succ k w :
  Loop.advance run (S k) w = Loop.advance run k (Loop.advance run 1 w).
Proof. exact (advance_add 1 k w). Qed.

End AdvanceFacts.

(** ** The progress store, continued *)

Section ProgressStoreMore.
Import ProgressStore.

Lemma strictly_increasing_ext l1 : forall l2,
  strictly_increasing l1 -> strictly_increasing l2 ->
  (forall x, In x l1 <-> In x l2) -> l1 = l2.
Proof.
  unfold strictly_increasing.
  induction l1 as [|a l1 IH]; intros l2 H1 H2 E.
  - destruct l2 as [|b l2]; [reflexivity|].
    destruct (proj2 (E b) (or_introl eq_refl)).
  - destruct l2 as [|b l2]; [destruct (proj1 (E a) (or_introl eq_refl))|].
    inversion H1 as [|? ? S1 F1]; subst. inversion H2 as [|? ? S2 F2]; subst.
    rewrite Forall_forall in F1, F2.
    assert (a = b).
    { destruct (proj1 (E a) (or_introl eq_refl)) as [Hb|Hb]; [now symmetry|].
      destruct (proj2 (E b) (or_introl eq_refl)) as [Ha|Ha]; [exact Ha|].
      specialize (F1 _ Ha). specialize (F2 _ Hb). lia. }
    subst b. f_equal. apply IH; try assumption.
    intros x. split; intros Hx.
    + destruct (proj1 (E x) (or_intror Hx)) as [<-|Hx']; [|exact Hx'].
      specialize (F1 _ Hx). lia.
    + destruct (proj2 (E x) (or_intror Hx)) as [<-|Hx']; [|exact Hx'].
      specialize (F2 _ Hx). lia.
Qed.

Lemma add_In l x y : In y (Js.sort ascending (l ++ [x])) <-> y = x \/ In y l.
Proof.
  rewrite (sort_In ascending). rewrite in_app_iff. simpl. intuition.
Qed.

Lemma markExerciseComplete_In s id x :
  In x (completedExercises (markExerciseComplete id s))
  <-> x = id \/ In x (completedExercises s).
Proof.
  unfold markExerciseComplete.
  destruct (Js.includes (completedExercises s) id) eqn:Ec; simpl.
  - apply includes_In in Ec. intuition (subst; auto).
  - apply add_In.
Qed.

Lemma markVisited_In s id x :
  In x (visitedSections (markVisited id s))
  <-> x = id \/ In x (visitedSections s).
Proof.
  unfold markVisited.
  destruct (Js.includes (visitedSections s) id) eqn:Ec; simpl.
  - apply includes_In in Ec. intuition (subst; auto).
  - apply add_In.
Qed.

Lemma markExerciseComplete_frame s id :
  visitedSections (markExerciseComplete id s) = visitedSections s /\
  currentSection (markExerciseComplete id s) = currentSection s.
Proof.
  unfold markExerciseComplete.
  destruct (negb (Js.includes (completedExercises s) id)); now split.
Qed.

Lemma markVisited_frame s id :
  completedExercises (markVisited id s) = completedExercises s /\
  currentSection (markVisited id s) = currentSection s.
Proof.
  unfold markVisited.
  destruct (negb (Js.includes (visitedSections s) id)); now split.
Qed.

(** X1. [markExerciseComplete id] adds [id] to [completedExercises] and
    nothing else: afterwards the list holds [id] and exactly the ids it
    held before; [visitedSections] and [currentSection] are untouched.
    [markVisited] does the same for [visitedSections]. *)
Theorem mark_adds_exactly_the_section (s : ProgressState) (id x : SectionId) :
  (In x (completedExercises (markExerciseComplete id s))
     <-> x = id \/ In x (completedExercises s)) /\
  visitedSections (markExerciseComplete id s) = visitedSections s /\
  currentSection (markExerciseComplete id s) = currentSection s /\
  (In x (visitedSections (markVisited id s))
     <-> x = id \/ In x (visitedSections s)) /\
  completedExercises (markVisited id s) = completedExercises s /\
  currentSection (markVisited id s) = currentSection s.
Proof.
  split; [apply markExerciseComplete_In|].
  split; [apply markExerciseComplete_frame|].
  split; [apply markExerciseComplete_frame|].
  split; [apply markVisited_In|].
  apply markVisited_frame.
Qed.

(** X2. Marking two exercises complete gives the same store in either
    order, in every state whose [completedExercises] is strictly
    increasing (as it is in every state the store reaches). *)
Theorem markExerciseComplete_commutes (s : ProgressState) (a b : SectionId) :
  strictly_increasing (completedExercises s) ->
  markExerciseComplete a (markExerciseComplete b s)
  = markExerciseComplete b (markExerciseComplete a s).
Proof.
  intros Hs.
  assert (E : completedExercises (markExerciseComplete a (markExerciseComplete b s))
              = completedExercises (markExerciseComplete b (markExerciseComplete a s))).
  { apply strictly_increasing_ext.
    - now repeat apply markExerciseComplete_sorted.
    - now repeat apply markExerciseComplete_sorted.
    - intros x. rewrite !markExerciseComplete_In. tauto. }
  destruct (markExerciseComplete_frame s a) as (Va & Ca).
  destruct (markExerciseComplete_frame s b) as (Vb & Cb).
  destruct (markExerciseComplete_frame (markExerciseComplete b s) a) as (Vab & Cab).
  destruct (markExerciseComplete_frame (markExerciseComplete a s) b) as (Vba & Cba).
  destruct (markExerciseComplete a (markExerciseComplete b s)) as [c1 v1 e1].
  destruct (markExerciseComplete b (markExerciseComplete a s)) as [c2 v2 e2].
  simpl in *. congruence.
Qed.

Lemma markExerciseComplete_commutes_witness :
  markExerciseComplete 7 (markExerciseComplete 2 (mkProgress 0 [0; 1] [4]))
  = markExerciseComplete 2 (markExerciseComplete 7 (mkProgress 0 [0; 1] [4])).
Proof.
  apply (markExerciseComplete_commutes (mkProgress 0 [0; 1] [4]) 7 2).
  simpl. repeat constructor.
Defined.
End ProgressStoreMore.

Section ProgressStoreReach.
Import ProgressStore.

Lemma valid_section_In x : valid_section x <-> In x SECTIONS.
Proof.
  unfold valid_section, SECTIONS. simpl. split; [|intuition lia].
  intros H.
  assert (x = 0 \/ x = 1 \/ x = 2 \/ x = 3 \/ x = 4 \/ x = 5 \/ x = 6
          \/ x = 7 \/ x = 8 \/ x = 9) by lia.
  intuition (subst; auto 12).
Qed.

Lemma apply_all_visited a s : all_visited s -> all_visited (apply a s).
Proof.
  unfold all_visited. intros H. destruct a as [x|x|x|]; simpl; intros y Hy.
  - unfold setCurrentSection. destruct (currentSection s =? x); [auto|].
    apply markVisited_In. right. simpl. auto.
  - apply markVisited_In. auto.
  - rewrite (proj1 (markExerciseComplete_frame s x)). auto.
  - exact Hy.
Qed.

Lemma run_all_visited acts : forall s, all_visited s -> all_visited (run acts s).
Proof.
  induction acts as [|a acts IH]; intros s H; simpl; [exact H|].
  apply IH, apply_all_visited, H.
Qed.

Lemma run_valid acts : forall s,
  Forall well_typed acts -> valid_state s -> valid_state (run acts s).
Proof.
  induction acts as [|a acts IH]; intros s Ha Hs; simpl; [exact Hs|].
  inversion Ha; subst. apply IH; [assumption|]. now apply apply_valid.
Qed.

(** X3. The store starts with every section visited and no call takes
    a section out of [visitedSections]; so in every state the store
    reaches, [markVisited] of a Section id changes nothing,
    [setCurrentSection] changes [currentSection] only, and every dot of
    the progress bar counts as visited. *)
Theorem every_section_stays_visited (acts : list action) (x : SectionId) :
  valid_section x ->
  let s := run acts initial in
  markVisited x s = s /\
  setCurrentSection x s
    = mkProgress x (visitedSections s) (completedExercises s) /\
  ProgressBar.isVisited s x = true.
Proof.
  intros Hx s.
  assert (Hin : In x (visitedSections s)).
  { apply (run_all_visited acts initial); [intros y Hy; exact Hy|].
    now apply valid_section_In. }
  assert (Hi : Js.includes (visitedSections s) x = true) by now apply includes_In.
  assert (Hm : markVisited x s = s) by (unfold markVisited; now rewrite Hi).
  split; [exact Hm|]. split; [|exact Hi].
  unfold setCurrentSection. destruct (currentSection s =? x) eqn:E.
  - apply Z.eqb_eq in E. destruct s; simpl in *. now subst.
  - unfold markVisited. simpl. now rewrite Hi.
Qed.

Lemma every_section_stays_visited_witness :
  let s := run [MarkExerciseComplete 4; SetCurrentSection 7] initial in
  markVisited 3 s = s /\
  setCurrentSection 3 s = mkProgress 3 (visitedSections s) (completedExercises s) /\
  ProgressBar.isVisited s 3 = true.
Proof.
  apply (every_section_stays_visited [MarkExerciseComplete 4; SetCurrentSection 7] 3).
  unfold valid_section. lia.
Defined.

(** X4. The completion figure of the progress bar is ten times the
    number of completed exercises and never leaves 0..100, in every
    state reached by calls with Section ids. *)
Theorem completion_is_a_percentage (acts : list action) :
  Forall well_typed acts ->
  let s := run acts initial in
  ProgressBar.completion s = 10 * Z.of_nat (List.length (completedExercises s)) /\
  0 <= ProgressBar.completion s <= 100.
Proof.
  intros Ha s.
  assert (Hv : valid_state s).
  { apply run_valid; [exact Ha|].
    unfold valid_state, valid_section. simpl.
    repeat split; try lia; repeat constructor; lia. }
  destruct Hv as (_ & _ & Hc).
  assert (Hn : NoDup (completedExercises s)).
  { apply strict_NoDup.
    apply (run_sorted acts initial). split; [apply initial_visited_sorted | constructor]. }
  assert (Hl : (List.length (completedExercises s) <= 10)%nat).
  { change 10%nat with (List.length SECTIONS).
    apply NoDup_incl_length; [exact Hn|].
    intros y Hy. apply valid_section_In.
    rewrite Forall_forall in Hc. auto. }
  unfold ProgressBar.completion. simpl (List.length SECTIONS).
  set (n := Z.of_nat (List.length (completedExercises s))) in *.
  assert (0 <= n <= 10) by lia.
  assert (E : (2 * (n * 100) + Z.of_nat 10) / (2 * Z.of_nat 10) = 10 * n).
  { change (Z.of_nat 10) with 10.
    replace (2 * (n * 100) + 10) with (10 + (10 * n) * 20) by lia.
    rewrite Z.div_add by lia. reflexivity. }
  rewrite E. lia.
Qed.

Lemma completion_is_a_percentage_witness :
  let s := run [MarkExerciseComplete 4; MarkExerciseComplete 1;
                MarkExerciseComplete 4] initial in
  ProgressBar.completion s = 10 * Z.of_nat (List.length (completedExercises s)) /\
  0 <= ProgressBar.completion s <= 100.
Proof.
  apply (completion_is_a_percentage
           [MarkExerciseComplete 4; MarkExerciseComplete 1; MarkExerciseComplete 4]).
  repeat constructor; simpl; unfold valid_section; lia.
Defined.

(** *** The scroll tracker *)

Lemma scan_none page ids s :
  (forall j, In j ids -> page j <> Some true) -> ScrollTracker.scan page ids s = s.
Proof.
  induction ids as [|j ids IH]; intros H; simpl; [reflexivity|].
  destruct (page j) as [[|]|] eqn:E.
  - exfalso. apply (H j); [now left | exact E].
  - apply IH. intros k Hk. apply H. now right.
  - apply IH. intros k Hk. apply H. now right.
Qed.

Lemma scan_first page before id after s :
  (forall j, In j before -> page j <> Some true) ->
  page id = Some true ->
  ScrollTracker.scan page (before ++ id :: after) s = setCurrentSection id s.
Proof.
  induction before as [|j before IH]; intros H Hid; simpl.
  - now rewrite Hid.
  - destruct (page j) as [[|]|] eqn:E.
    + exfalso. apply (H j); [now left | exact E].
    + apply IH; [|exact Hid]. intros k Hk. apply H. now right.
    + apply IH; [|exact Hid]. intros k Hk. apply H. now right.
Qed.

(** X5. [updateCurrentSection] makes current the last section of the
    page that the pivot has reached: the section with the greatest id
    among those whose element exists and lies at or above the pivot.
    When no section is reached the store is left as it is. *)
Theorem updateCurrentSection_picks_last_reached
        (page : ScrollTracker.Page) (s : ProgressState) :
  ((forall j, In j SECTIONS -> page j <> Some true) ->
   ScrollTracker.updateCurrentSection page s = s) /\
  (forall id,
     In id SECTIONS -> page id = Some true ->
     (forall j, In j SECTIONS -> id < j -> page j <> Some true) ->
     ScrollTracker.updateCurrentSection page s = setCurrentSection id s).
Proof.
  split.
  - intros H. apply scan_none. intros j Hj. apply H. now apply in_rev.
  - intros id Hin Hid Hlast.
    unfold ScrollTracker.updateCurrentSection.
    assert (Hsplit : exists before after,
               rev SECTIONS = before ++ id :: after /\
               forall j, In j before -> In j SECTIONS /\ id < j).
    { simpl in Hin.
      destruct Hin as [<-|[<-|[<-|[<-|[<-|[<-|[<-|[<-|[<-|[<-|[]]]]]]]]]]].
      - exists [9; 8; 7; 6; 5; 4; 3; 2; 1], []. split; [reflexivity|].
        simpl. intuition (subst; try lia; auto 12).
      - exists [9; 8; 7; 6; 5; 4; 3; 2], [0]. split; [reflexivity|].
        simpl. intuition (subst; try lia; auto 12).
      - exists [9; 8; 7; 6; 5; 4; 3], [1; 0]. split; [reflexivity|].
        simpl. intuition (subst; try lia; auto 12).
      - exists [9; 8; 7; 6; 5; 4], [2; 1; 0]. split; [reflexivity|].
        simpl. intuition (subst; try lia; auto 12).
      - exists [9; 8; 7; 6; 5], [3; 2; 1; 0]. split; [reflexivity|].
        simpl. intuition (subst; try lia; auto 12).
      - exists [9; 8; 7; 6], [4; 3; 2; 1; 0]. split; [reflexivity|].
        simpl. intuition (subst; try lia; auto 12).
      - exists [9; 8; 7], [5; 4; 3; 2; 1; 0]. split; [reflexivity|].
        simpl. intuition (subst; try lia; auto 12).
      - exists [9; 8], [6; 5; 4; 3; 2; 1; 0]. split; [reflexivity|].
        simpl. intuition (subst; try lia; auto 12).
      - exists [9], [7; 6; 5; 4; 3; 2; 1; 0]. split; [reflexivity|].
        simpl. intuition (subst; try lia; auto 12).
      - exists [], [8; 7; 6; 5; 4; 3; 2; 1; 0]. split; [reflexivity|].
        simpl. intuition. }
    destruct Hsplit as (before & after & E & Hb).
    rewrite E. apply scan_first; [|exact Hid].
    intros j Hj. destruct (Hb j Hj). now apply Hlast.
Qed.

Lemma updateCurrentSection_picks_last_reached_witness :
  let page := fun id : SectionId =>
                if id <=? 3 then Some true else if id =? 5 then None else Some false in
  ScrollTracker.updateCurrentSection page initial = setCurrentSection 3 initial.
Proof.
  refine (proj2 (updateCurrentSection_picks_last_reached _ initial) 3 _ eq_refl _).
  - simpl. auto.
  - intros j Hj Hlt. simpl in Hj.
    destruct Hj as [<-|[<-|[<-|[<-|[<-|[<-|[<-|[<-|[<-|[<-|[]]]]]]]]]]];
      try lia; simpl; discriminate.
Defined.
End ProgressStoreReach.

(** ** The control-plane journey, continued *)

Section JourneyMore.
Import Journey.

(** One turn of the loop of [runAll]: two timers later the loop is at
    its head again, one step further. *)
Lemma runAll_turn (w : W) (c : Z) :
  Loop.queue w = [] ->
  isMounted (Loop.comp w) = true ->
  runAllRef (Loop.comp w) = true ->
  c < STEPS_length - 1 ->
  exists w2 : W,
    Loop.advance run 2 (runAll_loop c w) = runAll_loop (c + 1) w2 /\
    Loop.queue w2 = [] /\
    isMounted (Loop.comp w2) = true /\
    runAllRef (Loop.comp w2) = true /\
    isRunningAll (Loop.comp w2) = isRunningAll (Loop.comp w) /\
    activeIndex (Loop.comp w2) = c + 1 /\
    Loop.clock w2 = Loop.clock w + 1480.
Proof.
  intros Hq Hm Hr Hc.
  unfold runAll_loop at 1.
  replace (c <? STEPS_length - 1) with true by (symmetry; apply Z.ltb_lt; lia).
  rewrite Hr. cbn [andb].
  unfold later, setTraversingIndex, Loop.setTimeout, Loop.with_comp. cbn.
  rewrite Hq. cbn. unfold Loop.fire. cbn. rewrite Hr, Hm. cbn.
  repeat (rewrite ?Nat.eqb_refl; cbn).
  eexists. split; [reflexivity|]. cbn.
  repeat split; try reflexivity.
  - now rewrite Nat.eqb_refl.
  - lia.
Qed.

Lemma runAll_loop_runs (m : nat) : forall (w : W) (c : Z),
  Loop.queue w = [] ->
  isMounted (Loop.comp w) = true ->
  runAllRef (Loop.comp w) = true ->
  activeIndex (Loop.comp w) = c ->
  c + Z.of_nat m = STEPS_length - 1 ->
  (forall k, (k <= m)%nat ->
     activeIndex (Loop.comp (Loop.advance run (2 * k) (runAll_loop c w)))
     = c + Z.of_nat k) /\
  let w' := Loop.advance run (2 * m) (runAll_loop c w) in
  isRunningAll (Loop.comp w') = false /\
  runAllRef (Loop.comp w') = false /\
  Loop.queue w' = [] /\
  Loop.clock w' = Loop.clock w + 1480 * Z.of_nat m.
Proof.
  induction m as [|m IH]; intros w c Hq Hm Hr Ha Hc.
  - assert (E : runAll_loop c w = runAll_end w).
    { unfold runAll_loop.
      replace (c <? STEPS_length - 1) with false
        by (symmetry; apply Z.ltb_ge; lia).
      reflexivity. }
    rewrite E. split.
    + intros k Hk. replace k with O by lia. simpl. lia.
    + simpl. repeat split; [exact Hq | lia].
  - destruct (runAll_turn w c Hq Hm Hr ltac:(lia))
      as (w2 & E2 & Hq2 & Hm2 & Hr2 & _ & Ha2 & Ht2).
    destruct (IH w2 (c + 1) Hq2 Hm2 Hr2 Ha2 ltac:(lia)) as [Hk Hend].
    split.
    + intros k Hk'. destruct k as [|k].
      * simpl. unfold runAll_loop.
        replace (c <? STEPS_length - 1) with true
          by (symmetry; apply Z.ltb_lt; lia).
        rewrite Hr. simpl. lia.
      * replace (2 * S k)%nat with (2 + 2 * k)%nat by lia.
        rewrite advance_add, E2. rewrite Hk by lia. lia.
    + replace (2 * S m)%nat with (2 + 2 * m)%nat by lia.
      rewrite advance_add, E2.
      destruct Hend as (H1 & H2 & H3 & H4).
      repeat split; try assumption. rewrite H4, Ht2. lia.
Qed.

(** X6. Run All, started at rest on step [a], takes the cursor through
    every following step in order, one step for every two timers (the
    480 ms traversal and the 1000 ms pause), and stops on the last step
    with the running flags cleared and nothing pending,
    1480 ms per step after the click. *)
Theorem runAll_reaches_the_last_step (w : W) :
  Loop.queue w = [] ->
  isMounted (Loop.comp w) = true ->
  isRunningAll (Loop.comp w) = false ->
  0 <= activeIndex (Loop.comp w) <= STEPS_length - 1 ->
  let a := activeIndex (Loop.comp w) in
  let m := Z.to_nat (STEPS_length - 1 - a) in
  (forall k, (k <= m)%nat ->
     activeIndex (Loop.comp (Loop.advance run (2 * k) (runAll w))) = a + Z.of_nat k) /\
  let w' := Loop.advance run (2 * m) (runAll w) in
  activeIndex (Loop.comp w') = STEPS_length - 1 /\
  isRunningAll (Loop.comp w') = false /\
  runAllRef (Loop.comp w') = false /\
  Loop.queue w' = [] /\
  Loop.clock w' = Loop.clock w + 1480 * (STEPS_length - 1 - a).
Proof.
  intros Hq Hm Hn Ha a m.
  unfold runAll. rewrite Hn.
  change (activeIndex (Loop.comp (setIsRunningAll true (setRunAllRef true w))))
    with a.
  destruct (runAll_loop_runs m
              (setIsRunningAll true (setRunAllRef true w)) a)
    as [Hk Hend]; try reflexivity; try assumption.
  { subst m a. lia. }
  split; [exact Hk|].
  cbv zeta in Hend. destruct Hend as (H1 & H2 & H3 & H4).
  cbv zeta.
  split; [rewrite Hk by lia; subst m a; lia|].
  repeat split; try assumption.
  rewrite H4.
  change (Loop.clock (setIsRunningAll true (setRunAllRef true w)))
    with (Loop.clock w).
  subst m a. rewrite Z2Nat.id by lia. reflexivity.
Qed.

Lemma runAll_reaches_the_last_step_witness :
  let w' := Loop.advance run 10 (runAll (Loop.boot initial)) in
  activeIndex (Loop.comp w') = STEPS_length - 1 /\
  isRunningAll (Loop.comp w') = false /\
  runAllRef (Loop.comp w') = false /\
  Loop.queue w' = [] /\
  Loop.clock w' = 0 + 1480 * (STEPS_length - 1 - 0).
Proof.
  refine (proj2 (runAll_reaches_the_last_step (Loop.boot initial)
                   eq_refl eq_refl eq_refl _)).
  pose proof STEPS_length_6. simpl. lia.
Defined.

(** X7. Reset brings the journey back to its start from wherever it
    is: cursor on step 0, no connector lit, both running flags off and
    no timer left, so that it also stays there. *)
Theorem handleReset_restores_the_start (w : W) :
  reachable w ->
  Loop.comp (handleReset w) = mkState 0 None false false [] (isMounted (Loop.comp w)) /\
  Loop.queue (handleReset w) = [] /\
  forall n until,
    Loop.comp (Loop.elapse run n until (handleReset w)) = Loop.comp (handleReset w).
Proof.
  intros Hr.
  assert (Hq : Loop.queue (handleReset w) = []).
  { unfold handleReset. apply journey_clearTimeouts_queue.
    generalize (journey_reachable_tracked w Hr).
    apply journey_tracked_frame; reflexivity. }
  split; [|split; [exact Hq|]].
  - unfold handleReset, clearTimeouts. simpl. rewrite clearEach_comp. reflexivity.
  - intros n until. now apply elapse_quiet.
Qed.

Lemma handleReset_restores_the_start_witness :
  Loop.comp (handleReset (runAll (Loop.boot initial)))
  = mkState 0 None false false [] true.
Proof.
  refine (proj1 (handleReset_restores_the_start (runAll (Loop.boot initial)) _)).
  apply (reach_step (Loop.boot initial)); [apply reach_boot|].
  apply step_runAll. reflexivity.
Defined.
End JourneyMore.

(** ** The NetworkPolicy simulator, continued *)

Section NetworkPolicyMore.
Import NetworkPolicy.

Lemma toggles_frame k (w : W) :
  let w' := Nat.iter k togglePolicy w in
  Loop.queue w' = Loop.queue w /\
  Loop.clock w' = Loop.clock w /\
  isMounted (Loop.comp w') = isMounted (Loop.comp w) /\
  tests (Loop.comp w') = tests (Loop.comp w) /\
  testId (Loop.comp w') = testId (Loop.comp w) /\
  timeoutIds (Loop.comp w') = timeoutIds (Loop.comp w).
Proof.
  induction k as [|k IH]; simpl; [repeat split|].
  destruct IH as (H1 & H2 & H3 & H4 & H5 & H6).
  simpl in *. repeat split; assumption.
Qed.

(** X8. The verdict of a traffic test is fixed when the button is
    clicked: sent at rest between two different pods, the test ends
    when its timer runs, with the verdict of the policy as it was at
    the click, however often the policy is toggled while the packet is
    in flight.  The test is put first in the history under a new id,
    and the simulator is at rest again. *)
Theorem verdict_is_fixed_at_the_click (w : W) (from to : string) (toggles : nat) :
  Loop.queue w = [] ->
  isMounted (Loop.comp w) = true ->
  animating (Loop.comp w) = false ->
  from <> to ->
  let verdict := allowed (policyActive (Loop.comp w)) from to in
  let w' := Loop.advance run 1 (Nat.iter toggles togglePolicy (sendTraffic from to w)) in
  lastResult (Loop.comp w') = Some (mkLast verdict from to) /\
  tests (Loop.comp w')
    = Js.slice0 8 (mkTest (testId (Loop.comp w) + 1) from to verdict
                     :: tests (Loop.comp w)) /\
  animating (Loop.comp w') = false /\
  sendingFrom (Loop.comp w') = None /\ sendingTo (Loop.comp w') = None /\
  Loop.queue w' = [] /\
  Loop.clock w' = Loop.clock w + 800.
Proof.
  intros Hq Hm Ha Hne verdict w'. subst w' verdict.
  destruct (toggles_frame toggles (sendTraffic from to w))
    as (T1 & T2 & T3 & T4 & T5 & T6).
  set (wt := Nat.iter toggles togglePolicy (sendTraffic from to w)) in *.
  assert (Es : sendTraffic from to w
               = Loop.with_comp (fun s =>
                   mkState (policyActive s) (sendingFrom s) (sendingTo s) (animating s)
                           (tests s) (lastResult s) (timeoutIds s ++ [Loop.fresh w])
                           (isMounted s) (testId s))
                   (fst (Loop.setTimeout (Deliver from to (policyActive (Loop.comp w))) 800
                      (Loop.with_comp (fun s =>
                         mkState (policyActive s) (Some from) (Some to) true (tests s)
                                 None (timeoutIds s) (isMounted s) (testId s)) w)))).
  { unfold sendTraffic. rewrite Ha.
    destruct (String.eqb_spec from to); [contradiction|]. reflexivity. }
  rewrite Es in T1, T2, T3, T4, T5. cbn in T1, T2, T3, T4, T5.
  rewrite Hq in T1. cbn in T1.
  unfold Loop.advance. rewrite T1. cbn [Loop.earliest].
  unfold Loop.fire, Loop.dequeue. rewrite T1, T2. cbn.
  rewrite T3, Hm. cbn. rewrite Nat.eqb_refl. cbn.
  rewrite T4, T5.
  repeat split; try reflexivity. lia.
Qed.

Lemma verdict_is_fixed_at_the_click_witness :
  let w' := Loop.advance run 1
              (Nat.iter 1 togglePolicy
                 (sendTraffic "frontend" "database" (Loop.boot initial))) in
  lastResult (Loop.comp w') = Some (mkLast true "frontend" "database").
Proof.
  refine (proj1 (verdict_is_fixed_at_the_click (Loop.boot initial)
                   "frontend" "database" 1 eq_refl eq_refl eq_refl _)).
  discriminate.
Defined.

Lemma netpol_unmount_comp (w : W) :
  isMounted (Loop.comp (unmount w)) = false /\
  tests (Loop.comp (unmount w)) = tests (Loop.comp w).
Proof.
  unfold unmount, Loop.with_comp. cbn [Loop.comp].
  rewrite clearEach_comp. split; reflexivity.
Qed.

Lemma one_in_flight_step (w w' : W) :
  step w w' -> one_in_flight w -> one_in_flight w'.
Proof.
  intros Hs H. destruct Hs as [from to w Hm|w Hm|w|t w Ht|t w Ht].
  - specialize (H Hm). unfold sendTraffic.
    destruct (animating (Loop.comp w)) eqn:Ea; cbn [orb];
      [intros _; rewrite Ea; exact H|].
    destruct (from =? to)%string; [intros _; rewrite Ea; exact H|].
    destruct H as [[Hc _]|[_ Hq]]; [discriminate|].
    intros _. left. cbn. rewrite Hq. split; [reflexivity|]. eexists. reflexivity.
  - specialize (H Hm). intros _. exact H.
  - intros Hm'. rewrite (proj1 (netpol_unmount_comp w)) in Hm'. discriminate.
  - unfold Loop.fire. destruct (Loop.callback t) as [from to p]. cbn.
    destruct (isMounted (Loop.comp w)) eqn:Hm; cbn.
    + intros _. right. split; [reflexivity|].
      destruct (H Hm) as [[_ [u Hq]]|[_ Hq]].
      * unfold Loop.with_comp, Loop.dequeue. cbn [Loop.queue].
        rewrite Hq in Ht |- *. cbn in Ht. injection Ht as <-.
        cbn [filter]. rewrite Nat.eqb_refl. reflexivity.
      * rewrite Hq in Ht. discriminate.
    + intros Hm'. cbn in Hm'. congruence.
  - intros Hm. exact (H Hm).
Qed.

Lemma tests_bounded_step (w w' : W) :
  step w w' ->
  (List.length (tests (Loop.comp w)) <= 8)%nat ->
  (List.length (tests (Loop.comp w')) <= 8)%nat.
Proof.
  intros Hs H. destruct Hs as [from to w Hm|w Hm|w|t w Ht|t w Ht].
  - unfold sendTraffic. destruct (_ || _); exact H.
  - exact H.
  - rewrite (proj2 (netpol_unmount_comp w)). exact H.
  - unfold Loop.fire. destruct (Loop.callback t) as [from to p]. unfold run.
    destruct (negb (isMounted (Loop.comp (Loop.dequeue t w)))); [exact H|].
    unfold Loop.with_comp. cbn [Loop.comp tests]. apply firstn_le_length.
  - exact H.
Qed.

(** X9. At most one traffic test is in flight: in every state the
    mounted simulator reaches, either [animating] is set and exactly
    one timer is pending, or [animating] is clear and none is; and the
    history never holds more than eight tests. *)
Theorem one_test_in_flight_and_bounded_history (w : W) :
  reachable w ->
  one_in_flight w /\ (List.length (tests (Loop.comp w)) <= 8)%nat.
Proof.
  induction 1 as [|w w' _ [IH1 IH2] Hs].
  - split; [intros _; right; split; reflexivity | simpl; lia].
  - split; [exact (one_in_flight_step _ _ Hs IH1)
           | exact (tests_bounded_step _ _ Hs IH2)].
Qed.

Lemma one_test_in_flight_and_bounded_history_witness :
  one_in_flight (sendTraffic "api" "database" (Loop.boot initial)).
Proof.
  refine (proj1 (one_test_in_flight_and_bounded_history _ _)).
  apply (reach_step (Loop.boot initial)); [apply reach_boot|].
  apply step_send. reflexivity.
Defined.
End NetworkPolicyMore.

(** ** The scheduler mock, continued *)

Section SchedulerMore.
Import Scheduler.

Lemma pick_cons x cs :
  pick (x :: cs) =
  match pick cs with
  | Some h => if mostAvailableFirst x h <=? 0 then Some x else Some h
  | None => Some x
  end.
Proof.
  unfold pick. simpl.
  destruct (Js.sort mostAvailableFirst cs) as [|h r]; simpl; [reflexivity|].
  destruct (mostAvailableFirst x h <=? 0); reflexivity.
Qed.

Lemma pick_none cs : pick cs = None -> cs = [].
Proof.
  destruct cs as [|x cs]; [reflexivity|].
  destruct (pick_some x cs) as [b ->]. discriminate.
Qed.

(** X10. Among fitting nodes that tie on free CPU plus free memory the
    scheduler picks the one that comes first in the node table: every
    candidate before the pick has strictly less available, every
    candidate after it at most as much. *)
Theorem pick_is_the_first_of_the_best (cs : list Candidate) (best : Candidate) :
  pick cs = Some best ->
  exists before after,
    cs = before ++ best :: after /\
    (forall c, In c before -> available c < available best) /\
    (forall c, In c after -> available c <= available best).
Proof.
  revert best. induction cs as [|x cs IH]; intros best H; [discriminate|].
  rewrite pick_cons in H.
  destruct (pick cs) as [h|] eqn:E.
  - destruct (IH h eq_refl) as (b & a & Ecs & Hb & Ha).
    destruct (mostAvailableFirst x h <=? 0) eqn:C; injection H as <-.
    + apply Z.leb_le, mostAvailableFirst_le in C. unfold most_available in C.
      exists [], cs. split; [reflexivity|]. split; [intros c []|].
      intros c Hc. rewrite Ecs in Hc. apply in_app_or in Hc.
      destruct Hc as [Hc|[<-|Hc]].
      * specialize (Hb c Hc). lia.
      * exact C.
      * specialize (Ha c Hc). lia.
    + apply Z.leb_gt in C. unfold mostAvailableFirst in C.
      exists (x :: b), a. split; [now rewrite Ecs|]. split; [|exact Ha].
      intros c [<-|Hc]; [unfold available; lia | auto].
  - injection H as <-. apply pick_none in E. subst cs.
    exists [], []. repeat split; intros c [].
Qed.

Lemma pick_is_the_first_of_the_best_witness :
  exists before after,
    candidates [mkNode "a" 4 8 1 3 None; mkNode "b" 5 7 2 2 None] 1 1
    = before ++ (mkNode "a" 4 8 1 3 None, getNodeFit 1 1 (mkNode "a" 4 8 1 3 None))
             :: after /\
    (forall c, In c before ->
       available c < available (mkNode "a" 4 8 1 3 None,
                                getNodeFit 1 1 (mkNode "a" 4 8 1 3 None))) /\
    (forall c, In c after ->
       available c <= available (mkNode "a" 4 8 1 3 None,
                                 getNodeFit 1 1 (mkNode "a" 4 8 1 3 None))).
Proof.
  apply (pick_is_the_first_of_the_best
           (candidates [mkNode "a" 4 8 1 3 None; mkNode "b" 5 7 2 2 None] 1 1)).
  reflexivity.
Defined.

(** X11. With the three nodes of the playground every request is
    answered by node-1 or by "pending": node-1, with 3 vCPU and 5 Gi
    free, takes every request of at most 3 vCPU and 5 Gi; node-2 fits
    only requests that node-1 fits better, and node-3 is tainted. *)
Theorem playground_answers_node_1_or_pending (cpuReq memReq : Z) :
  decide nodes cpuReq memReq =
  if (cpuReq <=? 3) && (memReq <=? 5)
  then mkPlacement "node-1" "Best fit: 3 vCPU and 5 Gi available."
  else pending.
Proof.
  unfold decide, candidates, nodes, getNodeFit. cbn [map filter snd fits
    totalCpu usedCpu totalMemory usedMemory taints List.length].
  rewrite !Z.geb_leb.
  change (Z.of_nat 1 >? 0) with true. change (0 >? 0) with false.
  change (4 - 1) with 3. change (8 - 3) with 5. change (2 - 1) with 1.
  change (4 - 2) with 2. change (8 - 6) with 2. change (16 - 12) with 4.
  rewrite !andb_false_r. cbn [negb]. rewrite !andb_true_r.
  destruct (Z.leb_spec cpuReq 3), (Z.leb_spec memReq 5),
           (Z.leb_spec cpuReq 1), (Z.leb_spec memReq 2);
    try lia; reflexivity.
Qed.

Lemma schedulePod_queue table (w : W) :
  reachable table w ->
  isMounted (Loop.comp w) = true ->
  Loop.queue (schedulePod w)
  = [Loop.mkTimer (Loop.fresh w) (Loop.clock w + 1200)
       (Decide (cpuReq (Loop.comp w)) (memReq (Loop.comp w)))] /\
  Loop.comp (schedulePod w)
  = mkState (cpuReq (Loop.comp w)) (memReq (Loop.comp w)) None true
            (Some (Loop.fresh w)) true /\
  Loop.clock (schedulePod w) = Loop.clock w.
Proof.
  intros Hr Hm.
  pose proof (scheduler_clear_stored w (scheduler_reachable_tracked table w Hr)) as Hq.
  unfold schedulePod. cbn. rewrite Hm. cbn.
  destruct (timeoutRef (Loop.comp w)) as [h|]; cbn in *; rewrite Hq; cbn;
    rewrite ?Hm; repeat split; reflexivity.
Qed.

(** X12. The scheduler decides for the request as it was when the
    button was clicked: moving the sliders while it evaluates cancels
    nothing, and the decision then shown, reason included, is the one
    for the request at the click, not for the values the sliders show. *)
Theorem decision_is_for_the_request_at_the_click
        (table : list Node) (w : W) (cpu' mem' : Z) :
  reachable table w ->
  isMounted (Loop.comp w) = true ->
  let w' := Loop.advance (run table) 1
              (changeMem mem' (changeCpu cpu' (schedulePod w))) in
  scheduled (Loop.comp w')
    = Some (decide table (cpuReq (Loop.comp w)) (memReq (Loop.comp w))) /\
  cpuReq (Loop.comp w') = cpu' /\ memReq (Loop.comp w') = mem' /\
  scheduling (Loop.comp w') = false /\
  Loop.queue w' = [].
Proof.
  intros Hr Hm w'. subst w'.
  destruct (schedulePod_queue table w Hr Hm) as (Hq & Hc & _).
  destruct (schedulePod w) as [c f q s]. cbn in Hq, Hc. subst q s.
  cbn -[decide]. rewrite Nat.eqb_refl. repeat split; reflexivity.
Qed.

Lemma decision_is_for_the_request_at_the_click_witness :
  let w' := Loop.advance (run nodes) 1
              (changeMem 16 (changeCpu 8 (schedulePod (Loop.boot initial)))) in
  scheduled (Loop.comp w') = Some (decide nodes 1 2) /\
  cpuReq (Loop.comp w') = 8 /\ memReq (Loop.comp w') = 16 /\
  scheduling (Loop.comp w') = false /\
  Loop.queue w' = [].
Proof.
  apply (decision_is_for_the_request_at_the_click nodes (Loop.boot initial) 8 16).
  - apply reach_boot.
  - reflexivity.
Defined.
End SchedulerMore.

(** ** The RBAC playground, continued *)

Section ConfigAccessMore.
Import ConfigAccess.

Lemma includes_str_In l x : Js.includes_str l x = true <-> In x l.
Proof.
  unfold Js.includes_str. rewrite existsb_exists. split.
  - intros [y [Hy E]]. apply String.eqb_eq in E. now subst.
  - intros H. exists x. split; [exact H | apply String.eqb_refl].
Qed.

Lemma grants_verbs r action resource s :
  grants r action resource s <-> In action (verbs r).
Proof.
  unfold grants, verdict, tryAccess, setRole. cbn [role attempts attemptId].
  rewrite <- includes_str_In.
  destruct (Js.includes_str (verbs r) action); cbn; split.
  - reflexivity.
  - intros _. eexists. reflexivity.
  - intros [why H]. discriminate.
  - discriminate.
Qed.

(** X13. A role is granted exactly the verbs of its row in the
    permission table, whatever the resource and the history.  The
    roles are nested: what a viewer is granted an editor is granted,
    and what an editor is granted an admin is granted; the three read
    verbs are granted to every role, and "delete" to the admin only. *)
Theorem roles_are_nested (action resource : string) (s : state) :
  (forall r, grants r action resource s <-> In action (verbs r)) /\
  (grants viewer action resource s -> grants editor action resource s) /\
  (grants editor action resource s -> grants admin action resource s) /\
  (forall r, In action ["get"; "list"; "watch"]%string -> grants r action resource s) /\
  (forall r, grants r "delete" resource s <-> r = admin).
Proof.
  split; [intros r; apply grants_verbs|].
  split; [rewrite !grants_verbs; simpl; tauto|].
  split; [rewrite !grants_verbs; simpl; tauto|].
  split.
  - intros r H. apply grants_verbs. destruct r; simpl in *; tauto.
  - intros r. rewrite grants_verbs.
    destruct r; simpl; split; intros H.
    all: try reflexivity; try discriminate H.
    all: try (repeat (destruct H as [H|H]; [discriminate H|]); destruct H).
    all: auto 10.
Qed.

Lemma roles_are_nested_witness :
  grants editor "watch" "secret" (mounted 0).
Proof.
  apply (proj1 (proj2 (roles_are_nested "watch" "secret" (mounted 0)))).
  apply grants_verbs. simpl. auto.
Defined.

Lemma nth_error_firstn_Some {A} n : forall (l : list A) k a,
  nth_error (firstn n l) k = Some a -> nth_error l k = Some a.
Proof.
  induction n as [|n IH]; intros l k a H.
  - destruct k; discriminate.
  - destruct l as [|x l]; [destruct k; discriminate|].
    destruct k as [|k]; simpl in *; [exact H | now apply IH].
Qed.

Lemma numbered_step a s :
  numbered_from_counter s -> numbered_from_counter (apply a s).
Proof.
  unfold numbered_from_counter. intros H. destruct a as [action resource|r].
  - cbn [apply]. unfold tryAccess. cbn [attempts attemptId]. intros k a Hk.
    apply nth_error_firstn_Some in Hk. destruct k as [|k]; cbn in Hk.
    + injection Hk as <-. cbn. lia.
    + specialize (H k a Hk). rewrite H. lia.
  - exact H.
Qed.

Lemma counter_step a s :
  attemptId (apply a s) = attemptId s + Z.of_nat (tries [a]) /\
  (List.length (attempts s) <= 6 -> List.length (attempts (apply a s)) <= 6)%nat.
Proof.
  destruct a as [action resource|r].
  - unfold apply, tryAccess. cbn [attemptId attempts tries].
    split; [lia|]. intros _. apply firstn_le_length.
  - cbn. split; [lia | auto].
Qed.

Lemma tries_app a acts : tries (a :: acts) = (tries [a] + tries acts)%nat.
Proof. destruct a; reflexivity. Qed.

Lemma run_numbered acts : forall s,
  numbered_from_counter s ->
  (List.length (attempts s) <= 6)%nat ->
  numbered_from_counter (run acts s) /\
  (List.length (attempts (run acts s)) <= 6)%nat /\
  attemptId (run acts s) = attemptId s + Z.of_nat (tries acts).
Proof.
  induction acts as [|a acts IH]; intros s Hn Hl.
  - simpl. repeat split; [exact Hn | exact Hl | lia].
  - cbn [run fold_left].
    destruct (counter_step a s) as [Hc Hl'].
    destruct (IH (apply a s) (numbered_step a s Hn) (Hl' Hl)) as (H1 & H2 & H3).
    unfold run in *. repeat split; [exact H1 | exact H2|].
    rewrite H3, Hc, (tries_app a acts). lia.
Qed.

(** X14. The attempts shown are the newest six at most, newest first,
    and they are numbered downwards from the module's counter, one by
    one: so their ids are all different.  The counter has advanced by
    one for every attempt made since the playground was mounted. *)
Theorem attempts_are_numbered (counter : Z) (acts : list action_of_user) :
  let s := run acts (mounted counter) in
  numbered_from_counter s /\
  (List.length (attempts s) <= 6)%nat /\
  attemptId s = counter + Z.of_nat (tries acts) /\
  NoDup (map id (attempts s)).
Proof.
  intros s. subst s.
  destruct (run_numbered acts (mounted counter)) as (Hn & Hl & Hc).
  { intros k a H. destruct k; discriminate. }
  { simpl. lia. }
  repeat split; try assumption.
  apply NoDup_nth_error. intros i j Hi E.
  rewrite length_map in Hi.
  rewrite !nth_error_map in E.
  destruct (nth_error (attempts (run acts (mounted counter))) i) as [a|] eqn:Ei.
  - destruct (nth_error (attempts (run acts (mounted counter))) j) as [b|] eqn:Ej;
      [|discriminate E].
    cbn in E. injection E as E.
    rewrite (Hn i a Ei), (Hn j b Ej) in E. lia.
  - apply nth_error_None in Ei. lia.
Qed.
End ConfigAccessMore.

(** ** The rollout simulator, continued *)

Section RolloutMore.
Import Rollout.
Variable random : nat -> string.
Variable date_now : Z -> string.
Variable time_text : Z -> string.
Variable deleteDelay : Z.

Local Abbreviation run := (Rollout.run random date_now time_text deleteDelay).
Local Abbreviation reachable := (Rollout.reachable random date_now time_text deleteDelay).
Local Abbreviation startRollout := (Rollout.startRollout random date_now time_text).
Local Abbreviation startRollback := (Rollout.startRollback random date_now time_text).


(** Replace a closed term by its value, one comparison of a name with
    itself at a time. *)
Local Ltac settle t :=
  let x := fresh "x" in
  let E := fresh "E" in
  remember t as x eqn:E;
  vm_compute in E;
  repeat (rewrite !String.eqb_refl in E; vm_compute in E);
  subst x.

Local Ltac one_timer :=
  match goal with
  | |- context [Loop.advance ?r 1 ?w] => settle (Loop.advance r 1 w)
  end.

(** X15. A rollback after a completed rollout undoes it: once its
    seventeen timers have run, the four pods are all v1 and Running,
    the phase is rolled-back, progress is back at 0, the log holds four
    creations and four terminations in turn, and nothing is pending. *)
Theorem rollback_restores_v1 :
  deleteDelay = 979 \/ deleteDelay = 980 ->
  let done := Loop.advance run 17 (startRollout (mount random)) in
  let w := Loop.advance run 17 (startRollback done) in
  phase (Loop.comp done) = complete /\
  Loop.queue w = [] /\
  map (fun p => (version p, status p)) (pods (Loop.comp w))
    = [(v1, Running); (v1, Running); (v1, Running); (v1, Running)] /\
  phase (Loop.comp w) = rolled_back /\
  progress (Loop.comp w) = 0 /\
  events (log (Loop.comp w))
    = [Create; Terminate; Create; Terminate; Create; Terminate; Create; Terminate].
Proof.
  intros Hd done w. subst w done.
  destruct Hd as [-> | ->].
  all: match goal with
       | |- context [Loop.advance ?r 17 (Rollout.startRollout ?a ?b ?c ?m)] =>
           settle (Loop.advance r 17 (Rollout.startRollout a b c m))
       end.
  all: match goal with
       | |- context [Rollout.startRollback ?a ?b ?c ?d] =>
           settle (Rollout.startRollback a b c d)
       end.
  all: repeat (rewrite advance_succ; one_timer).
  all: simpl; repeat split.
Qed.



(** X17. Reset puts the deployment back from wherever the simulator
    is: four v1 pods, all Running, phase idle, progress 0, an empty
    log, and no timer left, so that nothing changes afterwards. *)
Theorem reset_restores_the_deployment (w : W) :
  reachable w ->
  let w' := reset random w in
  map (fun p => (id p, version p, status p)) (pods (Loop.comp w'))
    = [("v1-1"%string, v1, Running); ("v1-2"%string, v1, Running);
       ("v1-3"%string, v1, Running); ("v1-4"%string, v1, Running)] /\
  phase (Loop.comp w') = idle /\
  progress (Loop.comp w') = 0 /\
  log (Loop.comp w') = [] /\
  Loop.queue w' = [] /\
  forall n until, Loop.comp (Loop.elapse run n until w') = Loop.comp w'.
Proof.
  intros Hr w'. subst w'.
  assert (Hq : Loop.queue (reset random w) = []).
  { unfold reset. simpl. apply clearEach_all.
    now apply (rollout_reachable_tracked random date_now time_text deleteDelay). }
  repeat split; try reflexivity; try exact Hq.
  intros n until. now apply elapse_quiet.
Qed.
End RolloutMore.

Lemma rollback_restores_v1_witness :
  let random := fun _ : nat => "k8s0x"%string in
  let run := Rollout.run random Js.string_of_Z Js.string_of_Z 980 in
  let done := Loop.advance run 17
                (Rollout.startRollout random Js.string_of_Z Js.string_of_Z
                   (Rollout.mount random)) in
  let w := Loop.advance run 17
             (Rollout.startRollback random Js.string_of_Z Js.string_of_Z done) in
  Rollout.phase (Loop.comp done) = Rollout.complete /\
  Loop.queue w = [] /\
  map (fun p => (Rollout.version p, Rollout.status p)) (Rollout.pods (Loop.comp w))
    = [(Rollout.v1, Rollout.Running); (Rollout.v1, Rollout.Running);
       (Rollout.v1, Rollout.Running); (Rollout.v1, Rollout.Running)] /\
  Rollout.phase (Loop.comp w) = Rollout.rolled_back /\
  Rollout.progress (Loop.comp w) = 0 /\
  Rollout.events (Rollout.log (Loop.comp w))
    = [Rollout.Create; Rollout.Terminate; Rollout.Create; Rollout.Terminate;
       Rollout.Create; Rollout.Terminate; Rollout.Create; Rollout.Terminate].
Proof.
  apply (rollback_restores_v1 (fun _ : nat => "k8s0x"%string)
           Js.string_of_Z Js.string_of_Z 980).
  right. reflexivity.
Defined.


(** Reset in the middle of a rollout: the first new pod is being
    created beside the four old ones and four timers are pending. *)
Lemma reset_restores_the_deployment_witness :
  let random := fun _ : nat => "k8s0x"%string in
  let run := Rollout.run random Js.string_of_Z Js.string_of_Z 979 in
  let started :=
    Rollout.startRollout random Js.string_of_Z Js.string_of_Z (Rollout.mount random) in
  let w := Loop.fire run (Loop.mkTimer 1%nat 0 (Rollout.PhaseA Rollout.Forward 0))
             started in
  let w' := Rollout.reset random w in
  (List.length (Rollout.pods (Loop.comp w)) = 5%nat /\
   List.length (Loop.queue w) = 4%nat /\
   List.length (Rollout.log (Loop.comp w)) = 3%nat /\
   Rollout.phase (Loop.comp w) = Rollout.rolling) /\
  map (fun p => (Rollout.id p, Rollout.version p, Rollout.status p))
      (Rollout.pods (Loop.comp w'))
    = [("v1-1"%string, Rollout.v1, Rollout.Running);
       ("v1-2"%string, Rollout.v1, Rollout.Running);
       ("v1-3"%string, Rollout.v1, Rollout.Running);
       ("v1-4"%string, Rollout.v1, Rollout.Running)] /\
  Rollout.phase (Loop.comp w') = Rollout.idle /\
  Rollout.progress (Loop.comp w') = 0 /\
  Rollout.log (Loop.comp w') = [] /\
  Loop.queue w' = [] /\
  forall n until, Loop.comp (Loop.elapse run n until w') = Loop.comp w'.
Proof.
  split; [repeat split|].
  apply (reset_restores_the_deployment
           (fun _ : nat => "k8s0x"%string) Js.string_of_Z Js.string_of_Z 979).
  eapply Rollout.reach_step;
    [|apply (Rollout.step_timer _ _ _ _
               (Loop.mkTimer 1%nat 0 (Rollout.PhaseA Rollout.Forward 0)));
      reflexivity].
  eapply Rollout.reach_step; [apply Rollout.reach_mount|].
  apply Rollout.step_startRollout.
Defined.

(** ** The autoscaler *)

Section HPAFacts.
Import HPA.

Lemma hpa_filter_same (h : nat) (q : list (Loop.timer Cb)) :
  (forall t, In t q -> Loop.handle t = h) ->
  filter (fun t => negb (Nat.eqb (Loop.handle t) h)) q = [].
Proof.
  induction q as [|t q IH]; intros H; simpl; [reflexivity|].
  rewrite (H t (or_introl eq_refl)), Nat.eqb_refl. simpl.
  apply IH. intros u Hu. apply H. now right.
Qed.

Lemma hpa_clear_queue (w : W) :
  one_pending w -> Loop.queue (clearEvaluationTimer w) = [].
Proof.
  intros H. unfold clearEvaluationTimer.
  destruct (evaluationTimer (Loop.comp w)) as [h|] eqn:E.
  - destruct (Nat.eqb h 0) eqn:E0.
    + apply Nat.eqb_eq in E0. subst h.
      destruct (Loop.queue w) as [|t q] eqn:Eq; [reflexivity|].
      destruct (H t) as (H1 & H2 & _); [rewrite Eq; now left|].
      rewrite E in H1. congruence.
    + simpl. apply hpa_filter_same. intros t Ht.
      destruct (H t Ht) as (H1 & _). rewrite E in H1. congruence.
  - destruct (Loop.queue w) as [|t q] eqn:Eq; [reflexivity|].
    destruct (H t) as (H1 & _); [rewrite Eq; now left|].
    rewrite E in H1. discriminate.
Qed.

Lemma hpa_clear_frame (w : W) :
  Loop.comp (clearEvaluationTimer w) = Loop.comp w /\
  Loop.fresh (clearEvaluationTimer w) = Loop.fresh w /\
  Loop.clock (clearEvaluationTimer w) = Loop.clock w.
Proof.
  unfold clearEvaluationTimer.
  destruct (evaluationTimer (Loop.comp w)) as [h|]; [|auto].
  destruct (Nat.eqb h 0); auto.
Qed.

Lemma clampCpu_bounds (v : Z) : CPU_FLOOR <= clampCpu v <= CPU_CEIL.
Proof. unfold clampCpu, CPU_FLOOR, CPU_CEIL. lia. Qed.

Lemma hpa_slice_le (e : HPAEvent) (l : list HPAEvent) :
  (List.length (Js.slice0 6 (e :: l)) <= 6)%nat.
Proof. unfold Js.slice0. apply firstn_le_length. Qed.

Lemma hpa_inv_boot : inv (Loop.boot initial).
Proof.
  unfold inv, one_pending, HPA_MIN, HPA_MAX, CPU_FLOOR, CPU_CEIL. simpl.
  repeat split; try lia. all: contradiction.
Qed.

Lemma hpa_inv_cpu (f : Z -> Z) (w : W) :
  (forall v, CPU_FLOOR <= f v <= CPU_CEIL) ->
  inv w -> inv (Loop.with_comp (setCpu f) w).
Proof.
  intros Hf (Hr & Hc & He & Hf' & Hp & Hq).
  unfold inv, one_pending. simpl. repeat split; auto; try apply Hf; try apply Hr.
  all: try (destruct (Hp t H) as (? & ? & ?); assumption).
Qed.

Lemma hpa_inv_evaluate (w : W) : inv w -> inv (evaluate w).
Proof.
  intros (Hr & Hc & He & Hf & Hp & Hq).
  unfold evaluate.
  pose proof (hpa_clear_queue (Loop.with_comp (setEvaluating true) w)) as Hcq.
  pose proof (hpa_clear_frame (Loop.with_comp (setEvaluating true) w)) as (F1 & F2 & F3).
  assert (Hp' : one_pending (Loop.with_comp (setEvaluating true) w)).
  { intros t Ht. apply (Hp t Ht). }
  specialize (Hcq Hp').
  unfold Loop.setTimeout. cbn [fst snd].
  unfold inv, one_pending. cbn [Loop.comp Loop.queue Loop.fresh Loop.with_comp].
  rewrite Hcq, F1, F2. cbn.
  repeat split; try apply Hr; try apply Hc; try assumption; try lia.
  all: intros; destruct H as [<- | []]; cbn; try reflexivity; try lia.
  now exists (cpu (Loop.comp w)).
Qed.

Lemma hpa_inv_unmount (w : W) : inv w -> inv (unmount w).
Proof.
  intros (Hr & Hc & He & Hf & Hp & Hq).
  unfold unmount.
  set (w1 := Loop.with_comp _ w).
  assert (Hp1 : one_pending w1) by (intros t Ht; apply (Hp t Ht)).
  pose proof (hpa_clear_queue w1 Hp1) as Hcq.
  pose proof (hpa_clear_frame w1) as (F1 & F2 & F3).
  assert (Hi : inv (clearEvaluationTimer w1)).
  { unfold inv, one_pending. rewrite Hcq, F1, F2. cbn.
    repeat split; try apply Hr; try apply Hc; try assumption; try lia.
    all: contradiction. }
  rewrite F1.
  destruct (evaluationTimer (Loop.comp w1)) as [h|]; [|exact Hi].
  destruct (Nat.eqb h 0); [exact Hi|].
  destruct Hi as (Hr' & Hc' & He' & Hf'' & Hp'' & Hq').
  unfold inv, one_pending. cbn [Loop.comp Loop.queue Loop.fresh Loop.with_comp].
  rewrite Hcq in *. cbn.
  repeat split; try apply Hr'; try apply Hc'; try assumption; try lia.
  all: contradiction.
Qed.

Lemma hpa_inv_fire (t : Loop.timer Cb) (w : W) :
  In t (Loop.queue w) -> inv w -> inv (Loop.fire run t w).
Proof.
  intros Ht (Hr & Hc & He & Hf & Hp & Hq).
  destruct (Hp t Ht) as (Ht1 & Ht2 & c & Ht3).
  assert (Hd : Loop.queue (Loop.dequeue t w) = []).
  { unfold Loop.dequeue. cbn. apply hpa_filter_same. intros u Hu.
    destruct (Hp u Hu) as (Hu1 & _). congruence. }
  unfold Loop.fire. rewrite Ht3.
  destruct w as [ck fr q s]. cbn in *.
  unfold Loop.dequeue in *. cbn in *. rewrite Hd.
  unfold run. cbn [Loop.comp].
  destruct (isMounted s); cbn [negb].
  2:{ unfold inv, one_pending. cbn. repeat split; try lia. all: contradiction. }
  unfold HPA_MIN, HPA_MAX, CPU_FLOOR, CPU_CEIL, TARGET_CPU in *.
  destruct (c >? 50) eqn:E1; destruct (replicas s <? 6) eqn:E2;
    destruct (c <? 30) eqn:E3; destruct (replicas s >? 1) eqn:E4;
    destruct (replicas s >=? 6) eqn:E5; destruct (replicas s <=? 1) eqn:E6;
    cbn [andb];
    unfold inv, one_pending, HPA_MIN, HPA_MAX; cbn -[clampCpu Js.slice0 Js.string_of_Z];
    (repeat split; try contradiction;
     try apply clampCpu_bounds; try apply hpa_slice_le; try apply Hc; try lia).
Qed.

Lemma hpa_inv_step (w w' : W) : step w w' -> inv w -> inv w'.
Proof.
  intros Hs Hi. destruct Hs.
  - apply hpa_inv_cpu; [intros; apply clampCpu_bounds | exact Hi].
  - apply hpa_inv_cpu; [intros; apply clampCpu_bounds | exact Hi].
  - now apply hpa_inv_evaluate.
  - now apply hpa_inv_unmount.
  - apply hpa_inv_fire; [|exact Hi]. now apply earliest_In.
  - exact Hi.
Qed.

Lemma hpa_reachable_inv (w : W) : reachable w -> inv w.
Proof.
  induction 1 as [|w w' _ IH Hs]; [apply hpa_inv_boot|].
  exact (hpa_inv_step _ _ Hs IH).
Qed.

(** X18. The autoscaler stays inside its limits whatever is clicked and
    whenever the timers run: between 1 and 6 replicas, CPU between 10
    and 100 percent, at most six events on display, and at most one
    evaluation pending. *)
Theorem autoscaler_stays_within_limits (w : W) :
  reachable w ->
  HPA_MIN <= replicas (Loop.comp w) <= HPA_MAX /\
  CPU_FLOOR <= cpu (Loop.comp w) <= CPU_CEIL /\
  (List.length (events (Loop.comp w)) <= 6)%nat /\
  (List.length (Loop.queue w) <= 1)%nat.
Proof.
  intros H. destruct (hpa_reachable_inv w H) as (Hr & Hc & He & _ & _ & Hq).
  auto.
Qed.

Lemma hpa_inv_round (w : W) : inv w -> inv (round w).
Proof.
  intros Hi. unfold round. cbn [Loop.advance].
  pose proof (hpa_inv_evaluate w Hi) as He.
  destruct (Loop.earliest (Loop.queue (evaluate w))) as [t|] eqn:E; [|exact He].
  apply hpa_inv_fire; [now apply earliest_In | exact He].
Qed.

(** One round of the component is one application of [outcome]. *)
Lemma hpa_round_spec (w : W) :
  inv w -> isMounted (Loop.comp w) = true ->
  isMounted (Loop.comp (round w)) = true /\
  (replicas (Loop.comp (round w)), cpu (Loop.comp (round w))) =
    outcome (replicas (Loop.comp w), cpu (Loop.comp w)).
Proof.
  intros (Hr & Hc & He & Hf & Hp & Hq) Hm.
  unfold round, evaluate, outcome.
  set (w1 := Loop.with_comp (setEvaluating true) w).
  assert (Hp1 : one_pending w1) by (intros t Ht; apply (Hp t Ht)).
  pose proof (hpa_clear_queue w1 Hp1) as Hcq.
  pose proof (hpa_clear_frame w1) as (F1 & F2 & F3).
  destruct (clearEvaluationTimer w1) as [ck fr q s].
  cbn in Hcq, F1, F2, F3. subst ck fr q s.
  destruct w as [ck0 fr0 q0 s0]. cbn in *.
  rewrite Hm. cbn [negb].
  destruct ((cpu s0 >? TARGET_CPU) && (replicas s0 <? HPA_MAX)); cbn;
    [split; [exact Hm | reflexivity]|].
  destruct ((cpu s0 <? 30) && (replicas s0 >? HPA_MIN)); cbn;
    [split; [exact Hm | reflexivity]|].
  destruct ((cpu s0 >? TARGET_CPU) && (replicas s0 >=? HPA_MAX)); cbn;
    [split; [exact Hm | reflexivity]|].
  destruct ((cpu s0 <? 30) && (replicas s0 <=? HPA_MIN)); cbn;
    split; first [exact Hm | reflexivity].
Qed.

Lemma hpa_iter_spec (w : W) (k : nat) :
  inv w -> isMounted (Loop.comp w) = true ->
  inv (Nat.iter k round w) /\
  isMounted (Loop.comp (Nat.iter k round w)) = true /\
  (replicas (Loop.comp (Nat.iter k round w)), cpu (Loop.comp (Nat.iter k round w)))
    = Nat.iter k outcome (replicas (Loop.comp w), cpu (Loop.comp w)).
Proof.
  intros Hi Hm. induction k as [|k (IH1 & IH2 & IH3)]; simpl.
  - split; [exact Hi | split; [exact Hm | reflexivity]].
  - destruct (hpa_round_spec _ IH1 IH2) as [Hm' H].
    split; [now apply hpa_inv_round | split; [exact Hm'|]].
    rewrite H. now rewrite IH3.
Qed.

Lemma hpa_range (lo : nat) (n : nat) (z : Z) :
  Z.of_nat lo <= z < Z.of_nat (lo + n) -> In z (map Z.of_nat (seq lo n)).
Proof.
  intros H. apply in_map_iff. exists (Z.to_nat z). split; [lia|].
  apply in_seq. lia.
Qed.

(** Inside the limits four rounds are enough to come to rest: all
    546 pairs are tried. *)
Lemma outcome_rests_after_four (r c : Z) :
  HPA_MIN <= r <= HPA_MAX -> CPU_FLOOR <= c <= CPU_CEIL ->
  at_rest (Nat.iter 4 outcome (r, c)) = true.
Proof.
  unfold HPA_MIN, HPA_MAX, CPU_FLOOR, CPU_CEIL. intros Hr Hc.
  assert (T : forallb (fun r => forallb (fun c =>
                at_rest (Nat.iter 4 outcome (r, c)))
                (map Z.of_nat (seq 10 91))) (map Z.of_nat (seq 1 6)) = true)
    by (vm_compute; reflexivity).
  rewrite forallb_forall in T.
  specialize (T r (hpa_range 1 6 r ltac:(lia))).
  rewrite forallb_forall in T.
  exact (T c (hpa_range 10 91 c ltac:(lia))).
Qed.

(** A pair at rest stays at rest. *)
Lemma outcome_rest_persists (p : Z * Z) :
  at_rest p = true -> at_rest (outcome p) = true.
Proof.
  unfold at_rest. intros H. apply andb_true_iff in H as [H1 H2].
  apply Z.eqb_eq in H1, H2.
  assert (E : outcome p = p) by (destruct (outcome p), p; simpl in *; congruence).
  rewrite !E, !Z.eqb_refl. reflexivity.
Qed.

Lemma outcome_rests_from_four (r c : Z) (k : nat) :
  HPA_MIN <= r <= HPA_MAX -> CPU_FLOOR <= c <= CPU_CEIL -> (4 <= k)%nat ->
  at_rest (Nat.iter k outcome (r, c)) = true.
Proof.
  intros Hr Hc Hk. induction Hk as [|k Hk IH].
  - now apply outcome_rests_after_four.
  - change (Nat.iter (S k) outcome (r, c)) with (outcome (Nat.iter k outcome (r, c))).
    now apply outcome_rest_persists.
Qed.

(** X19. Left alone with a constant load, the autoscaler comes to rest:
    after four presses of Evaluate, each given its 600 ms, a further
    press changes neither the number of replicas nor the CPU reading. *)
Theorem autoscaler_comes_to_rest (w : W) (k : nat) :
  reachable w -> isMounted (Loop.comp w) = true -> (4 <= k)%nat ->
  let a := Nat.iter k round w in
  replicas (Loop.comp (round a)) = replicas (Loop.comp a) /\
  cpu (Loop.comp (round a)) = cpu (Loop.comp a).
Proof.
  intros Hr Hm Hk a. apply hpa_reachable_inv in Hr.
  destruct (hpa_iter_spec w k Hr Hm) as (Hi & Hmk & Hk').
  destruct (hpa_round_spec a Hi Hmk) as [_ H].
  destruct Hr as (Hr & Hc & _).
  pose proof (outcome_rests_from_four _ _ k Hr Hc Hk) as R.
  fold a in Hk'. rewrite <- Hk' in R. unfold at_rest in R. rewrite <- H in R.
  cbn [fst snd] in R. apply andb_true_iff in R as [R1 R2].
  now apply Z.eqb_eq in R1, R2.
Qed.
End HPAFacts.

Lemma autoscaler_stays_within_limits_witness :
  let w := Loop.fire HPA.run (Loop.mkTimer 1%nat 600 (HPA.Evaluate 70 2))
             (HPA.evaluate (HPA.addTraffic (HPA.addTraffic (Loop.boot HPA.initial)))) in
  HPA.replicas (Loop.comp w) = 3 /\
  HPA.HPA_MIN <= HPA.replicas (Loop.comp w) <= HPA.HPA_MAX /\
  HPA.CPU_FLOOR <= HPA.cpu (Loop.comp w) <= HPA.CPU_CEIL /\
  (List.length (HPA.events (Loop.comp w)) <= 6)%nat /\
  (List.length (Loop.queue w) <= 1)%nat.
Proof.
  split; [reflexivity|].
  apply autoscaler_stays_within_limits.
  eapply HPA.reach_step; [|apply HPA.step_timer; reflexivity].
  eapply HPA.reach_step; [|apply HPA.step_evaluate; reflexivity].
  eapply HPA.reach_step; [|apply HPA.step_add; reflexivity].
  eapply HPA.reach_step; [|apply HPA.step_add; reflexivity].
  apply HPA.reach_boot.
Defined.

Lemma autoscaler_comes_to_rest_witness :
  let w := HPA.addTraffic (HPA.addTraffic (HPA.addTraffic (Loop.boot HPA.initial))) in
  let a := Nat.iter 4 HPA.round w in
  HPA.cpu (Loop.comp w) = 90 /\
  HPA.replicas (Loop.comp a) = 5 /\
  HPA.replicas (Loop.comp (HPA.round a)) = HPA.replicas (Loop.comp a) /\
  HPA.cpu (Loop.comp (HPA.round a)) = HPA.cpu (Loop.comp a).
Proof.
  split; [reflexivity|]. split; [reflexivity|].
  apply (autoscaler_comes_to_rest
           (HPA.addTraffic (HPA.addTraffic (HPA.addTraffic (Loop.boot HPA.initial))))
           4).
  - eapply HPA.reach_step; [|apply HPA.step_add; reflexivity].
    eapply HPA.reach_step; [|apply HPA.step_add; reflexivity].
    eapply HPA.reach_step; [|apply HPA.step_add; reflexivity].
    apply HPA.reach_boot.
  - reflexivity.
  - lia.
Defined.

(** ** The bonus assessment *)

Section AssessmentFacts.
Import Assessment.

Lemma set_at_length {A} (v : A) (l : list A) :
  forall i, List.length (Js.set_at i v l) = List.length l.
Proof.
  induction l as [|x l IH]; intros [|i]; simpl; auto.
Qed.

(** Writing [y] where [x] was trades one for the other. *)
Lemma set_at_perm {A} (x y : A) (l : list A) :
  forall i, nth_error l i = Some x ->
    Permutation (y :: l) (x :: Js.set_at i y l).
Proof.
  induction l as [|a l IH]; intros [|i] H; simpl in *; try discriminate.
  - injection H as ->. apply perm_swap.
  - specialize (IH i H).
    eapply perm_trans; [apply perm_swap|].
    eapply perm_trans; [apply perm_skip, IH|].
    apply perm_swap.
Qed.

Lemma set_at_nth_same {A} (y : A) (l : list A) :
  forall i j, (i < List.length l)%nat -> nth_error l j = Some y ->
    nth_error (Js.set_at i y l) j = Some y.
Proof.
  induction l as [|a l IH]; intros [|i] [|j] Hi Hj; simpl in *;
    try discriminate; try lia; auto.
  apply IH; [lia | exact Hj].
Qed.

Lemma swap_perm {A} (i j : nat) (copy : list A) :
  (i < List.length copy)%nat -> (j < List.length copy)%nat ->
  exists out, swap i j copy = Some out /\
              Permutation copy out /\ List.length out = List.length copy.
Proof.
  intros Hi Hj. unfold swap.
  destruct (nth_error copy i) as [x|] eqn:Ex;
    [|apply nth_error_None in Ex; lia].
  destruct (nth_error copy j) as [y|] eqn:Ey;
    [|apply nth_error_None in Ey; lia].
  eexists. split; [reflexivity|]. split.
  - apply (Permutation_cons_inv (a := y)).
    eapply perm_trans; [apply (set_at_perm x y copy i Ex)|].
    apply set_at_perm. now apply set_at_nth_same.
  - now rewrite !set_at_length.
Qed.

Lemma shuffle_from_perm {A} (i : nat) :
  forall (s : Z) (copy : list A),
    0 <= s -> (i < List.length copy)%nat ->
    exists out, shuffle_from i s copy = Some out /\ Permutation copy out.
Proof.
  induction i as [|i IH]; intros s copy Hs Hi.
  - exists copy. split; [reflexivity | apply Permutation_refl].
  - cbn [shuffle_from].
    set (s' := Z.rem (s * 16807 + 0) 2147483647).
    set (j := Z.rem s' (Z.of_nat (S i) + 1)).
    assert (Hs' : 0 <= s') by (apply Z.rem_nonneg; lia).
    assert (Hj : 0 <= j < Z.of_nat (S i) + 1)
      by (apply Z.rem_bound_pos; lia).
    destruct (Z.ltb_spec j 0) as [|_]; [lia|].
    destruct (swap_perm (S i) (Z.to_nat j) copy) as (c & -> & Hp & Hl); [lia | lia |].
    destruct (IH s' c Hs') as (out & Ho & Hp'); [lia|].
    exists out. split; [exact Ho | eapply perm_trans; eassumption].
Qed.

Lemma seededShuffle_perm {A} (arr : list A) (seed : Z) :
  0 <= seed ->
  exists out, seededShuffle arr seed = Some out /\ Permutation arr out.
Proof.
  intros Hs. unfold seededShuffle.
  destruct arr as [|a arr].
  - exists []. split; [reflexivity | apply Permutation_refl].
  - apply shuffle_from_perm; [exact Hs | simpl; lia].
Qed.

(** X20. [seededShuffle] returns a rearrangement of its argument for
    every seed from 0 on whose product with 16807 stays below 2^53,
    where the numbers of the code are whole and exact; the seeds the
    component draws, 1 to 2147483646, are among them.  For such a seed
    it never reads outside the array, and nothing is lost or
    duplicated. *)
Theorem seededShuffle_rearranges {A} (arr : list A) (seed : Z) :
  exact_seed seed ->
  (forall drawn, 1 <= drawn <= 2147483646 -> exact_seed drawn) /\
  exists out, seededShuffle arr seed = Some out /\ Permutation arr out.
Proof.
  intros [Hs _]. split; [unfold exact_seed; intros drawn Hd; lia|].
  unfold seededShuffle.
  destruct arr as [|a arr].
  - exists []. split; [reflexivity | apply Permutation_refl].
  - apply shuffle_from_perm; [exact Hs | simpl; lia].
Qed.

(** X21. The questions put to the reader are ten different questions of
    the bank, when the bank holds at least ten and no id twice. *)
Theorem activeQuestions_are_ten_of_the_bank
    (QUESTIONS : list AssessmentQuestion) (seed : Z) :
  0 <= seed ->
  NoDup (map id QUESTIONS) ->
  (SUBSET_SIZE <= List.length QUESTIONS)%nat ->
  exists active,
    activeQuestions QUESTIONS seed = Some active /\
    List.length active = SUBSET_SIZE /\
    NoDup (map id active) /\
    incl active QUESTIONS.
Proof.
  intros Hs Hn Hl. unfold activeQuestions.
  destruct (seededShuffle_perm QUESTIONS seed Hs) as (out & -> & Hp).
  exists (Js.slice0 SUBSET_SIZE out). unfold Js.slice0. cbn [option_map].
  split; [reflexivity|].
  assert (Hn' : NoDup (map id out)).
  { eapply Permutation_NoDup; [apply Permutation_map, Hp | exact Hn]. }
  split; [|split].
  - rewrite length_firstn. apply Permutation_length in Hp. lia.
  - rewrite <- (firstn_skipn SUBSET_SIZE out), map_app in Hn'.
    now apply NoDup_app_remove_r in Hn'.
  - intros q Hq. apply (Permutation_in q (Permutation_sym Hp)).
    rewrite <- (firstn_skipn SUBSET_SIZE out). apply in_or_app. now left.
Qed.

(** What "Retry missed only" keeps agrees with what was answered. *)
Lemma retry_agrees (a : Answers) (l : list (AssessmentQuestion * bool)) :
  forall acc : Answers,
    (forall item, In item l -> snd item = correct a (fst item)) ->
    (forall k v, acc k = Some v -> a k = Some v) ->
    forall k v,
      fold_left keepCorrect l acc k = Some v ->
      a k = Some v.
Proof.
  induction l as [|[q b] l IH]; intros acc Hl Hacc k v; simpl; [apply Hacc|].
  apply IH; [intros item Hi; apply Hl; now right|].
  intros k' v'. unfold keepCorrect. cbn [fst snd].
  destruct b; [|apply Hacc].
  pose proof (Hl (q, true) (or_introl eq_refl)) as Hc. cbn [fst snd] in Hc.
  unfold put. destruct (k' =? id q)%string eqn:E; [|apply Hacc].
  apply String.eqb_eq in E. subst k'. intros Hv. injection Hv as <-.
  unfold correct in Hc. destruct (a (id q)) as [g|]; [|discriminate].
  symmetry in Hc. apply String.eqb_eq in Hc. now subst g.
Qed.

(** An answer, once kept, is not dropped by the rest of the loop. *)
Lemma retry_keeps (l : list (AssessmentQuestion * bool)) :
  forall (acc : Answers) k,
    acc k <> None ->
    fold_left keepCorrect l acc k <> None.
Proof.
  induction l as [|[q b] l IH]; intros acc k H; simpl; [exact H|].
  apply IH. unfold keepCorrect. cbn [fst snd]. destruct b; [|exact H].
  unfold put. destruct (k =? id q)%string; [discriminate | exact H].
Qed.

Lemma retry_covers (l : list (AssessmentQuestion * bool)) :
  forall (acc : Answers) q,
    In (q, true) l ->
    fold_left keepCorrect l acc (id q) <> None.
Proof.
  induction l as [|[q' b] l IH]; intros acc q H; simpl in *; [contradiction|].
  destruct H as [H|H]; [|now apply IH].
  injection H as -> ->.
  apply retry_keeps.
  unfold keepCorrect, put. cbn [fst snd]. now rewrite String.eqb_refl.
Qed.

(** Without a right answer for an id nothing is kept for it. *)
Lemma retry_drops (l : list (AssessmentQuestion * bool)) :
  forall (acc : Answers) k,
    acc k = None ->
    (forall q, In (q, true) l -> id q <> k) ->
    fold_left keepCorrect l acc k = None.
Proof.
  induction l as [|[q b] l IH]; intros acc k H Hl; simpl; [exact H|].
  apply IH; [|intros q' Hq'; apply Hl; now right].
  unfold keepCorrect. cbn [fst snd]. destruct b; [|exact H].
  unfold put. destruct (k =? id q)%string eqn:E; [|exact H].
  apply String.eqb_eq in E. exfalso. apply (Hl q); [now left | now symmetry].
Qed.

Lemma result_In (a : Answers) (active : list AssessmentQuestion) item :
  In item (result a active) ->
  In (fst item) active /\ snd item = correct a (fst item).
Proof.
  unfold result. intros H. apply in_map_iff in H as (q & <- & Hq). now split.
Qed.

Lemma retry_correct (active : list AssessmentQuestion) (s : state) q :
  In q active ->
  correct (answers (retry active s)) q = correct (answers s) q.
Proof.
  intros Hq. unfold retry. cbn [answers].
  destruct (correct (answers s) q) eqn:Ec.
  - assert (Hin : In (q, true) (result (answers s) active)).
    { unfold result. apply in_map_iff. exists q. now rewrite Ec. }
    pose proof (retry_covers _ no_answers q Hin) as Hne.
    unfold correct at 1.
    destruct (fold_left keepCorrect (result (answers s) active) no_answers (id q))
      as [v|] eqn:Ev; [|congruence].
    apply (retry_agrees (answers s)) in Ev;
      [| intros item Hi; now apply result_In in Hi | discriminate].
    unfold correct in Ec. now rewrite Ev in Ec.
  - unfold correct at 1.
    destruct (fold_left keepCorrect (result (answers s) active) no_answers (id q))
      as [v|] eqn:Ev; [|reflexivity].
    apply (retry_agrees (answers s)) in Ev;
      [| intros item Hi; now apply result_In in Hi | discriminate].
    unfold correct in Ec. now rewrite Ev in Ec.
Qed.

Lemma NoDup_map_id_inj (active : list AssessmentQuestion) (q q' : AssessmentQuestion) :
  NoDup (map id active) -> In q active -> In q' active -> id q = id q' -> q = q'.
Proof.
  induction active as [|a l IH]; intros Hn Hq Hq' E; [contradiction|].
  simpl in Hn. inversion Hn as [|? ? Hni Hn']; subst.
  destruct Hq as [->|Hq], Hq' as [->|Hq']; auto.
  - exfalso. apply Hni. rewrite E. now apply in_map.
  - exfalso. apply Hni. rewrite <- E. now apply in_map.
Qed.

(** X22. "Retry missed only" keeps the right answers and clears the
    others: every question is marked after it as it was before, and,
    the ids being different, a question has an answer afterwards
    exactly when it was answered rightly, and then that answer. *)
Theorem retry_keeps_the_right_answers
    (active : list AssessmentQuestion) (s : state) (q : AssessmentQuestion) :
  NoDup (map id active) ->
  In q active ->
  correct (answers (retry active s)) q = correct (answers s) q /\
  answers (retry active s) (id q)
    = (if correct (answers s) q then Some (answer q) else None) /\
  submitted (retry active s) = false.
Proof.
  intros Hn Hq. split; [now apply retry_correct|]. split; [|reflexivity].
  pose proof (retry_correct active s q Hq) as Hc.
  destruct (correct (answers s) q) eqn:Ec.
  - unfold correct in Hc.
    destruct (answers (retry active s) (id q)) as [v|]; [|discriminate].
    apply String.eqb_eq in Hc. now subst v.
  - unfold retry. cbn [answers]. apply retry_drops; [reflexivity|].
    intros q' Hq' E. apply result_In in Hq' as [Hin Hc']. cbn [fst snd] in *.
    rewrite (NoDup_map_id_inj active q' q Hn Hin Hq E) in Hc'. congruence.
Qed.
End AssessmentFacts.

Lemma seededShuffle_rearranges_witness :
  exists out,
    Assessment.seededShuffle ["q1"; "q2"; "q3"; "q4"; "q5"]%string 20260101 = Some out /\
    Permutation ["q1"; "q2"; "q3"; "q4"; "q5"]%string out.
Proof.
  apply (seededShuffle_rearranges ["q1"; "q2"; "q3"; "q4"; "q5"]%string 20260101).
  unfold Assessment.exact_seed. lia.
Defined.

Lemma activeQuestions_are_ten_of_the_bank_witness :
  let bank :=
    map (fun i => Assessment.mkQuestion i Assessment.mcq EmptyString []
                   "Deployment"%string EmptyString "Workloads"%string)
        ["q1"; "q2"; "q3"; "q4"; "q5"; "q6"; "q7"; "q8"; "q9"; "q10"; "q11";
         "q12"; "q13"; "q14"; "q15"]%string in
  exists active,
    Assessment.activeQuestions bank 20260101 = Some active /\
    List.length active = Assessment.SUBSET_SIZE /\
    NoDup (map Assessment.id active) /\
    incl active bank.
Proof.
  apply activeQuestions_are_ten_of_the_bank.
  - lia.
  - simpl.
    repeat (constructor;
            [simpl; intros H;
             repeat (destruct H as [H|H]; [discriminate H|]); exact H|]).
    constructor.
  - unfold Assessment.SUBSET_SIZE. simpl. lia.
Defined.

Lemma retry_keeps_the_right_answers_witness :
  let q1 := Assessment.mkQuestion "q1"%string Assessment.mcq EmptyString
              ["Job"; "Deployment"; "DaemonSet"; "StatefulSet"]%string
              "Deployment"%string EmptyString "Workloads"%string in
  let q2 := Assessment.mkQuestion "q2"%string Assessment.command_prediction
              EmptyString ["kubectl get pods"; "kubectl logs <pod>"]%string
              "kubectl logs <pod>"%string EmptyString "Troubleshooting"%string in
  let s := Assessment.choose q2 "kubectl get pods"%string
             (Assessment.choose q1 "Deployment"%string Assessment.initial) in
  Assessment.correct (Assessment.answers (Assessment.retry [q1; q2] s)) q1
    = Assessment.correct (Assessment.answers s) q1 /\
  Assessment.answers (Assessment.retry [q1; q2] s) (Assessment.id q1)
    = (if Assessment.correct (Assessment.answers s) q1
       then Some (Assessment.answer q1) else None) /\
  Assessment.submitted (Assessment.retry [q1; q2] s) = false.
Proof.
  apply retry_keeps_the_right_answers.
  - simpl. constructor; [simpl; intros [H|[]]; discriminate H|].
    constructor; [intros []|constructor].
  - left. reflexivity.
Defined.

(** ** The troubleshooting flow *)

Section TroubleshootingFacts.
Import Troubleshooting.

Lemma expectedCommands_nonempty (key : ScenarioKey) :
  (0 < List.length (expectedCommands key))%nat.
Proof. destruct key; simpl; lia. Qed.

Lemma ts_inv_reset (s : state) : inv (resetState s).
Proof.
  unfold inv. simpl. pose proof (expectedCommands_nonempty (selectedScenario s)).
  repeat split; [lia | discriminate].
Qed.

Lemma ts_inv_click (command : string) (s : state) :
  inv s -> inv (handleCommandClick command s).
Proof.
  intros Hi. pose proof Hi as (Hc & Hd & Hf). unfold handleCommandClick.
  destruct (finished s) eqn:Ef; [exact Hi|]. clear Hi.
  destruct (nth_error (expectedCommands (selectedScenario s)) (currentStep s))
    as [e|] eqn:En.
  2:{ unfold inv. simpl. repeat split; [exact Hc | exact Hd | discriminate]. }
  destruct (command =? e)%string.
  2:{ unfold inv. simpl. repeat split; [exact Hc | exact Hd | discriminate]. }
  destruct (Nat.leb_spec (List.length (expectedCommands (selectedScenario s)))
                         (currentStep s + 1)) as [Hl|Hl];
    unfold inv; cbn [selectedScenario currentStep completedSteps finished].
  - assert (E : List.length (expectedCommands (selectedScenario s))
                = S (currentStep s)) by lia.
    rewrite Hd, E, seq_S. repeat split; auto; lia.
  - rewrite Hd, Nat.add_1_r, seq_S. repeat split; [lia | discriminate].
Qed.

Lemma ts_reachable_inv (s : state) : reachable s -> inv s.
Proof.
  induction 1 as [|s s' _ IH Hs].
  - unfold inv. simpl. repeat split; [lia | discriminate].
  - destruct Hs.
    + apply ts_inv_reset.
    + apply ts_inv_reset.
    + now apply ts_inv_click.
Qed.

Lemma some_step_is_defined (steps : list string) (command : string) (l : list nat) :
  (forall i, In i l -> (i < List.length steps)%nat) ->
  some_step_is steps command l <> None.
Proof.
  induction l as [|i l IH]; intros H; simpl; [discriminate|].
  destruct (nth_error steps i) as [c|] eqn:E.
  - destruct (c =? command)%string; [discriminate|].
    apply IH. intros j Hj. apply H. now right.
  - apply nth_error_None in E. specialize (H i (or_introl eq_refl)). lia.
Qed.

(** X23. Whatever is clicked and whichever scenario is chosen, the
    steps marked done are the steps before the cursor in their order
    (all steps once the scenario is finished), the cursor is on a step
    of the chosen scenario, and drawing the buttons never looks up a
    step that the scenario does not have. *)
Theorem done_steps_are_the_steps_before_the_cursor (s : state) :
  reachable s ->
  let n := List.length (expectedCommands (selectedScenario s)) in
  (currentStep s < n)%nat /\
  completedSteps s = seq 0 (if finished s then n else currentStep s) /\
  (finished s = true -> S (currentStep s) = n) /\
  forall cmd, isCommandCompleted cmd s <> None.
Proof.
  intros H. destruct (ts_reachable_inv s H) as (Hc & Hd & Hf).
  repeat split; auto.
  intros cmd. unfold isCommandCompleted. apply some_step_is_defined.
  intros i Hi. rewrite Hd in Hi. apply in_seq in Hi.
  destruct (finished s); lia.
Qed.

(** X24. Every scenario can be worked through with the buttons of the
    page: after choosing it, in whatever state, a click on each of its
    commands in turn finds the button enabled and takes the step, and
    the scenario ends finished with every step done and no hint. *)
Theorem every_scenario_can_be_finished (key : ScenarioKey) (s : state) :
  let s' := fold_left (fun s cmd => clickCommand cmd s) (expectedCommands key)
                      (handleScenarioChange key s) in
  finished s' = true /\
  completedSteps s' = seq 0 (List.length (expectedCommands key)) /\
  hint s' = None /\
  selectedScenario s' = key /\
  incl (expectedCommands key) ALL_COMMANDS.
Proof.
  destruct key; cbv zeta; unfold handleScenarioChange, resetState;
    cbn [selectedScenario]; (repeat split; try reflexivity);
    intros c Hc; simpl in *; tauto.
Qed.
End TroubleshootingFacts.

Lemma done_steps_are_the_steps_before_the_cursor_witness :
  let s := Troubleshooting.handleCommandClick "kubectl logs <name>"%string
             (Troubleshooting.handleCommandClick "kubectl get pods"%string
                (Troubleshooting.handleScenarioChange Troubleshooting.crashloop
                   Troubleshooting.initial)) in
  Troubleshooting.currentStep s = 2%nat /\
  let n := List.length (Troubleshooting.expectedCommands
                          (Troubleshooting.selectedScenario s)) in
  (Troubleshooting.currentStep s < n)%nat /\
  Troubleshooting.completedSteps s
    = seq 0 (if Troubleshooting.finished s then n else Troubleshooting.currentStep s) /\
  (Troubleshooting.finished s = true -> S (Troubleshooting.currentStep s) = n) /\
  forall cmd, Troubleshooting.isCommandCompleted cmd s <> None.
Proof.
  split; [reflexivity|].
  apply done_steps_are_the_steps_before_the_cursor.
  eapply Troubleshooting.reach_step; [|apply Troubleshooting.step_click].
  eapply Troubleshooting.reach_step; [|apply Troubleshooting.step_click].
  eapply Troubleshooting.reach_step; [|apply Troubleshooting.step_change].
  apply Troubleshooting.reach_initial.
Defined.

(** ** The storage simulator *)

Section StorageFacts.
Import Storage.
Variable size_text : nat -> string.

Local Abbreviation step := (Storage.step size_text).
Local Abbreviation reachable := (Storage.reachable size_text).

Lemma togglePvc_frame k (w : W) :
  let w' := Nat.iter k togglePvc w in
  Loop.queue w' = Loop.queue w /\
  Loop.clock w' = Loop.clock w /\
  isMounted (Loop.comp w') = isMounted (Loop.comp w) /\
  ephemeralFiles (Loop.comp w') = ephemeralFiles (Loop.comp w) /\
  pvcFiles (Loop.comp w') = pvcFiles (Loop.comp w) /\
  podAlive (Loop.comp w') = podAlive (Loop.comp w) /\
  restarting (Loop.comp w') = restarting (Loop.comp w).
Proof.
  induction k as [|k IH]; simpl; [repeat split|].
  destruct IH as (H1 & H2 & H3 & H4 & H5 & H6 & H7).
  simpl in *. repeat split; assumption.
Qed.

Lemma succ_eqb_false (n : nat) : Nat.eqb (S n) n = false.
Proof. apply Nat.eqb_neq. lia. Qed.

(** X25. A restart wipes the ephemeral files and keeps the files of the
    volume exactly when a claim was mounted at the click: started at
    rest, once its two timers have run the pod is alive again with no
    ephemeral file, and the volume holds what it held if [hasPvc] was
    set when Restart was clicked and nothing otherwise, however often
    the PVC switch is flipped during the restart. *)
Theorem restart_keeps_what_the_claim_held (w : W) (a b : nat) :
  Loop.queue w = [] ->
  isMounted (Loop.comp w) = true ->
  let w' := Loop.advance run 1 (Nat.iter b togglePvc
              (Loop.advance run 1 (Nat.iter a togglePvc (restartPod w)))) in
  ephemeralFiles (Loop.comp w') = [] /\
  pvcFiles (Loop.comp w')
    = (if hasPvc (Loop.comp w) then pvcFiles (Loop.comp w) else []) /\
  podAlive (Loop.comp w') = true /\
  restarting (Loop.comp w') = false /\
  Loop.queue w' = [] /\
  Loop.clock w' = Loop.clock w + 1500.
Proof.
  intros Hq Hm w'. subst w'.
  destruct (togglePvc_frame a (restartPod w)) as (A1 & A2 & A3 & A4 & A5 & A6 & A7).
  set (wa := Nat.iter a togglePvc (restartPod w)) in *.
  cbn in A1, A2, A3, A4, A5, A6, A7. rewrite Hq in A1. cbn in A1.
  assert (E1 : Loop.earliest (Loop.queue wa)
               = Some (Loop.mkTimer (Loop.fresh w) (Loop.clock w + 600)
                         (Wipe (hasPvc (Loop.comp w))))).
  { rewrite A1. cbn. destruct (Z.ltb_spec (Loop.clock w + 1500) (Loop.clock w + 600));
      [lia | reflexivity]. }
  cbn [Loop.advance]. rewrite E1.
  set (w1 := Loop.fire run _ wa).
  assert (Q1 : Loop.queue w1 = [Loop.mkTimer (S (Loop.fresh w)) (Loop.clock w + 1500)
                                  (Revive (hasPvc (Loop.comp w)))]).
  { unfold w1, Loop.fire, run, Loop.dequeue. cbn. rewrite A3, Hm. cbn.
    destruct (hasPvc (Loop.comp w)); cbn; rewrite A1; cbn -[Nat.eqb];
      rewrite Nat.eqb_refl, succ_eqb_false; reflexivity. }
  assert (C1 : Loop.clock w1 = Loop.clock w + 600).
  { unfold w1, Loop.fire, run, Loop.dequeue. cbn. rewrite A3, Hm. cbn.
    destruct (hasPvc (Loop.comp w)); cbn; rewrite A2; lia. }
  assert (S1 : isMounted (Loop.comp w1) = true /\
               ephemeralFiles (Loop.comp w1) = [] /\
               pvcFiles (Loop.comp w1) = pvcFiles (Loop.comp w)).
  { unfold w1, Loop.fire, run, Loop.dequeue. cbn. rewrite A3, Hm. cbn.
    destruct (hasPvc (Loop.comp w)); cbn; rewrite A5, A3, Hm; repeat split. }
  destruct S1 as (M1 & F1 & P1).
  destruct (togglePvc_frame b w1) as (B1 & B2 & B3 & B4 & B5 & B6 & B7).
  set (wb := Nat.iter b togglePvc w1) in *.
  rewrite Q1 in B1. rewrite C1 in B2. rewrite M1 in B3. rewrite F1 in B4.
  rewrite P1 in B5.
  rewrite B1. cbn [Loop.earliest].
  unfold Loop.fire, run, Loop.dequeue. cbn. rewrite B3. cbn.
  destruct (hasPvc (Loop.comp w)); cbn; rewrite B1, ?B4, ?B5, B2; cbn -[Nat.eqb];
    rewrite Nat.eqb_refl; cbn; repeat split; lia.
Qed.

Lemma storage_tracked_frame (w w' : W) :
  Loop.queue w' = Loop.queue w ->
  timeoutIds (Loop.comp w') = timeoutIds (Loop.comp w) ->
  tracked w -> tracked w'.
Proof. unfold tracked. intros -> ->. auto. Qed.

Lemma storage_tracked_scheduleTimeout (cb : Cb) (delay : Z) (w : W) :
  tracked w -> tracked (scheduleTimeout cb delay w).
Proof.
  unfold tracked, scheduleTimeout. simpl. intros H t Ht.
  apply in_app_or in Ht. apply in_or_app.
  destruct Ht as [Ht|[<-|[]]]; [left; auto | right; now left].
Qed.

Lemma storage_tracked_step (w w' : W) : step w w' -> tracked w -> tracked w'.
Proof.
  intros Hs H. destruct Hs as [target w _|target fid w _|w _|w _|w|t w Ht|t w Ht].
  - revert H. apply storage_tracked_frame; [reflexivity|].
    unfold writeFile. destruct target; reflexivity.
  - revert H. apply storage_tracked_frame; [reflexivity|].
    unfold deleteFile. cbn.
    destruct target; destruct (find _ _); reflexivity.
  - revert H. apply storage_tracked_frame; reflexivity.
  - unfold restartPod. do 2 apply storage_tracked_scheduleTimeout.
    revert H. apply storage_tracked_frame; reflexivity.
  - intros t Ht. exfalso.
    assert (Q : Loop.queue (unmount w) = []).
    { unfold unmount. simpl. now apply clearEach_all. }
    rewrite Q in Ht. contradiction.
  - unfold Loop.fire.
    assert (H0 : tracked (Loop.dequeue t w)).
    { intros u Hu. apply dequeue_In in Hu. simpl. auto. }
    unfold run. destruct (negb _); [exact H0|].
    destruct (Loop.callback t) as [h|h]; destruct h; cbn [negb];
      revert H0; apply storage_tracked_frame; reflexivity.
  - revert H. apply storage_tracked_frame; reflexivity.
Qed.

Lemma storage_reachable_tracked (w : W) : reachable w -> tracked w.
Proof.
  induction 1 as [|w w' _ IH Hs].
  - intros t Ht. contradiction.
  - exact (storage_tracked_step _ _ Hs IH).
Qed.

(** X26. Unmounting the storage simulator is final: whatever it was
    doing, even in the middle of a restart, the cleanup leaves no timer
    pending, and no later moment changes anything of the component. *)
Theorem storage_unmount_is_final (w : W) :
  reachable w ->
  Loop.queue (unmount w) = [] /\
  forall n until,
    Loop.comp (Loop.elapse run n until (unmount w)) = Loop.comp (unmount w).
Proof.
  intros Hr.
  assert (Q : Loop.queue (unmount w) = []).
  { unfold unmount. simpl. apply clearEach_all.
    intros t Ht. exact (storage_reachable_tracked w Hr t Ht). }
  split; [exact Q|]. intros n until. now apply elapse_quiet.
Qed.
End StorageFacts.

Lemma restart_keeps_what_the_claim_held_witness :
  let w := Storage.togglePvc (Loop.boot Storage.initial) in
  let w' := Loop.advance Storage.run 1 (Nat.iter 0 Storage.togglePvc
              (Loop.advance Storage.run 1
                 (Nat.iter 1 Storage.togglePvc (Storage.restartPod w)))) in
  Storage.hasPvc (Loop.comp w) = false /\
  Storage.hasPvc (Loop.comp w') = true /\
  Storage.ephemeralFiles (Loop.comp w') = [] /\
  Storage.pvcFiles (Loop.comp w')
    = (if Storage.hasPvc (Loop.comp w) then Storage.pvcFiles (Loop.comp w) else []) /\
  Storage.podAlive (Loop.comp w') = true /\
  Storage.restarting (Loop.comp w') = false /\
  Loop.queue w' = [] /\
  Loop.clock w' = Loop.clock w + 1500.
Proof.
  split; [reflexivity|]. split; [reflexivity|].
  apply (restart_keeps_what_the_claim_held
           (Storage.togglePvc (Loop.boot Storage.initial)) 1 0); reflexivity.
Defined.

Lemma storage_unmount_is_final_witness :
  let w := Storage.restartPod (Loop.boot Storage.initial) in
  List.length (Loop.queue w) = 2%nat /\
  Loop.queue (Storage.unmount w) = [] /\
  forall n until,
    Loop.comp (Loop.elapse Storage.run n until (Storage.unmount w))
    = Loop.comp (Storage.unmount w).
Proof.
  split; [reflexivity|].
  apply (storage_unmount_is_final (fun _ : nat => "4.2"%string)).
  eapply Storage.reach_step; [apply Storage.reach_boot|].
  apply Storage.step_restart. reflexivity.
Defined.

(** ** The workload chooser *)

Section WorkloadChooserFacts.
Import WorkloadChooser.

Lemma nexts_app (a b : list click) : nexts (a ++ b) = (nexts a + nexts b)%nat.
Proof.
  induction a as [|[name|] a IH]; simpl; [reflexivity | exact IH | now rewrite IH].
Qed.

Lemma chooser_inv (clicks : list click) :
  let s := run clicks in
  scenarioIndex s = Z.of_nat (nexts clicks) mod 6 /\
  0 <= correct (score s) <= total (score s) /\
  total (score s) <= Z.of_nat (nexts clicks) + (if showResult s then 1 else 0) /\
  (showResult s = true <-> selected s <> None).
Proof.
  induction clicks as [|c clicks IH] using rev_ind.
  - cbn. repeat split; try lia; try discriminate. intros H. now contradiction H.
  - unfold run in *. rewrite fold_left_app, nexts_app. cbn [fold_left].
    set (s := fold_left (fun s c => apply c s) clicks initial) in *.
    cbv zeta in IH. destruct IH as (Hi & Hc & Ht & Hs).
    destruct c as [name|]; cbn [apply nexts].
    + rewrite Nat.add_0_r. unfold handleSelect.
      destruct (showResult s) eqn:E; [rewrite E; repeat split; try tauto; lia|].
      unfold answer. rewrite Hi.
      pose proof (Z.mod_pos_bound (Z.of_nat (nexts clicks)) 6 ltac:(lia)) as Hb.
      destruct (Z.ltb_spec (Z.of_nat (nexts clicks) mod 6) 0) as [|_]; [lia|].
      destruct (nth_error SCENARIOS (Z.to_nat (Z.of_nat (nexts clicks) mod 6)))
        as [a|] eqn:En.
      2:{ apply nth_error_None in En. simpl in En. lia. }
      cbn. repeat split; try discriminate;
        try (destruct (name =? a)%string; lia); lia.
    + unfold nextScenario. cbn.
      repeat split; try lia; try discriminate.
      * rewrite Hi, Z.rem_mod_nonneg by
          (pose proof (Z.mod_pos_bound (Z.of_nat (nexts clicks)) 6 ltac:(lia)); lia).
        rewrite Z.add_mod_idemp_l by lia. f_equal. lia.
      * destruct (showResult s); lia.
      * intros H. now contradiction H.
Qed.

(** X27. Each scenario shown is scored at most once, and "Next scenario"
    always moves one scenario on, also when it is clicked twice in a
    row: after any clicks the scenario on the page is the one numbered
    by the clicks on Next modulo 6, so the index never leaves the table;
    a first click on a workload adds one to the total, and one to the
    correct answers exactly when it names the answer of that scenario,
    while further clicks change nothing until Next; hence the correct
    answers never exceed the total, and the total never exceeds the
    scenarios shown.  A result is shown exactly when a workload is
    selected. *)
Theorem each_scenario_is_scored_once (clicks : list click) (name : string) :
  let s := run clicks in
  scenarioIndex s = Z.of_nat (nexts clicks) mod 6 /\
  (exists a,
     nth_error SCENARIOS (Z.to_nat (Z.of_nat (nexts clicks) mod 6)) = Some a /\
     answer s = Some a /\
     (showResult s = false ->
      handleSelect name s
      = mkState (scenarioIndex s) (Some name) true
          (mkScore (correct (score s) + (if (name =? a)%string then 1 else 0))
                   (total (score s) + 1)))) /\
  (showResult s = true -> handleSelect name s = s) /\
  0 <= correct (score s) <= total (score s) /\
  total (score s) <= Z.of_nat (nexts clicks) + (if showResult s then 1 else 0) /\
  (showResult s = true <-> selected s <> None).
Proof.
  intros s. destruct (chooser_inv clicks) as (Hi & Hc & Ht & Hs). fold s in Hi, Hc, Ht, Hs.
  split; [exact Hi|]. split; [|split; [|split; [exact Hc | split; [exact Ht | exact Hs]]]].
  - pose proof (Z.mod_pos_bound (Z.of_nat (nexts clicks)) 6 ltac:(lia)) as Hb.
    destruct (nth_error SCENARIOS (Z.to_nat (Z.of_nat (nexts clicks) mod 6)))
      as [a|] eqn:En.
    2:{ apply nth_error_None in En. simpl in En. lia. }
    assert (Ha : answer s = Some a).
    { unfold answer. rewrite Hi.
      destruct (Z.ltb_spec (Z.of_nat (nexts clicks) mod 6) 0) as [|_]; [lia|].
      exact En. }
    exists a. split; [reflexivity|]. split; [exact Ha|].
    intros E. unfold handleSelect. now rewrite E, Ha.
  - intros E. unfold handleSelect. now rewrite E.
Qed.
End WorkloadChooserFacts.

(** A right answer, then Next twice in a row, then a wrong answer. *)
Lemma each_scenario_is_scored_once_witness :
  let clicks := [WorkloadChooser.Select "Deployment"; WorkloadChooser.Next;
                 WorkloadChooser.Next]%string in
  let s := WorkloadChooser.run clicks in
  WorkloadChooser.scenarioIndex s = 2 /\
  WorkloadChooser.score s = WorkloadChooser.mkScore 1 1 /\
  WorkloadChooser.score (WorkloadChooser.handleSelect "Deployment"%string s)
    = WorkloadChooser.mkScore 1 2 /\
  WorkloadChooser.answer s = Some "Job"%string.
Proof.
  destruct (each_scenario_is_scored_once
              [WorkloadChooser.Select "Deployment"; WorkloadChooser.Next;
               WorkloadChooser.Next]%string "Deployment"%string)
    as (Hi & (a & Hn & Ha & Hsel) & _).
  split; [exact Hi|]. split; [reflexivity|].
  split; [rewrite (Hsel eq_refl); cbn in Hn; injection Hn as <-; reflexivity|].
  cbn in Hn. rewrite Ha. injection Hn as <-. reflexivity.
Defined.

(** ** The timer queue: the head of an ordered queue runs first *)

Section QueueOrder.
Context {St Cb : Type}.
Variable run : Cb -> Loop.world St Cb -> Loop.world St Cb.

Lemma earliest_head (t : Loop.timer Cb) (q : list (Loop.timer Cb)) :
  (forall u, In u q -> Loop.due t < Loop.due u) ->
  Loop.earliest (t :: q) = Some t.
Proof.
  intros H. simpl. destruct (Loop.earliest q) as [u|] eqn:E; [|reflexivity].
  apply earliest_In in E. specialize (H u E).
  destruct (Z.ltb_spec (Loop.due u) (Loop.due t)); [lia | reflexivity].
Qed.

Lemma filter_head (t : Loop.timer Cb) (q : list (Loop.timer Cb)) :
  (forall u, In u q -> Loop.handle u <> Loop.handle t) ->
  filter (fun u => negb (Nat.eqb (Loop.handle u) (Loop.handle t))) (t :: q) = q.
Proof.
  intros H. simpl. rewrite Nat.eqb_refl. simpl.
  induction q as [|u q IH]; simpl; [reflexivity|].
  destruct (Nat.eqb_spec (Loop.handle u) (Loop.handle t)) as [E|_].
  - exfalso. apply (H u); [now left | exact E].
  - simpl. f_equal. apply IH. intros v Hv. apply H. now right.
Qed.

(** When the first timer of the queue is due before all others, it is
    the one that runs, and the others stay as they are. *)
Lemma advance_head (k : nat) (w : Loop.world St Cb)
    (t : Loop.timer Cb) (q : list (Loop.timer Cb)) :
  Loop.queue w = t :: q ->
  (forall u, In u q -> Loop.due t < Loop.due u /\ Loop.handle u <> Loop.handle t) ->
  Loop.advance run (S k) w
  = Loop.advance run k
      (run (Loop.callback t)
           (Loop.mkWorld (Z.max (Loop.clock w) (Loop.due t)) (Loop.fresh w) q
                         (Loop.comp w))).
Proof.
  intros Hq H. cbn [Loop.advance]. rewrite Hq.
  rewrite earliest_head by (intros u Hu; now apply H).
  unfold Loop.fire, Loop.dequeue. rewrite Hq.
  rewrite filter_head by (intros u Hu; now apply H).
  reflexivity.
Qed.
End QueueOrder.

(** ** The cluster anatomy explorer, continued *)

Section ClusterAnatomyMore.
Import ClusterAnatomy.

Local Ltac next_timer :=
  erewrite advance_head;
  [ | cbn [Loop.queue]; reflexivity
    | intros u Hu; cbn in Hu;
      repeat (destruct Hu as [<-|Hu]; [cbn; split; lia|]);
      contradiction ];
  cbn -[Z.add Z.max Loop.advance].

(** X28. A trace started at rest visits the seven steps of the request
    path in order, each for its own duration, and then ends by itself:
    after [k] timers (k = 0..6) the cursor is on step [k] and the clock
    has advanced by the durations of the steps before it; the timer
    after those, 14 seconds after the click, clears the running flag,
    puts the cursor back to -1 and leaves nothing pending. *)
Theorem trace_visits_every_step (w : W) (k : nat) :
  Loop.queue w = [] ->
  traceRunning (Loop.comp w) = false ->
  (k <= 6)%nat ->
  let wk := Loop.advance run k (startTrace w) in
  let w7 := Loop.advance run 7 (startTrace w) in
  traceRunning (Loop.comp wk) = true /\
  traceStepIndex (Loop.comp wk) = Z.of_nat k /\
  Loop.clock wk
    = Loop.clock w
      + fold_left (fun acc s => acc + duration s) (firstn k TRACE_STEPS) 0 /\
  traceRunning (Loop.comp w7) = false /\
  traceStepIndex (Loop.comp w7) = -1 /\
  Loop.queue w7 = [] /\
  Loop.clock w7 = Loop.clock w + 14000.
Proof.
  intros Hq Hr Hk.
  destruct w as [c f q [sel running idx ref]]. cbn in Hq, Hr. subst q running.
  cbv zeta.
  assert (E : exists r,
             startTrace (Loop.mkWorld c f [] (mkState sel false idx ref))
             = Loop.mkWorld c (7 + f)
                 [Loop.mkTimer f (c + 1800) (SetStep 1);
                  Loop.mkTimer (1 + f) (c + 4000) (SetStep 2);
                  Loop.mkTimer (2 + f) (c + 5600) (SetStep 3);
                  Loop.mkTimer (3 + f) (c + 7600) (SetStep 4);
                  Loop.mkTimer (4 + f) (c + 9600) (SetStep 5);
                  Loop.mkTimer (5 + f) (c + 12000) (SetStep 6);
                  Loop.mkTimer (6 + f) (c + 14000) FinishTrace]
                 (mkState None true 0 r))
    by (eexists; simpl; reflexivity).
  destruct E as [r E].
  rewrite E. clear E.
  repeat split.
  1-3: do 7 (destruct k as [|k];
             [repeat next_timer; cbn; try reflexivity; lia|]); lia.
  all: repeat next_timer; cbn; try reflexivity; lia.
Qed.
End ClusterAnatomyMore.

Lemma trace_visits_every_step_witness :
  let w := Loop.boot ClusterAnatomy.initial in
  let wk := Loop.advance ClusterAnatomy.run 3 (ClusterAnatomy.startTrace w) in
  let w7 := Loop.advance ClusterAnatomy.run 7 (ClusterAnatomy.startTrace w) in
  ClusterAnatomy.traceRunning (Loop.comp wk) = true /\
  ClusterAnatomy.traceStepIndex (Loop.comp wk) = Z.of_nat 3 /\
  Loop.clock wk
    = Loop.clock w
      + fold_left (fun acc s => acc + ClusterAnatomy.duration s)
                  (firstn 3 ClusterAnatomy.TRACE_STEPS) 0 /\
  ClusterAnatomy.traceRunning (Loop.comp w7) = false /\
  ClusterAnatomy.traceStepIndex (Loop.comp w7) = -1 /\
  Loop.queue w7 = [] /\
  Loop.clock w7 = Loop.clock w + 14000.
Proof.
  apply (trace_visits_every_step (Loop.boot ClusterAnatomy.initial) 3).
  - reflexivity.
  - reflexivity.
  - lia.
Defined.

(** ** The service routing simulator, continued *)

Section ServiceRoutingMore.
Import ServiceRouting.

Local Ltac only_timer :=
  erewrite advance_head;
  [ | cbn [Loop.queue]; reflexivity | intros u [] ];
  cbn -[Z.add Z.max Loop.advance nth POD_TARGETS Z.modulo].

Lemma POD_TARGETS_nth (n : Z) :
  0 <= n ->
  nth_error POD_TARGETS (Z.to_nat (n mod 3))
  = Some (nth (Z.to_nat (n mod 3)) POD_TARGETS EmptyString).
Proof.
  intros Hn. pose proof (Z.mod_pos_bound n 3 ltac:(lia)) as Hb.
  assert (H : n mod 3 = 0 \/ n mod 3 = 1 \/ n mod 3 = 2) by lia.
  destruct H as [-> | [-> | ->]]; reflexivity.
Qed.

(** X29. Requests go to the pods in rotation: a request sent at rest and
    left alone ends, whatever the service type, on the pod whose place
    in [POD_TARGETS] is the number of earlier requests modulo 3; when
    its timers have run the simulator is at rest again, with no layer
    lit, no pulse, nothing pending and the request counted. *)
Theorem requests_rotate_over_the_pods (w : W) :
  Loop.queue w = [] ->
  animating (Loop.comp w) = false ->
  isMounted (Loop.comp w) = true ->
  0 <= runCount (Loop.comp w) ->
  let w' := Loop.advance run 10 (handleSendRequest w) in
  (exists pod,
     nth_error POD_TARGETS (Z.to_nat (runCount (Loop.comp w) mod 3)) = Some pod /\
     targetedPod (Loop.comp w') = Some pod) /\
  runCount (Loop.comp w') = runCount (Loop.comp w) + 1 /\
  activeType (Loop.comp w') = activeType (Loop.comp w) /\
  animating (Loop.comp w') = false /\
  activeLayerId (Loop.comp w') = None /\
  pulsingPod (Loop.comp w') = None /\
  Loop.queue w' = [].
Proof.
  intros Hq Ha Hm Hn.
  destruct w as [c f q [ty an layer tp pp n ab ids mounted]].
  cbn in Hq, Ha, Hm, Hn. subst q an mounted.
  pose proof (POD_TARGETS_nth n Hn) as Hp.
  cbv zeta. unfold handleSendRequest.
  cbn -[Z.add Z.max Loop.advance nth POD_TARGETS Z.modulo].
  set (target := nth (Z.to_nat (n mod 3)) POD_TARGETS _) in *.
  destruct ty; cbn -[Z.add Z.max Loop.advance nth POD_TARGETS Z.modulo];
    repeat only_timer;
    cbn -[Z.add Z.max nth POD_TARGETS Z.modulo];
    (split; [exists target; split; [exact Hp | reflexivity]|]);
    repeat split.
Qed.
End ServiceRoutingMore.

Lemma requests_rotate_over_the_pods_witness :
  let w := Loop.advance ServiceRouting.run 10
             (ServiceRouting.handleSendRequest (Loop.boot ServiceRouting.initial)) in
  let w' := Loop.advance ServiceRouting.run 10 (ServiceRouting.handleSendRequest w) in
  ServiceRouting.targetedPod (Loop.comp w) = Some "pod-a"%string /\
  ServiceRouting.targetedPod (Loop.comp w') = Some "pod-b"%string /\
  (exists pod,
     nth_error ServiceRouting.POD_TARGETS
       (Z.to_nat (ServiceRouting.runCount (Loop.comp w) mod 3)) = Some pod /\
     ServiceRouting.targetedPod (Loop.comp w') = Some pod) /\
  ServiceRouting.runCount (Loop.comp w') = ServiceRouting.runCount (Loop.comp w) + 1 /\
  ServiceRouting.activeType (Loop.comp w') = ServiceRouting.activeType (Loop.comp w) /\
  ServiceRouting.animating (Loop.comp w') = false /\
  ServiceRouting.activeLayerId (Loop.comp w') = None /\
  ServiceRouting.pulsingPod (Loop.comp w') = None /\
  Loop.queue w' = [].
Proof.
  split; [reflexivity|]. split; [reflexivity|].
  apply requests_rotate_over_the_pods; try reflexivity. vm_compute. discriminate.
Defined.
